(** * update-db: a shallow embedding of [update-db.mjs]

    The script applies the SQL change-scripts listed in [db/db-updates.json]
    to a PostgreSQL database inside one transaction and records name and
    SHA-256 of every applied script in the table [public.db_updates].

    Conventions of the embedding.
    - A JavaScript string is a [string]: one [ascii] per UTF-16 code unit, so
      the texts covered are those over code units below 256.  Matching and
      replacement work on the list of code units.
    - The script directory is a finite map from file name to file text; the
      entries of the manifest are taken as plain file names of that flat
      directory.
    - The database is the ledger table [public.db_updates] plus the rest of
      the database, on which the script bodies act through an executor that
      the development is parametric in.  Script bodies leave the ledger
      table alone.
    - The ledger table is the list of its rows in the order in which the
      [SELECT] of [query_db_updates], which has no [ORDER BY], returns them.
      The model takes the order of a PostgreSQL heap in which no space has
      been reclaimed: [INSERT] writes a row behind the rows there are, and
      [UPDATE] leaves the old version of a row where it is, invisible, and
      writes the new version behind the rows there are, so that an updated
      row moves to the end and the other rows keep their order.
    - [loglevel]'s methods are taken from the logger in the first lines of
      the script, before [setLevel(2)] replaces them on the logger: [error]
      prints, [info] and [log] stay the no-ops of the default level.  The
      calls of [info] and [log] therefore print nothing and are left out,
      the closing [info] with the counter of applied updates among them.
    - Colours and the [ora] spinners of the steps that succeed are left out;
      what else the process prints, the statements it sends and the attempt
      to connect are kept as a list of structured events. *)

From Stdlib Require Import NArith Ascii String List Lia.
From stdpp Require Import base option list strings gmap sorting.

Local Open Scope string_scope.
Local Open Scope list_scope.

(** ** JavaScript strings and regular expressions *)

Module JS.

Definition code_units (s : string) : list ascii := list_ascii_of_string s.
Definition of_code_units (l : list ascii) : string := string_of_list_ascii l.

(** [v] is falsy: [undefined] or the empty string. *)
Definition falsy (v : option string) : bool :=
  match v with
  | None => true
  | Some s => if decide (s = "") then true else false
  end.

(** [String.prototype.toLowerCase], on the ASCII letters. *)
Definition lower_unit (c : ascii) : ascii :=
  let n := N_of_ascii c in
  if ((65 <=? n) && (n <=? 90))%N then ascii_of_N (n + 32) else c.

Definition toLowerCase (s : string) : string :=
  of_code_units (map lower_unit (code_units s)).

(** [Array.prototype.find]. *)
Definition find {A} (f : A → bool) (l : list A) : option A := List.find f l.

(** [s] starts with [w]: the rest of [s] after [w]. *)
Fixpoint strip (w s : list ascii) : option (list ascii) :=
  match w with
  | [] => Some s
  | a :: w' =>
      match s with
      | [] => None
      | c :: s' => if decide (a = c) then strip w' s' else None
      end
  end.

(** First occurrence of [w] in [s]: the text before it and the text after. *)
Fixpoint indexOf (w s : list ascii) : option (list ascii * list ascii) :=
  match strip w s with
  | Some post => Some ([], post)
  | None =>
      match s with
      | [] => None
      | c :: s' =>
          match indexOf w s' with
          | Some (pre, post) => Some (c :: pre, post)
          | None => None
          end
      end
  end.

(** The shortest run of characters in [p] after which [s] goes on with
    [stop]: the run and the text after [stop]. *)
Fixpoint scan (p : ascii → bool) (stop s : list ascii)
    : option (list ascii * list ascii) :=
  match strip stop s with
  | Some post => Some ([], post)
  | None =>
      match s with
      | [] => None
      | c :: s' =>
          if p c then
            match scan p stop s' with
            | Some (w, post) => Some (c :: w, post)
            | None => None
            end
          else None
      end
  end.

(** The regular expressions of the script use literals, [.], a character
    class, [^], lazy stars over one character and capture groups. *)
Inductive Regex : Type :=
  | RLit (w : list ascii)
  | RChar (p : ascii → bool)
  | RBol
  | RSeq (r1 r2 : Regex)
  | RLazyStar (p : ascii → bool)
  | RGroup (n : nat) (r : Regex).

Record MatchState : Type := MkState {
  ms_pos : nat;
  ms_rest : list ascii;
  ms_caps : list (option (list ascii))
}.

Definition Cont : Type := MatchState → option MatchState.

(** [p*?]: first the continuation, then one more character. *)
Fixpoint lazy_star (p : ascii → bool) (k : Cont) (pos : nat)
    (rest : list ascii) (caps : list (option (list ascii))) : option MatchState :=
  match k (MkState pos rest caps) with
  | Some r => Some r
  | None =>
      match rest with
      | [] => None
      | c :: rest' => if p c then lazy_star p k (S pos) rest' caps else None
      end
  end.

(** The backtracking matcher, in continuation-passing style. *)
Fixpoint m (r : Regex) (k : Cont) (st : MatchState) : option MatchState :=
  match r with
  | RLit w =>
      match strip w (ms_rest st) with
      | Some rest' => k (MkState (ms_pos st + length w) rest' (ms_caps st))
      | None => None
      end
  | RChar p =>
      match ms_rest st with
      | [] => None
      | c :: rest' =>
          if p c then k (MkState (S (ms_pos st)) rest' (ms_caps st)) else None
      end
  | RBol => if decide (ms_pos st = 0) then k st else None
  | RSeq r1 r2 => m r1 (m r2 k) st
  | RLazyStar p => lazy_star p k (ms_pos st) (ms_rest st) (ms_caps st)
  | RGroup n r =>
      m r (fun st' =>
             let w := take (ms_pos st' - ms_pos st) (ms_rest st) in
             k (MkState (ms_pos st') (ms_rest st') (<[n := Some w]> (ms_caps st'))))
        st
  end.

(** A successful match: the text before it, the matched text, the text
    after it and the captures; [mt_caps !! 0] is the first group. *)
Record Match : Type := MkMatch {
  mt_pre : list ascii;
  mt_text : list ascii;
  mt_post : list ascii;
  mt_caps : list (option (list ascii))
}.

(** [RegExp.prototype.exec] of a regular expression without flags: the
    leftmost start index at which the matcher succeeds. *)
Fixpoint search (r : Regex) (groups : nat) (pre s : list ascii) : option Match :=
  match m r Some (MkState (length pre) s (replicate groups None)) with
  | Some st =>
      Some (MkMatch pre (take (ms_pos st - length pre) s) (ms_rest st) (ms_caps st))
  | None =>
      match s with
      | [] => None
      | c :: s' => search r groups (pre ++ [c]) s'
      end
  end.

Definition exec (r : Regex) (groups : nat) (s : string) : option Match :=
  search r groups [] (code_units s).

Definition test (r : Regex) (groups : nat) (s : string) : bool :=
  match exec r groups s with Some _ => true | None => false end.

(** [s.match(r)[i]] for [i >= 1]; [None] is [undefined]. *)
Definition group (i : nat) (mt : Match) : option string :=
  match mt_caps mt !! (i - 1) with
  | Some (Some w) => Some (of_code_units w)
  | _ => None
  end.

Definition digit (c : ascii) : option nat :=
  let n := N_of_ascii c in
  if ((48 <=? n) && (n <=? 57))%N then Some (N.to_nat (n - 48)) else None.

Definition capture (caps : list (option (list ascii))) (n : nat) : list ascii :=
  match caps !! (n - 1) with
  | Some (Some w) => w
  | _ => []
  end.

(** [GetSubstitution]: the replacement text with its [$] patterns filled in. *)
Fixpoint getSubstitution (mt : Match) (tpl : list ascii) : list ascii :=
  match tpl with
  | [] => []
  | c :: t =>
      if decide (c = "$"%char) then
        match t with
        | [] => [c]
        | d :: t' =>
            if decide (d = "$"%char) then "$"%char :: getSubstitution mt t'
            else if decide (d = "&"%char) then mt_text mt ++ getSubstitution mt t'
            else if decide (d = "`"%char) then mt_pre mt ++ getSubstitution mt t'
            else if decide (d = "'"%char) then mt_post mt ++ getSubstitution mt t'
            else
              match digit d with
              | None => c :: getSubstitution mt t
              | Some n1 =>
                  let one :=
                    if decide (1 ≤ n1 ≤ length (mt_caps mt))%nat
                    then capture (mt_caps mt) n1 ++ getSubstitution mt t'
                    else c :: getSubstitution mt t in
                  match t' with
                  | [] => one
                  | e :: t'' =>
                      match digit e with
                      | None => one
                      | Some n2 =>
                          let nn := 10 * n1 + n2 in
                          if decide (1 ≤ nn ≤ length (mt_caps mt))%nat
                          then capture (mt_caps mt) nn ++ getSubstitution mt t''
                          else one
                      end
                  end
              end
        end
      else c :: getSubstitution mt t
  end.

(** [s.replace(pattern, tpl)] with a string pattern: the first occurrence. *)
Definition replace_string (pattern tpl s : string) : string :=
  match indexOf (code_units pattern) (code_units s) with
  | Some (pre, post) =>
      let mt := MkMatch pre (code_units pattern) post [] in
      of_code_units (pre ++ getSubstitution mt (code_units tpl) ++ post)
  | None => s
  end.

(** [s.replace(r, tpl)] with a regular expression without the [g] flag. *)
Definition replace_regex (r : Regex) (groups : nat) (tpl s : string) : string :=
  match exec r groups s with
  | Some mt =>
      of_code_units (mt_pre mt ++ getSubstitution mt (code_units tpl) ++ mt_post mt)
  | None => s
  end.

(** Line terminators over the code units covered: LF and CR. *)
Definition line_terminator (c : ascii) : bool :=
  if decide (c = "010"%char) then true
  else if decide (c = "013"%char) then true else false.

Definition dot (c : ascii) : bool := negb (line_terminator c).

Definition letter (c : ascii) : bool :=
  let n := N_of_ascii c in
  (((65 <=? n) && (n <=? 90)) || ((97 <=? n) && (n <=? 122)))%N.

Definition lit (s : string) : Regex := RLit (code_units s).

End JS.

(** ** The template expander *)

(** The replacement text for the placeholder [%DEFAULT_COLUMNS%]. *)
Definition default_columns : string :=
  "-- default columns:
    ADD COLUMN IF NOT EXISTS created_at TIMESTAMP WITH TIME ZONE NOT NULL DEFAULT CURRENT_TIMESTAMP
  , ADD COLUMN IF NOT EXISTS created_by UUID NOT NULL DEFAULT COALESCE(auth.uid(), uuid('00000000-0000-0000-0000-000000000000'))
  , ADD COLUMN IF NOT EXISTS updated_at TIMESTAMP WITH TIME ZONE NOT NULL DEFAULT CURRENT_TIMESTAMP
  , ADD COLUMN IF NOT EXISTS updated_by UUID NOT NULL DEFAULT COALESCE(auth.uid(), uuid('00000000-0000-0000-0000-000000000000'))
  , ADD COLUMN IF NOT EXISTS deleted_at TIMESTAMP WITH TIME ZONE
  , ADD COLUMN IF NOT EXISTS deleted_by UUID
  , ADD COLUMN IF NOT EXISTS deleted_reason TEXT
".

(** The replacement text for [%DEFAULT_TRIGGER(schema.object)%]. *)
Definition default_trigger : string :=
  "-- default trigger
DROP TRIGGER IF EXISTS tr_$1_$2_update ON $1.$2;
DROP FUNCTION IF EXISTS $1.func_tr_$1_$2_update;
CREATE FUNCTION public.func_tr_$1_$2_update() RETURNS TRIGGER
    LANGUAGE PLPGSQL
    AS
$func$

BEGIN
    NEW.updated_at := now();
    NEW.updated_by := COALESCE(auth.uid(), uuid('00000000-0000-0000-0000-000000000000'));
    RETURN NEW;
END;
$func$;

CREATE TRIGGER tr_$1_$2_update
    BEFORE UPDATE
    ON $1.$2
    FOR EACH ROW
    EXECUTE FUNCTION $1.func_tr_$1_$2_update();
".

(** [/%DEFAULT_TRIGGER\((.*?)\.(.*?)\)%/] *)
Definition rxDefaultTrigger : JS.Regex :=
  JS.RSeq (JS.lit "%DEFAULT_TRIGGER(")
    (JS.RSeq (JS.RGroup 0 (JS.RLazyStar JS.dot))
       (JS.RSeq (JS.lit ".")
          (JS.RSeq (JS.RGroup 1 (JS.RLazyStar JS.dot)) (JS.lit ")%")))).

(** The first [replace] of [injectDefaults]. *)
Definition inject_columns (query : string) : string :=
  JS.replace_string "%DEFAULT_COLUMNS%" default_columns query.

(** The second [replace] of [injectDefaults]. *)
Definition inject_trigger (query : string) : string :=
  JS.replace_regex rxDefaultTrigger 2 default_trigger query.

(** The text of a trigger placeholder with schema [c1] and object [c2]. *)
Definition marker_text (c1 c2 : list ascii) : list ascii :=
  JS.code_units "%DEFAULT_TRIGGER(" ++ c1 ++ "."%char :: c2 ++ JS.code_units ")%".

(** The text has a trigger placeholder: the marker, a schema and an object
    on one line. *)
Definition has_marker (s : string) : Prop :=
  ∃ pre c1 c2 post,
    JS.code_units s = pre ++ marker_text c1 c2 ++ post
    ∧ Forall (fun c => JS.dot c = true) c1
    ∧ Forall (fun c => JS.dot c = true) c2.

(** The text has the columns placeholder. *)
Definition has_columns (s : string) : Prop :=
  ∃ pre post, JS.code_units s = pre ++ JS.code_units "%DEFAULT_COLUMNS%" ++ post.

(** The text put in place of a trigger placeholder with schema [c1] and
    object [c2]. *)
Definition trigger_text (c1 c2 : list ascii) : list ascii :=
  JS.getSubstitution (JS.MkMatch [] [] [] [Some c1; Some c2])
    (JS.code_units default_trigger).

(** The schema and the object of the first trigger placeholder have no [%]. *)
Definition plain_names (s : string) : Prop :=
  ∀ mt, JS.exec rxDefaultTrigger 2 s = Some mt →
        ("%"%char ∉ JS.capture (JS.mt_caps mt) 1)
        ∧ ("%"%char ∉ JS.capture (JS.mt_caps mt) 2).

(** The first columns placeholder and the first trigger placeholder share
    no character: one ends before the other starts. *)
Definition apart (s : string) : Prop :=
  ∀ a c mt,
    JS.indexOf (JS.code_units "%DEFAULT_COLUMNS%") (JS.code_units s) = Some (a, c) →
    JS.exec rxDefaultTrigger 2 s = Some mt →
    (length a + length (JS.code_units "%DEFAULT_COLUMNS%") ≤ length (JS.mt_pre mt))%nat
    ∨ (length (JS.mt_pre mt) + length (JS.mt_text mt) ≤ length a)%nat.

Definition injectDefaults (query : string) : string :=
  let newQuery := inject_columns query in
  let newQuery := inject_trigger newQuery in
  newQuery.

(** ** SHA-256 (FIPS 180-4), as [sha.js] computes it on a string

    [new shajs('sha256').update(script).digest('hex')]: the string is
    encoded as UTF-8 and the digest is printed as 64 lowercase hexadecimal
    digits. *)

Module SHA256.
Local Open Scope N_scope.

Definition word (x : N) : N := x mod 2 ^ 32.
Definition add (x y : N) : N := word (x + y).
Definition rotr (n x : N) : N := N.lor (N.shiftr x n) (word (N.shiftl x (32 - n))).
Definition shr (n x : N) : N := N.shiftr x n.
Definition not32 (x : N) : N := N.lxor x (2 ^ 32 - 1).

Definition Ch (x y z : N) : N := N.lxor (N.land x y) (N.land (not32 x) z).
Definition Maj (x y z : N) : N :=
  N.lxor (N.lxor (N.land x y) (N.land x z)) (N.land y z).
Definition Sigma0 (x : N) : N := N.lxor (N.lxor (rotr 2 x) (rotr 13 x)) (rotr 22 x).
Definition Sigma1 (x : N) : N := N.lxor (N.lxor (rotr 6 x) (rotr 11 x)) (rotr 25 x).
Definition sigma0 (x : N) : N := N.lxor (N.lxor (rotr 7 x) (rotr 18 x)) (shr 3 x).
Definition sigma1 (x : N) : N := N.lxor (N.lxor (rotr 17 x) (rotr 19 x)) (shr 10 x).

(** The first [n] primes. *)
Definition is_prime (p : N) : bool :=
  forallb (fun d => negb (p mod d =? 0))
          (map N.of_nat (seq 2 (N.to_nat p - 2))).

Definition first_primes (n : nat) : list N :=
  take n (List.filter is_prime (map N.of_nat (seq 2 400))).

(** The integer [k]-th root of [x], bit by bit. *)
Definition iroot (k x : N) : N :=
  fold_left (fun r bit => let c := r + 2 ^ N.of_nat bit in
                          if c ^ k <=? x then c else r)
            (rev (seq 0 48)) 0.

(** The first 32 bits of the fractional part of the [k]-th root of [p]. *)
Definition frac_root (k p : N) : N := word (iroot k (p * 2 ^ (32 * k))).

(** K(0..63): from the cube roots of the first 64 primes. *)
Definition K : list N := Eval vm_compute in map (frac_root 3) (first_primes 64).

(** H(0): from the square roots of the first 8 primes. *)
Definition H0 : list N := Eval vm_compute in map (frac_root 2) (first_primes 8).

(** UTF-8 encoding of the code units below 256. *)
Definition utf8 (s : string) : list N :=
  flat_map (fun c =>
              let n := N_of_ascii c in
              if n <? 128 then [n]
              else [N.lor 0xC0 (N.shiftr n 6); N.lor 0x80 (N.land n 0x3F)])
           (JS.code_units s).

(** Big-endian bytes of [x], [n] of them. *)
Fixpoint be_bytes (n : nat) (x : N) : list N :=
  match n with
  | O => []
  | S n' => be_bytes n' (N.shiftr x 8) ++ [x mod 256]
  end.

Definition pad (msg : list N) : list N :=
  let len := N.of_nat (length msg) in
  let zeros := N.to_nat ((119 - len mod 64) mod 64) in
  msg ++ [0x80] ++ replicate zeros 0 ++ be_bytes 8 (8 * len).

Definition be_word (b : list N) : N :=
  fold_left (fun acc x => acc * 256 + x) b 0.

(** Cut [l] into pieces of [n] elements. *)
Fixpoint chunks {A} (fuel n : nat) (l : list A) : list (list A) :=
  match fuel with
  | O => []
  | S fuel' =>
      match l with
      | [] => []
      | _ => take n l :: chunks fuel' n (drop n l)
      end
  end.

(** The message schedule: [w] holds W(0..t-1), and [k] more are added. *)
Fixpoint schedule (k : nat) (w : list N) : list N :=
  match k with
  | O => w
  | S k' =>
      let t := length w in
      let at_ i := nth (t - i) w 0 in
      schedule k' (w ++ [add (add (sigma1 (at_ 2%nat)) (at_ 7%nat))
                             (add (sigma0 (at_ 15%nat)) (at_ 16%nat))])
  end.

Definition round (v : list N) (kw : N * N) : list N :=
  match v with
  | [a; b; c; d; e; f; g; h] =>
      let t1 := add (add (add h (Sigma1 e)) (add (Ch e f g) kw.1)) kw.2 in
      let t2 := add (Sigma0 a) (Maj a b c) in
      [add t1 t2; a; b; c; add d t1; e; f; g]
  | _ => v
  end.

Definition compress (h : list N) (block : list N) : list N :=
  let w := schedule 48 (map be_word (chunks 16 4 block)) in
  let v := fold_left round (combine K w) h in
  map (fun p => add p.1 p.2) (combine h v).

Definition hex_digit (x : N) : ascii :=
  if x <? 10 then ascii_of_N (48 + x) else ascii_of_N (87 + x).

Definition hex_byte (x : N) : list ascii := [hex_digit (x / 16); hex_digit (x mod 16)].

Definition digest (msg : list N) : list N :=
  let blocks := chunks (S (length msg)) 64 (pad msg) in
  flat_map (be_bytes 4) (fold_left compress blocks H0).

Definition hex (s : string) : string :=
  JS.of_code_units (flat_map hex_byte (digest (utf8 s))).

End SHA256.

Global Arguments SHA256.hex : simpl never.

(** ** The manifest, the script directory and the consistency checks *)

(** The parsed [db/db-updates.json]. *)
Record UpdateScripts : Type := {
  updates : list string;
  ignore : list string
}.

(** [fs.readdirSync] followed by [updateScriptFiles.sort()]. *)
Definition readdirSync (dir : gmap string string) : list string :=
  (map_to_list dir).*1.

Definition sort (files : list string) : list string :=
  merge_sort String.le files.

Definition warnNotReferencedScripts (updateScripts : UpdateScripts)
    (updateScriptFiles : list string) : list string :=
  List.filter
    (fun updateScriptFile =>
       JS.falsy (JS.find (fun item => bool_decide (item = updateScriptFile))
                         (updates updateScripts))
       && JS.falsy (JS.find (fun item => bool_decide (item = updateScriptFile))
                            (ignore updateScripts)))
    updateScriptFiles.

(** [/(^[a-zA-Z]*?\..*?) TABLE/] *)
Definition rxTableName : JS.Regex :=
  JS.RSeq
    (JS.RGroup 0
       (JS.RSeq JS.RBol
          (JS.RSeq (JS.RLazyStar JS.letter)
             (JS.RSeq (JS.lit ".") (JS.RLazyStar JS.dot)))))
    (JS.lit " TABLE").

(** [/(.*?) RLS/] *)
Definition rxRLSName : JS.Regex :=
  JS.RSeq (JS.RGroup 0 (JS.RLazyStar JS.dot)) (JS.lit " RLS").

(** [s.match(r)[1]] *)
Definition match1 (r : JS.Regex) (s : string) : option string :=
  JS.exec r 1 s ≫= JS.group 1.

(** The callback of the inner [find]: [updateScriptFile2] is an RLS script
    for the table of [updateScriptFile]. *)
Definition isRLSOf (updateScriptFile updateScriptFile2 : string) : bool :=
  if JS.test rxRLSName 1 updateScriptFile2
  then bool_decide (match1 rxTableName updateScriptFile
                    = match1 rxRLSName updateScriptFile2)
  else false.

Definition warnTablesWithoutRLS (updateScriptFiles : list string) : list string :=
  List.filter
    (fun updateScriptFile =>
       JS.test rxTableName 1 updateScriptFile
       && JS.falsy (JS.find (isRLSOf updateScriptFile) updateScriptFiles))
    updateScriptFiles.

(** The name has no line terminator. *)
Definition one_line (s : string) : Prop :=
  Forall (fun c => JS.dot c = true) (JS.code_units s).

(** [prefix] is the text of [s] before its first [sep]. *)
Definition splits_at (sep s prefix : string) : Prop :=
  ∃ post, JS.indexOf (JS.code_units sep) (JS.code_units s)
          = Some (JS.code_units prefix, post).

(** A run of ASCII letters. *)
Definition letters (s : string) : Prop :=
  Forall (fun c => JS.letter c = true) (JS.code_units s).

(** ** The database and the [pg] client *)

(** A row of [public.db_updates]: the columns [name] and [sha256].  The
    table has no uniqueness constraint on [name]. *)
Record Row : Type := MkRow {
  name : string;
  sha256 : string
}.

Global Instance Row_eq_dec : EqDecision Row.
Proof. solve_decision. Defined.

(** The statements the script sends. *)
Inductive Query : Type :=
  | Begin
  | Commit
  | Rollback
  | ManageTable                       (* the DDL of [manage_db_updates_table] *)
  | SelectUpdates                     (* [SELECT ... FROM public.db_updates] *)
  | Script (body : string)            (* the body of a change-script *)
  | UpdateRow (sha updateScript : string)
  | InsertRow (updateScript sha : string).

Inductive Error : Type :=
  | FileNotFound (updateScript : string)
  | QueryFailed (q : Query)
  | ConnectFailed
  | ReadFailed (path : string).

(** What the process prints and does, in order. *)
Inductive Event : Type :=
  | EnvVarNotSet (key : string)
  | DoesNotExist (path : string)
  | Connect
  | Sent (q : Query)
  | Skipping (updateScript : string)
  | Failed (err : Error)
  | WarnNotReferenced (updateScriptFile : string)
  | WarnNoRLS (updateScriptFile : string)
  | NotCommitted.

Global Instance Query_eq_dec : EqDecision Query.
Proof. solve_decision. Defined.
Global Instance Error_eq_dec : EqDecision Error.
Proof. solve_decision. Defined.
Global Instance Event_eq_dec : EqDecision Event.
Proof. solve_decision. Defined.

Inductive Result (A : Type) : Type :=
  | Ret (a : A)
  | Throw (err : Error)
  | Exit (code : nat).
Global Arguments Ret {A} a.
Global Arguments Throw {A} err.
Global Arguments Exit {A} code.

(** The process environment. *)
Record Env : Type := {
  argv : list string;
  process_env : gmap string string;
  (** [db/db-updates], when it exists *)
  scripts_dir : option (gmap string string);
  (** [db/db-updates.json], when it can be read and parsed *)
  scripts_json : option UpdateScripts;
  (** whether [pgClient.connect()] succeeds *)
  reachable : bool
}.

Definition UPDATE_SCRIPTS_LOCATION : string := "db/db-updates".
Definition UPDATE_SCRIPTS_JSON_LOCATION : string := "db/db-updates.json".

Definition doCommit (env : Env) : option string :=
  JS.find (fun arg => bool_decide (JS.toLowerCase arg = "--commit")) (argv env).

Section Engine.

(** The rest of the database and the executor of a script body on it;
    [None] when the body fails. *)
Context {Objects : Type}.
Variable run_sql : string → Objects → option Objects.

Record Database : Type := MkDatabase {
  objects : Objects;
  (** the ledger table, when it exists *)
  db_updates : option (list Row)
}.

(** A session: the committed database and the working copy of the open
    transaction. *)
Record Client : Type := MkClient {
  committed : Database;
  tx : option Database
}.

Definition current (c : Client) : Database := default (committed c) (tx c).

Definition store (c : Client) (d : Database) : Client :=
  match tx c with
  | Some _ => MkClient (committed c) (Some d)
  | None => MkClient d None
  end.

Definition set_sha (sha updateScript : string) (r : Row) : Row :=
  if decide (name r = updateScript) then MkRow (name r) sha else r.

(** [UPDATE public.db_updates SET sha256 = sha WHERE name = updateScript]:
    the new versions of the rows of that name are written behind the other
    rows. *)
Definition update_rows (sha updateScript : string) (rows : list Row) : list Row :=
  filter (fun r => name r ≠ updateScript) rows
  ++ (set_sha sha updateScript <$> filter (fun r => name r = updateScript) rows).

(** One statement on a database: the new database and the rows returned. *)
Definition statement (q : Query) (d : Database) : option (Database * list Row) :=
  match q with
  | ManageTable =>
      Some (MkDatabase (objects d) (Some (default [] (db_updates d))), [])
  | SelectUpdates => rows ← db_updates d; Some (d, rows)
  | Script body =>
      objs ← run_sql body (objects d); Some (MkDatabase objs (db_updates d), [])
  | UpdateRow sha updateScript =>
      rows ← db_updates d;
      Some (MkDatabase (objects d) (Some (update_rows sha updateScript rows)), [])
  | InsertRow updateScript sha =>
      rows ← db_updates d;
      Some (MkDatabase (objects d) (Some (rows ++ [MkRow updateScript sha])), [])
  | Begin | Commit | Rollback => Some (d, [])
  end.

(** [pgClient.query]: outside a transaction every statement commits at once. *)
Definition query (q : Query) (c : Client) : option (Client * list Row) :=
  match q with
  | Begin => Some (MkClient (committed c) (Some (current c)), [])
  | Commit => Some (MkClient (current c) None, [])
  | Rollback => Some (MkClient (committed c) None, [])
  | _ => '(d, rows) ← statement q (current c); Some (store c d, rows)
  end.

(** The state of a run and the monad of the script: state, output, and an
    exception or [process.exit]. *)
Record World : Type := MkWorld {
  client : Client;
  log : list Event
}.

Definition IO (A : Type) : Type := World → World * Result A.

Global Instance IO_ret : MRet IO := fun A a w => (w, Ret a).

Global Instance IO_bind : MBind IO := fun A B f x w =>
  match x w with
  | (w', Ret a) => f a w'
  | (w', Throw err) => (w', Throw err)
  | (w', Exit code) => (w', Exit code)
  end.

Definition throw {A} (err : Error) : IO A := fun w => (w, Throw err).
Definition exit {A} (code : nat) : IO A := fun w => (w, Exit code).

Definition try_catch {A} (body : IO A) (handler : Error → IO A) : IO A :=
  fun w =>
    match body w with
    | (w', Throw err) => handler err w'
    | r => r
    end.

Definition emit (e : Event) : IO unit :=
  fun w => (MkWorld (client w) (log w ++ [e]), Ret tt).

Definition pgQuery (q : Query) : IO (list Row) :=
  fun w =>
    let w' := MkWorld (client w) (log w ++ [Sent q]) in
    match query q (client w) with
    | Some (c, rows) => (MkWorld c (log w'), Ret rows)
    | None => (w', Throw (QueryFailed q))
    end.

Fixpoint forEach {A} (l : list A) (f : A → IO unit) : IO unit :=
  match l with
  | [] => mret tt
  | x :: l' => f x ;; forEach l' f
  end.

Definition checkEnvVarAndQuitIfFalsy (key : string) (value : option string) : IO unit :=
  if JS.falsy value then emit (EnvVarNotSet key) ;; exit 1 else mret tt.

Definition manage_db_updates_table : IO unit :=
  pgQuery ManageTable ;; mret tt.

Definition query_db_updates : IO (list Row) :=
  pgQuery SelectUpdates.

Definition printWarnings (warnNotReferencedScripts warnTablesWithoutRLS : list string)
    : IO unit :=
  forEach warnNotReferencedScripts (fun f => emit (WarnNotReferenced f)) ;;
  forEach warnTablesWithoutRLS (fun f => emit (WarnNoRLS f)).

(** [alreadyApplied_db_updates.find((dbu) => dbu.name === updateScript)] *)
Definition alreadyAppliedScript (alreadyApplied_db_updates : list Row)
    (updateScript : string) : option Row :=
  JS.find (fun dbu => bool_decide (name dbu = updateScript))
          alreadyApplied_db_updates.

(** The body of the loop over [updateScripts.updates]. *)
Definition apply_update (dir : gmap string string)
    (alreadyApplied_db_updates : list Row) (updateScript : string)
    (updateCounter : nat) : IO nat :=
  match dir !! updateScript with
  | None => throw (FileNotFound updateScript)
  | Some script =>
      let sha := SHA256.hex script in
      let script := injectDefaults script in
      let alreadyAppliedScript :=
        alreadyAppliedScript alreadyApplied_db_updates updateScript in
      if match alreadyAppliedScript with
         | Some dbu => bool_decide (sha256 dbu = sha)
         | None => false
         end
      then emit (Skipping updateScript) ;; mret updateCounter
      else
        let updateCounter := S updateCounter in
        pgQuery (Script script) ;;
        match alreadyAppliedScript with
        | Some _ => pgQuery (UpdateRow sha updateScript) ;; mret updateCounter
        | None => pgQuery (InsertRow updateScript sha) ;; mret updateCounter
        end
  end.

Fixpoint apply_updates (dir : gmap string string)
    (alreadyApplied_db_updates : list Row) (l : list string)
    (updateCounter : nat) : IO nat :=
  match l with
  | [] => mret updateCounter
  | updateScript :: l' =>
      c ← apply_update dir alreadyApplied_db_updates updateScript updateCounter;
      apply_updates dir alreadyApplied_db_updates l' c
  end.

(** The asynchronous part of the script.  The closing [info] with
    [updateCounter] prints nothing (see the conventions): the counter is
    computed and not shown. *)
Definition run_updates (env : Env) (dir : gmap string string)
    (updateScripts : UpdateScripts)
    (warnNotReferencedScripts warnTablesWithoutRLS : list string) : IO unit :=
  try_catch
    (emit Connect ;;
     (if reachable env then mret tt else throw ConnectFailed) ;;
     manage_db_updates_table ;;
     alreadyApplied_db_updates ← query_db_updates;
     try_catch
       (pgQuery Begin ;;
        updateCounter ← apply_updates dir alreadyApplied_db_updates
                           (updates updateScripts) 0;
        if JS.falsy (doCommit env) then
          pgQuery Rollback ;;
          printWarnings warnNotReferencedScripts warnTablesWithoutRLS ;;
          emit NotCommitted ;;
          exit 0
        else
          pgQuery Commit ;;
          printWarnings warnNotReferencedScripts warnTablesWithoutRLS)
       (fun err2 =>
          emit (Failed err2) ;;
          pgQuery Rollback ;;
          exit 1))
    (fun err => emit (Failed err) ;; exit 1) ;;
  exit 0.

(** The script from its first statement on. *)
Definition main (env : Env) : IO unit :=
  checkEnvVarAndQuitIfFalsy "PGHOST" (process_env env !! "PGHOST") ;;
  checkEnvVarAndQuitIfFalsy "PGPORT" (process_env env !! "PGPORT") ;;
  checkEnvVarAndQuitIfFalsy "PGDATABASE" (process_env env !! "PGDATABASE") ;;
  checkEnvVarAndQuitIfFalsy "PGUSER" (process_env env !! "PGUSER") ;;
  checkEnvVarAndQuitIfFalsy "PGPASSWORD" (process_env env !! "PGPASSWORD") ;;
  match scripts_dir env with
  | Some _ => mret tt
  | None => emit (DoesNotExist UPDATE_SCRIPTS_LOCATION)
  end ;;
  updateScripts ← match scripts_json env with
                   | Some u => mret u
                   | None => throw (ReadFailed UPDATE_SCRIPTS_JSON_LOCATION)
                   end;
  dir ← match scripts_dir env with
         | Some d => mret d
         | None => throw (ReadFailed UPDATE_SCRIPTS_LOCATION)
         end;
  let updateScriptFiles := sort (readdirSync dir) in
  run_updates env dir updateScripts
    (warnNotReferencedScripts updateScripts updateScriptFiles)
    (warnTablesWithoutRLS updateScriptFiles).

(** The world inside the open transaction: committed database [c0], working
    copy with objects [o] and ledger rows [rows], and the events so far. *)
Definition in_tx (c0 : Database) (o : Objects) (rows : list Row)
    (lg : list Event) : World :=
  MkWorld (MkClient c0 (Some (MkDatabase o (Some rows)))) lg.

(** What one pass through the loop body does, case by case. *)
Inductive StepView (dir : gmap string string) (applied : list Row) (n : string)
    (c : nat) (c0 : Database) (o : Objects) (rows : list Row) (lg : list Event)
    : World * Result nat → Prop :=
  | SV_missing :
      dir !! n = None →
      StepView dir applied n c c0 o rows lg (in_tx c0 o rows lg, Throw (FileNotFound n))
  | SV_skip script dbu :
      dir !! n = Some script →
      alreadyAppliedScript applied n = Some dbu →
      sha256 dbu = SHA256.hex script →
      StepView dir applied n c c0 o rows lg (in_tx c0 o rows (lg ++ [Skipping n]), Ret c)
  | SV_fail script :
      dir !! n = Some script →
      (∀ dbu, alreadyAppliedScript applied n = Some dbu → sha256 dbu ≠ SHA256.hex script) →
      run_sql (injectDefaults script) o = None →
      StepView dir applied n c c0 o rows lg
        (in_tx c0 o rows (lg ++ [Sent (Script (injectDefaults script))]),
         Throw (QueryFailed (Script (injectDefaults script))))
  | SV_update script dbu o' :
      dir !! n = Some script →
      alreadyAppliedScript applied n = Some dbu →
      sha256 dbu ≠ SHA256.hex script →
      run_sql (injectDefaults script) o = Some o' →
      StepView dir applied n c c0 o rows lg
        (in_tx c0 o' (update_rows (SHA256.hex script) n rows)
           (lg ++ [Sent (Script (injectDefaults script));
                   Sent (UpdateRow (SHA256.hex script) n)]),
         Ret (S c))
  | SV_insert script o' :
      dir !! n = Some script →
      alreadyAppliedScript applied n = None →
      run_sql (injectDefaults script) o = Some o' →
      StepView dir applied n c c0 o rows lg
        (in_tx c0 o' (rows ++ [MkRow n (SHA256.hex script)])
           (lg ++ [Sent (Script (injectDefaults script));
                   Sent (InsertRow n (SHA256.hex script))]),
         Ret (S c)).

(** The outcome of a run of the process on a database: an exception that
    escapes the module ends the process with exit code 1, and a transaction
    left open is gone with the session. *)
Record Outcome : Type := MkOutcome {
  exit_code : nat;
  output : list Event;
  database : Database
}.

Definition run (env : Env) (db : Database) : Outcome :=
  let '(w, r) := main env (MkWorld (MkClient db None) []) in
  MkOutcome
    (match r with Ret _ => 0 | Throw _ => 1 | Exit code => code end)
    (log w)
    (committed (client w)).


(** *** Vocabulary for the statements below *)

(** The database after [manage_db_updates_table]: the ledger table exists. *)
Definition ensured (db : Database) : Database :=
  MkDatabase (objects db) (Some (default [] (db_updates db))).

(** The rows [query_db_updates] returns on it. *)
Definition snapshot (db : Database) : list Row := default [] (db_updates db).

(** The world when the loop over the manifest starts. *)
Definition at_begin (db : Database) : World :=
  in_tx (ensured db) (objects db) (snapshot db)
    [Connect; Sent ManageTable; Sent SelectUpdates; Sent Begin].

(** The result of the loop of a run on [db]. *)
Definition loop (dir : gmap string string) (updateScripts : UpdateScripts)
    (db : Database) : World * Result nat :=
  apply_updates dir (snapshot db) (updates updateScripts) 0 (at_begin db).

End Engine.


(** All five connection variables are set. *)
Definition configured (env : Env) : Prop :=
  Forall (fun key => JS.falsy (process_env env !! key) = false)
    ["PGHOST"; "PGPORT"; "PGDATABASE"; "PGUSER"; "PGPASSWORD"].

Global Instance configured_dec env : Decision (configured env).
Proof. unfold configured. apply _. Defined.

(** What [printWarnings] prints. *)
Definition warnings (updateScripts : UpdateScripts) (dir : gmap string string)
    : list Event :=
  let updateScriptFiles := sort (readdirSync dir) in
  map WarnNotReferenced (warnNotReferencedScripts updateScripts updateScriptFiles)
  ++ map WarnNoRLS (warnTablesWithoutRLS updateScriptFiles).

(** The three-way decision of the loop body, in the words of the
    specification. *)
Inductive Decision : Type := Skip | Update | Insert.

Definition decide_entry (applied : list Row) (updateScript sha : string) : Decision :=
  match alreadyAppliedScript applied updateScript with
  | Some dbu => if bool_decide (sha256 dbu = sha) then Skip else Update
  | None => Insert
  end.

(** What the loop body prints and sends for an entry whose statements
    succeed, as a function of the rows fetched before the loop. *)
Definition entry_events (dir : gmap string string) (applied : list Row)
    (updateScript : string) : list Event :=
  match dir !! updateScript with
  | None => []
  | Some script =>
      match decide_entry applied updateScript (SHA256.hex script) with
      | Skip => [Skipping updateScript]
      | Update => [Sent (Script (injectDefaults script));
                   Sent (UpdateRow (SHA256.hex script) updateScript)]
      | Insert => [Sent (Script (injectDefaults script));
                   Sent (InsertRow updateScript (SHA256.hex script))]
      end
  end.

(** The events that come from the loop body. *)
Definition entry_event (e : Event) : Prop :=
  match e with
  | Skipping _ | Sent (Script _) | Sent (UpdateRow _ _) | Sent (InsertRow _ _) => True
  | _ => False
  end.

(** The events before the loop. *)
Definition prologue : list Event :=
  [Connect; Sent ManageTable; Sent SelectUpdates; Sent Begin].

(** Its effect on the rows of the ledger. *)
Definition entry_rows (dir : gmap string string) (applied : list Row)
    (rows : list Row) (updateScript : string) : list Row :=
  match dir !! updateScript with
  | None => rows
  | Some script =>
      match decide_entry applied updateScript (SHA256.hex script) with
      | Skip => rows
      | Update => update_rows (SHA256.hex script) updateScript rows
      | Insert => rows ++ [MkRow updateScript (SHA256.hex script)]
      end
  end.

(** The ledger has a row for the entry with the hash of its file: the next
    run skips it. *)
Definition recorded (dir : gmap string string) (rows : list Row)
    (updateScript : string) : Prop :=
  ∀ script, dir !! updateScript = Some script →
    ∃ dbu, alreadyAppliedScript rows updateScript = Some dbu
           ∧ sha256 dbu = SHA256.hex script.

(** The rows of a run in progress, against the rows fetched before the
    loop: a row that was there is there, with its old hash or the hash of the
    file; a row that was not there has the hash of the file. *)
Definition tracks (dir : gmap string string) (applied rows : list Row) : Prop :=
  ∀ n script, dir !! n = Some script →
    match alreadyAppliedScript applied n with
    | Some r => ∃ r', alreadyAppliedScript rows n = Some r'
                      ∧ (sha256 r' = sha256 r ∨ sha256 r' = SHA256.hex script)
    | None => ∀ r', alreadyAppliedScript rows n = Some r' → sha256 r' = SHA256.hex script
    end.

(** The entries for which the loop inserts a row. *)
Definition inserted (dir : gmap string string) (applied : list Row)
    (l : list string) : list string :=
  List.filter
    (fun n => bool_decide (is_Some (dir !! n) ∧ alreadyAppliedScript applied n = None))
    l.

(** What an event of the loop says about the text that was hashed and the
    text that was executed: the hash compared and stored is the hash of the
    file as read, the body sent is the expanded text. *)
Definition raw_hashed (dir : gmap string string) (applied : list Row)
    (l : list string) (e : Event) : Prop :=
  match e with
  | Skipping n =>
      ∃ script dbu, n ∈ l ∧ dir !! n = Some script
        ∧ alreadyAppliedScript applied n = Some dbu
        ∧ sha256 dbu = SHA256.hex script
  | Sent (Script body) =>
      ∃ n script, n ∈ l ∧ dir !! n = Some script ∧ body = injectDefaults script
  | Sent (UpdateRow sha n) =>
      ∃ script dbu, n ∈ l ∧ dir !! n = Some script ∧ sha = SHA256.hex script
        ∧ alreadyAppliedScript applied n = Some dbu
        ∧ sha256 dbu ≠ SHA256.hex script
  | Sent (InsertRow n sha) =>
      ∃ script, n ∈ l ∧ dir !! n = Some script ∧ sha = SHA256.hex script
        ∧ alreadyAppliedScript applied n = None
  | _ => True
  end.


(** The rows of the ledger with name [n]. *)
Definition records (n : string) (rows : list Row) : list Row :=
  filter (fun r => name r = n) rows.

(** The events of [printWarnings]. *)
Definition is_warning (e : Event) : bool :=
  match e with
  | WarnNotReferenced _ | WarnNoRLS _ => true
  | _ => false
  end.

(** The environment with another ignore list in the manifest. *)
Definition with_ignore (env : Env) (ignore' : list string) : Env :=
  {| argv := argv env;
     process_env := process_env env;
     scripts_dir := scripts_dir env;
     scripts_json :=
       (fun us => {| updates := updates us; ignore := ignore' |}) <$> scripts_json env;
     reachable := reachable env |}.

(** How a failing entry fails: its file is missing, or its body is sent and
    rejected. *)
Definition failure (dir : gmap string string) (applied : list Row) (k : string)
    (err : Error) (evs : list Event) : Prop :=
  (dir !! k = None ∧ err = FileNotFound k ∧ evs = [])
  ∨ (∃ script, dir !! k = Some script
       ∧ decide_entry applied k (SHA256.hex script) ≠ Skip
       ∧ err = QueryFailed (Script (injectDefaults script))
       ∧ evs = [Sent (Script (injectDefaults script))]).

(** ** Concrete inputs for the examples

    The rest of the database is the list of the bodies executed so far, and
    the executor rejects one body. *)

Definition demo_sql (body : string) (o : list string) : option (list string) :=
  if decide (body = "SELECT 1/0;") then None else Some (o ++ [body]).

Definition demo_vars : gmap string string :=
  list_to_map [("PGHOST", "localhost"); ("PGPORT", "5432"); ("PGDATABASE", "app");
               ("PGUSER", "postgres"); ("PGPASSWORD", "secret")].

Definition demo_env (args : list string) (files : list (string * string))
    (us : UpdateScripts) : Env :=
  {| argv := "node" :: "update-db.mjs" :: args;
     process_env := demo_vars;
     scripts_dir := Some (list_to_map files);
     scripts_json := Some us;
     reachable := true |}.

(** A database that has never seen the tool. *)
Definition fresh : @Database (list string) := MkDatabase [] None.

(** *** Vocabulary for the further facts *)

(** The connection variables, in the order in which the script checks them. *)
Definition connection_variables : list string :=
  ["PGHOST"; "PGPORT"; "PGDATABASE"; "PGUSER"; "PGPASSWORD"].

(** The environment with other command-line arguments. *)
Definition with_argv (env : Env) (args : list string) : Env :=
  {| argv := args;
     process_env := process_env env;
     scripts_dir := scripts_dir env;
     scripts_json := scripts_json env;
     reachable := reachable env |}.

(** The bodies the loop sends for the entries [l], in order: the expanded
    text of every entry that is new or changed. *)
Definition executed (dir : gmap string string) (applied : list Row)
    (l : list string) : list string :=
  flat_map
    (fun updateScript =>
       match dir !! updateScript with
       | None => []
       | Some script =>
           match decide_entry applied updateScript (SHA256.hex script) with
           | Skip => []
           | _ => [injectDefaults script]
           end
       end)
    l.

(** The bodies one after the other on the rest of the database; [None] when
    one of them fails. *)
Fixpoint run_all {Objects : Type} (run_sql : string → Objects → option Objects)
    (bodies : list string) (o : Objects) : option Objects :=
  match bodies with
  | [] => Some o
  | body :: bodies' => run_sql body o ≫= run_all run_sql bodies'
  end.

Definition is_script (e : Event) : bool :=
  match e with Sent (Script _) => true | _ => false end.

Definition is_skipping (e : Event) : bool :=
  match e with Skipping _ => true | _ => false end.

(** The events that tell how the transaction ended. *)
Definition is_ending (e : Event) : bool :=
  match e with
  | Sent Commit | Sent Rollback | NotCommitted => true
  | _ => false
  end.

(** The template with every [$1] replaced by [c1] and every [$2] by [c2],
    and nothing else changed. *)
Fixpoint fill (c1 c2 tpl : list ascii) : list ascii :=
  match tpl with
  | [] => []
  | a :: t =>
      match t with
      | [] => [a]
      | b :: t' =>
          if decide (a = "$"%char ∧ b = "1"%char) then c1 ++ fill c1 c2 t'
          else if decide (a = "$"%char ∧ b = "2"%char) then c2 ++ fill c1 c2 t'
          else a :: fill c1 c2 t
      end
  end.

(** The name [schema.object TABLE...] of a table script that the pairing
    check looks at: a schema of ASCII letters, a dot, an object on one line. *)
Definition table_script_name (f : string) : Prop :=
  ∃ schema object post,
    JS.code_units f = schema ++ "."%char :: object ++ JS.code_units " TABLE" ++ post
    ∧ Forall (fun c => JS.letter c = true) schema
    ∧ Forall (fun c => JS.dot c = true) object.

(** ** SHA-256 on the test vectors *)

(** The test vectors of FIPS 180-4 for the empty message and for "abc". *)
Example sha256_empty :
  SHA256.hex EmptyString = "e3b0c44298fc1c149afbf4c8996fb92427ae41e4649b934ca495991b7852b855".
Proof. vm_compute. reflexivity. Qed.

Example sha256_abc :
  SHA256.hex "abc" = "ba7816bf8f01cfea414140de5dae2223b00361a396177a9cb410ff61f20015ad".
Proof. vm_compute. reflexivity. Qed.

(** ** Facts about strings and the matcher *)

Module JSFacts.
Import JS.

Lemma code_units_of (l : list ascii) : code_units (of_code_units l) = l.
Proof. apply list_ascii_of_string_of_list_ascii. Qed.

Lemma of_code_units_of (s : string) : of_code_units (code_units s) = s.
Proof. apply string_of_list_ascii_of_string. Qed.

Lemma of_code_units_inj (l l' : list ascii) :
  of_code_units l = of_code_units l' → l = l'.
Proof. intros H. by rewrite <- (code_units_of l), H, code_units_of. Qed.

Lemma strip_Some w s post : strip w s = Some post ↔ s = w ++ post.
Proof.
  revert s. induction w as [|a w IH]; intros s; simpl.
  - split; [by intros [= ->]|by intros ->].
  - destruct s as [|c s]; [done|].
    destruct (decide (a = c)) as [->|Hne].
    + rewrite IH. split; [by intros ->|by intros [= ->]].
    + split; [done|]. intros [= ? ?]. done.
Qed.

Lemma strip_app w post : strip w (w ++ post) = Some post.
Proof. by apply strip_Some. Qed.

Lemma strip_None w s : strip w s = None ↔ ∀ post, s ≠ w ++ post.
Proof.
  destruct (strip w s) as [post|] eqn:H.
  - apply strip_Some in H. split; [done|]. intros Hn. by destruct (Hn post).
  - split; [|done]. intros _ post Hs. apply strip_Some in Hs. congruence.
Qed.

(** [scan] with every character allowed is [indexOf]. *)
Lemma scan_indexOf p stop s :
  Forall (fun c => p c = true) s → scan p stop s = indexOf stop s.
Proof.
  induction 1 as [|c s Hc _ IH]; simpl; [done|].
  destruct (strip stop (c :: s)); [done|]. by rewrite Hc, IH.
Qed.

Lemma scan_Some p stop s w post :
  scan p stop s = Some (w, post) ↔
  indexOf stop s = Some (w, post) ∧ Forall (fun c => p c = true) w.
Proof.
  split.
  - revert w post. induction s as [|c s IH]; intros w post; simpl.
    + destruct (strip stop []); [|done]. intros [= <- <-]. by split.
    + destruct (strip stop (c :: s)); [intros [= <- <-]; by split|].
      destruct (p c) eqn:Hc; [|done].
      destruct (scan p stop s) as [[w' post']|]; [|done].
      intros [= <- <-]. destruct (IH w' post' eq_refl) as [-> Hall].
      split; [done|]. by constructor.
  - revert w post. induction s as [|c s IH]; intros w post; simpl.
    + destruct (strip stop []); [|by intros [? _]]. by intros [? _].
    + destruct (strip stop (c :: s)); [by intros [? _]|].
      destruct (indexOf stop s) as [[w' post']|]; [|by intros [? _]].
      intros [[= <- <-] Hall]. apply Forall_cons in Hall as [-> Hall].
      by rewrite (IH w' post').
Qed.

Lemma indexOf_Some stop s w post :
  indexOf stop s = Some (w, post) → s = w ++ stop ++ post.
Proof.
  revert w post. induction s as [|c s IH]; intros w post; simpl.
  - destruct (strip stop []) as [post'|] eqn:Hs; [|done].
    intros [= <- <-]. by apply strip_Some in Hs.
  - destruct (strip stop (c :: s)) as [post'|] eqn:Hs.
    + intros [= <- <-]. by apply strip_Some in Hs.
    + destruct (indexOf stop s) as [[w' post']|]; [|done].
      intros [= <- <-]. simpl. f_equal. by apply IH.
Qed.

Lemma indexOf_eq stop s :
  indexOf stop s =
  match strip stop s with
  | Some post => Some ([], post)
  | None =>
      match s with
      | [] => None
      | c :: s' =>
          match indexOf stop s' with
          | Some (pre, post) => Some (c :: pre, post)
          | None => None
          end
      end
  end.
Proof. by destruct s. Qed.

Lemma scan_eq p stop s :
  scan p stop s =
  match strip stop s with
  | Some post => Some ([], post)
  | None =>
      match s with
      | [] => None
      | c :: s' =>
          if p c then
            match scan p stop s' with
            | Some (w, post) => Some (c :: w, post)
            | None => None
            end
          else None
      end
  end.
Proof. by destruct s. Qed.

(** An occurrence anywhere makes [indexOf] succeed, not later than it. *)
Lemma indexOf_occurs stop a b :
  ∃ w post, indexOf stop (a ++ stop ++ b) = Some (w, post)
            ∧ (length w ≤ length a)%nat.
Proof.
  induction a as [|c a IH]; rewrite indexOf_eq; simpl.
  - rewrite strip_app. by eexists _, _.
  - destruct (strip stop (c :: a ++ stop ++ b)) as [post|].
    + eexists _, _. split; [done|]. simpl. lia.
    + destruct IH as (w & post & -> & Hlen). eexists _, _. split; [done|]. simpl. lia.
Qed.

Lemma indexOf_None stop s :
  indexOf stop s = None ↔ ∀ a b, s ≠ a ++ stop ++ b.
Proof.
  split.
  - intros Hnone a b ->. destruct (indexOf_occurs stop a b) as (w & post & H & _).
    congruence.
  - intros Hno. destruct (indexOf stop s) as [[w post]|] eqn:H; [|done].
    apply indexOf_Some in H. by destruct (Hno w post).
Qed.

(** A lazy star followed by a literal after which nothing can fail is a
    scan. *)
Lemma lazy_star_scan p stop (F : nat → list ascii → MatchState) (k : Cont) caps :
  (∀ pos rest, k (MkState pos rest caps)
               = match strip stop rest with
                 | Some post => Some (F pos post)
                 | None => None
                 end) →
  ∀ s pos,
    lazy_star p k pos s caps
    = match scan p stop s with
      | Some (w, post) => Some (F (pos + length w) post)
      | None => None
      end.
Proof.
  intros Hk. induction s as [|c s IH]; intros pos; simpl; rewrite Hk.
  - destruct (strip stop []); [|done]. simpl. by rewrite Nat.add_0_r.
  - destruct (strip stop (c :: s)); [simpl; by rewrite Nat.add_0_r|].
    destruct (p c); [|done]. rewrite IH.
    destruct (scan p stop s) as [[w post]|]; [|done]. simpl.
    by rewrite Nat.add_succ_r.
Qed.

(** A lazy star whose continuation fails in front of every character of
    the class runs to the end of the class. *)
Lemma lazy_star_run p (k : Cont) caps w rest :
  Forall (fun c => p c = true) w →
  (∀ pos c rest', p c = true → k (MkState pos (c :: rest') caps) = None) →
  match rest with [] => True | c :: _ => p c = false end →
  ∀ pos,
    lazy_star p k pos (w ++ rest) caps = k (MkState (pos + length w) rest caps).
Proof.
  intros Hw Hk Hrest. induction Hw as [|c w Hc _ IH]; intros pos; simpl.
  - rewrite Nat.add_0_r. destruct rest as [|c rest]; simpl.
    + by destruct (k _).
    + rewrite Hrest. by destruct (k _).
  - rewrite Hk, Hc, IH by done. by rewrite Nat.add_succ_r.
Qed.

Lemma search_eq r groups pre s :
  search r groups pre s =
  match m r Some (MkState (length pre) s (replicate groups None)) with
  | Some st =>
      Some (MkMatch pre (take (ms_pos st - length pre) s) (ms_rest st) (ms_caps st))
  | None =>
      match s with
      | [] => None
      | c :: s' => search r groups (pre ++ [c]) s'
      end
  end.
Proof. by destruct s. Qed.

(** No start index at which the matcher succeeds: no match. *)
Lemma search_None r groups s : ∀ pre,
  (∀ a b, s = a ++ b →
          m r Some (MkState (length pre + length a) b (replicate groups None)) = None) →
  search r groups pre s = None.
Proof.
  induction s as [|c s IH]; intros pre Hno; rewrite search_eq.
  - specialize (Hno [] [] eq_refl). simpl in Hno. rewrite Nat.add_0_r in Hno.
    by rewrite Hno.
  - pose proof (Hno [] (c :: s) eq_refl) as H0. simpl in H0.
    rewrite Nat.add_0_r in H0. rewrite H0. apply IH. intros a b ->.
    rewrite length_app. simpl. rewrite <- Nat.add_assoc.
    by apply (Hno (c :: a) b).
Qed.

(** The start indices before [length a] fail: the search goes on after [a]. *)
Lemma search_skip r groups a : ∀ pre b,
  (∀ a1 a2, a = a1 ++ a2 → a2 ≠ [] →
            m r Some (MkState (length pre + length a1) (a2 ++ b) (replicate groups None))
            = None) →
  search r groups pre (a ++ b) = search r groups (pre ++ a) b.
Proof.
  induction a as [|c a IH]; intros pre b Hno.
  - simpl. by rewrite app_nil_r.
  - change ((c :: a) ++ b) with (c :: (a ++ b)). rewrite search_eq.
    pose proof (Hno [] (c :: a) eq_refl) as H0. simpl in H0.
    rewrite Nat.add_0_r in H0. rewrite H0 by done.
    rewrite (IH (pre ++ [c]) b).
    + by rewrite <- app_assoc.
    + intros a1 a2 -> Ha2. rewrite length_app. simpl. rewrite <- Nat.add_assoc.
      by apply (Hno (c :: a1) a2).
Qed.

Lemma scan_suffix_None p stop w r :
  Forall (fun c => p c = true) w → scan p stop (w ++ r) = None → scan p stop r = None.
Proof.
  induction 1 as [|c w Hc _ IH]; [done|].
  change ((c :: w) ++ r) with (c :: (w ++ r)). rewrite scan_eq.
  destruct (strip stop (c :: w ++ r)); [done|]. rewrite Hc.
  destruct (scan p stop (w ++ r)) as [[w' post]|]; [done|]. intros _. by apply IH.
Qed.

(** A lazy star in front of a one-character literal, a second lazy star and
    a second literal: the first literal is the first one on the way, and the
    second literal the first one after it.  When the second scan fails after
    the first literal it fails after every later one as well. *)
Lemma lazy_star_two_scans p d stop (G : nat → list ascii → list ascii → MatchState)
    (k : Cont) caps :
  p d = true →
  (∀ pos rest, k (MkState pos rest caps)
               = match strip [d] rest with
                 | Some r2 =>
                     match scan p stop r2 with
                     | Some (c2, post) => Some (G pos c2 post)
                     | None => None
                     end
                 | None => None
                 end) →
  ∀ s pos,
    lazy_star p k pos s caps
    = match scan p [d] s with
      | Some (c1, r2) =>
          match scan p stop r2 with
          | Some (c2, post) => Some (G (pos + length c1) c2 post)
          | None => None
          end
      | None => None
      end.
Proof.
  intros Hd Hk. induction s as [|c s IH]; intros pos; simpl; rewrite Hk; [done|].
  simpl. destruct (decide (d = c)) as [<-|Hne].
  - destruct (scan p stop s) as [[c2 post]|] eqn:Hscan; simpl.
    { by rewrite Nat.add_0_r. }
    rewrite Hd, IH.
    destruct (scan p [d] s) as [[c1 r2]|] eqn:H1; [|done].
    apply scan_Some in H1 as [H1 Hall]. apply indexOf_Some in H1. subst s.
    rewrite (scan_suffix_None p stop (c1 ++ [d]) r2); [done| |by rewrite <- app_assoc].
    apply Forall_app. split; [done|]. by constructor.
  - destruct (p c); [|done]. rewrite IH.
    destruct (scan p [d] s) as [[c1 r2]|]; [|done]. simpl.
    destruct (scan p stop r2) as [[c2 post]|]; [|done]. by rewrite Nat.add_succ_r.
Qed.

End JSFacts.

(** ** The three regular expressions of the script, as scans *)

Import JS JSFacts.

Lemma m_RLit w (k : Cont) pos rest caps :
  m (RLit w) k (MkState pos rest caps)
  = match strip w rest with
    | Some rest' => k (MkState (pos + length w) rest' caps)
    | None => None
    end.
Proof. reflexivity. Qed.

(** [/(.*?) RLS/] at a start index: the text up to the first [" RLS"] on the
    line. *)
Lemma m_rxRLSName pos s caps :
  m rxRLSName Some (MkState pos s caps)
  = match scan dot (code_units " RLS") s with
    | Some (w, post) =>
        Some (MkState (pos + length w + 4) post (<[0 := Some (take (length w) s)]> caps))
    | None => None
    end.
Proof.
  unfold rxRLSName, lit. simpl m.
  rewrite (lazy_star_scan dot (code_units " RLS")
             (fun pos' post =>
                MkState (pos' + 4) post (<[0 := Some (take (pos' - pos) s)]> caps))).
  - destruct (scan dot (code_units " RLS") s) as [[w post]|]; [|done].
    by replace (pos + length w - pos) with (length w) by lia.
  - intros pos' rest. reflexivity.
Qed.

Lemma scan_split p stop s w post :
  scan p stop s = Some (w, post) →
  s = w ++ stop ++ post ∧ Forall (fun c => p c = true) w.
Proof. intros [H ?]%scan_Some. by apply indexOf_Some in H. Qed.

Lemma take_scan p stop s w post :
  scan p stop s = Some (w, post) → take (length w) s = w.
Proof. intros [-> _]%scan_split. by rewrite take_app_length. Qed.

(** [/(^[a-zA-Z]*?\..*?) TABLE/] on a name that starts with letters and a
    dot: the text up to the first [" TABLE"] on the line. *)
Lemma m_rxTableName schema r caps :
  Forall (fun c => letter c = true) schema →
  m rxTableName Some (MkState 0 (schema ++ "."%char :: r) caps)
  = match scan dot (code_units " TABLE") r with
    | Some (object, post) =>
        Some (MkState (length schema + 1 + length object + 6) post
                (<[0 := Some (schema ++ "."%char :: object)]> caps))
    | None => None
    end.
Proof.
  intros Hschema. unfold rxTableName, lit.
  assert (length (code_units " TABLE") = 6) as Hlen by done.
  remember (code_units " TABLE") as stop eqn:Hstop. clear Hstop.
  simpl m.
  rewrite (lazy_star_run letter _ caps schema ("."%char :: r)); [|done| |done].
  2: { intros pos c rest' Hc. simpl.
       destruct (decide ("."%char = c)) as [<-|]; [done|done]. }
  simpl.
  rewrite (lazy_star_scan dot stop
             (fun pos' post =>
                MkState (pos' + 6) post
                  (<[0 := Some (take (pos' - 0) (schema ++ "."%char :: r))]> caps))).
  - destruct (scan dot stop r) as [[object post]|] eqn:Hscan; [|done].
    apply take_scan in Hscan.
    replace (length schema + 1 + length object - 0)
      with (length schema + S (length object)) by lia.
    rewrite take_app_add'; [|done]. simpl. by rewrite Hscan.
  - intros pos' rest. simpl. by rewrite Hlen.
Qed.

Lemma m_rxTableName_later pos s caps :
  pos ≠ 0 → m rxTableName Some (MkState pos s caps) = None.
Proof. intros Hpos. unfold rxTableName. simpl. by rewrite decide_False. Qed.

(** [/%DEFAULT_TRIGGER\((.*?)\.(.*?)\)%/] at a start index: the marker
    starts there, the schema is the text up to the first dot on the line and
    the object is the text up to the first [")%"] on the line. *)
Lemma m_rxDefaultTrigger pos s caps :
  m rxDefaultTrigger Some (MkState pos s caps)
  = match strip (code_units "%DEFAULT_TRIGGER(") s with
    | Some r1 =>
        match scan dot ["."%char] r1 with
        | Some (c1, r2) =>
            match scan dot (code_units ")%") r2 with
            | Some (c2, post) =>
                Some (MkState (pos + 17 + length c1 + 1 + length c2 + 2) post
                        (<[1 := Some c2]> (<[0 := Some c1]> caps)))
            | None => None
            end
        | None => None
        end
    | None => None
    end.
Proof.
  unfold rxDefaultTrigger, lit.
  assert (length (code_units "%DEFAULT_TRIGGER(") = 17) as Hlen1 by done.
  assert (length (code_units ")%") = 2) as Hlen2 by done.
  assert (code_units "." = ["."%char]) as Hdot by done.
  remember (code_units "%DEFAULT_TRIGGER(") as header eqn:Hh. clear Hh.
  remember (code_units ")%") as stop eqn:Hs. clear Hs.
  rewrite Hdot. simpl m.
  destruct (strip header s) as [r1|]; [|done].
  simpl.
  rewrite (lazy_star_two_scans dot "."%char stop
             (fun pos' c2 post =>
                MkState (pos' + 1 + length c2 + 2) post
                  (<[1 := Some c2]>
                     (<[0 := Some (take (pos' - (pos + 17)) r1)]> caps)))).
  - rewrite Hlen1.
    destruct (scan dot ["."%char] r1) as [[c1 r2]|] eqn:H1; [|done].
    destruct (scan dot stop r2) as [[c2 post]|]; [|done].
    apply take_scan in H1.
    replace (pos + 17 + length c1 - (pos + 17)) with (length c1) by lia.
    by rewrite H1.
  - done.
  - intros pos' rest. simpl.
    destruct rest as [|c rest]; [done|].
    destruct (decide ("."%char = c)); [|done].
    rewrite (lazy_star_scan dot stop
               (fun pos'' post =>
                  MkState (pos'' + 2) post
                    (<[1 := Some (take (pos'' - (pos' + 1)) rest)]>
                       (<[0 := Some (take (pos' - (pos + 17)) r1)]> caps)))).
    + destruct (scan dot stop rest) as [[c2 post]|] eqn:H2; [|done].
      apply take_scan in H2.
      replace (pos' + 1 + length c2 - (pos' + 1)) with (length c2) by lia.
      by rewrite H2.
    + intros pos'' rest'. simpl. rewrite Hlen1, Hlen2. reflexivity.
Qed.

(** ** The pairing check *)

Lemma code_units_app (s1 s2 : string) :
  code_units (s1 +:+ s2) = code_units s1 ++ code_units s2.
Proof.
  unfold code_units. induction s1 as [|c s1 IH]; simpl; [done|]. by rewrite IH.
Qed.

(** The literal cannot start inside [w]: its first occurrence in [w ++ r] is
    its first occurrence in [r]. *)
Lemma indexOf_after c stop w r :
  c ∉ w →
  indexOf (c :: stop) (w ++ r)
  = match indexOf (c :: stop) r with
    | Some (pre, post) => Some (w ++ pre, post)
    | None => None
    end.
Proof.
  induction w as [|a w IH]; intros Hc; simpl.
  - by destruct (indexOf (c :: stop) r) as [[pre post]|].
  - apply not_elem_of_cons in Hc as [Hne Hc].
    rewrite decide_False by done. rewrite IH by done.
    by destruct (indexOf (c :: stop) r) as [[pre post]|].
Qed.

Lemma letter_not_space w :
  Forall (fun c => letter c = true) w → " "%char ∉ w.
Proof.
  intros Hall Hin. rewrite Forall_forall in Hall. by apply Hall in Hin.
Qed.

Lemma dot_suffix a b :
  Forall (fun c => dot c = true) (a ++ b) → Forall (fun c => dot c = true) b.
Proof. by intros [_ ?]%Forall_app. Qed.

(** The table pattern on a name [schema.object TABLE...]. *)
Lemma exec_rxTableName f schema object :
  one_line f → letters schema →
  splits_at " TABLE" f (schema +:+ "." +:+ object) →
  ∃ mt, exec rxTableName 1 f = Some mt
        ∧ group 1 mt = Some (schema +:+ "." +:+ object).
Proof.
  intros Hline Hschema [post Hsplit].
  assert (Hp : code_units (schema +:+ "." +:+ object)
               = (code_units schema ++ ["."%char]) ++ code_units object).
  { rewrite !code_units_app. by rewrite <- app_assoc. }
  rewrite Hp in Hsplit.
  pose proof (indexOf_Some _ _ _ _ Hsplit) as Hf. rewrite <- app_assoc in Hf.
  set (r := code_units object ++ code_units " TABLE" ++ post) in *.
  assert (Hr : indexOf (code_units " TABLE") r = Some (code_units object, post)).
  { rewrite Hf in Hsplit.
    change (code_units " TABLE") with (" "%char :: code_units "TABLE") in Hsplit |- *.
    rewrite indexOf_after in Hsplit.
    - destruct (indexOf (" "%char :: code_units "TABLE") r) as [[pre post']|]; [|done].
      injection Hsplit as Hpre ->. by apply app_inv_head in Hpre as ->.
    - rewrite not_elem_of_app. split; [by apply letter_not_space|].
      by intros ?%list_elem_of_singleton. }
  assert (Hscan : scan dot (code_units " TABLE") r = Some (code_units object, post)).
  { apply scan_Some. split; [done|]. unfold one_line in Hline. rewrite Hf in Hline.
    apply Forall_app in Hline as [_ Hline]. subst r.
    by apply Forall_app in Hline as [? _]. }
  unfold exec. rewrite search_eq, Hf, <- app_assoc. simpl length.
  change ([ "."%char ] ++ r) with ("."%char :: r).
  rewrite m_rxTableName, Hscan by done.
  eexists. split; [reflexivity|]. unfold group. simpl.
  f_equal. rewrite <- (of_code_units_of (schema +:+ "." +:+ object)), Hp.
  by rewrite <- app_assoc.
Qed.

(** The RLS pattern on a name without line terminator: the text before the
    first [" RLS"]. *)
Lemma exec_rxRLSName g :
  one_line g →
  exec rxRLSName 1 g
  = match indexOf (code_units " RLS") (code_units g) with
    | Some (q, post) => Some (MkMatch [] (q ++ code_units " RLS") post [Some q])
    | None => None
    end.
Proof.
  intros Hline. unfold exec, one_line in *.
  destruct (indexOf (code_units " RLS") (code_units g)) as [[q post]|] eqn:Hidx.
  - rewrite search_eq. simpl length. rewrite m_rxRLSName, scan_indexOf, Hidx by done.
    apply indexOf_Some in Hidx. rewrite Hidx. simpl ms_pos. simpl ms_rest. simpl ms_caps.
    f_equal. f_equal.
    + replace (length q + 4 - 0) with (length (q ++ code_units " RLS"))
        by (rewrite length_app; simpl; lia).
      by rewrite app_assoc, take_app_length.
    + by rewrite take_app_length.
  - apply search_None. intros a b Hab. rewrite m_rxRLSName, scan_indexOf.
    + destruct (indexOf (code_units " RLS") b) as [[q post]|] eqn:Hb; [|done].
      apply indexOf_Some in Hb. rewrite indexOf_None in Hidx.
      destruct (Hidx (a ++ q) post). by rewrite Hab, Hb, <- app_assoc.
    + rewrite Hab in Hline. by apply dot_suffix in Hline.
Qed.

(** ** The template expander *)

Lemma m_rxDefaultTrigger_Some pos rest caps st :
  m rxDefaultTrigger Some (MkState pos rest caps) = Some st →
  ∃ c1 c2 post,
    rest = marker_text c1 c2 ++ post
    ∧ Forall (fun c => dot c = true) c1
    ∧ Forall (fun c => dot c = true) c2
    ∧ st = MkState (pos + length (marker_text c1 c2)) post
             (<[1 := Some c2]> (<[0 := Some c1]> caps)).
Proof.
  rewrite m_rxDefaultTrigger.
  destruct (strip _ rest) as [r1|] eqn:H0; [|done]. apply strip_Some in H0.
  destruct (scan dot ["."%char] r1) as [[c1 r2]|] eqn:H1; [|done].
  apply scan_split in H1 as [H1 Hc1].
  destruct (scan dot (code_units ")%") r2) as [[c2 post]|] eqn:H2; [|done].
  apply scan_split in H2 as [H2 Hc2].
  intros [= <-]. exists c1, c2, post. repeat split; [|done..|].
  - rewrite H0, H1, H2. unfold marker_text. rewrite <- !app_assoc. simpl.
    by rewrite <- !app_assoc.
  - f_equal. unfold marker_text. rewrite !length_app. simpl. rewrite !length_app.
    simpl. lia.
Qed.

(** Without a trigger placeholder the second [replace] finds nothing. *)
Lemma exec_no_marker s : ¬ has_marker s → exec rxDefaultTrigger 2 s = None.
Proof.
  intros Hno. apply search_None. intros a b Hab.
  destruct (m rxDefaultTrigger Some _) as [st|] eqn:Hm; [|done].
  apply m_rxDefaultTrigger_Some in Hm as (c1 & c2 & post & -> & Hc1 & Hc2 & _).
  destruct Hno. by exists a, c1, c2, post.
Qed.

Lemma inject_trigger_verbatim s : ¬ has_marker s → inject_trigger s = s.
Proof.
  intros Hno. unfold inject_trigger, replace_regex. by rewrite exec_no_marker.
Qed.

Lemma inject_columns_verbatim s : ¬ has_columns s → inject_columns s = s.
Proof.
  intros Hno. unfold inject_columns, replace_string.
  destruct (indexOf _ _) as [[pre post]|] eqn:Hidx; [|done].
  apply indexOf_Some in Hidx. destruct Hno. by exists pre, post.
Qed.

(** The block of columns has no [$], so it is inserted as it is. *)
Lemma getSubstitution_columns mt :
  getSubstitution mt (code_units default_columns) = code_units default_columns.
Proof. reflexivity. Qed.

Lemma inject_columns_Some s pre post :
  indexOf (code_units "%DEFAULT_COLUMNS%") (code_units s) = Some (pre, post) →
  inject_columns s = of_code_units (pre ++ code_units default_columns ++ post).
Proof.
  intros Hidx. unfold inject_columns, replace_string. rewrite Hidx.
  by rewrite getSubstitution_columns.
Qed.

(** A list that avoids [x] lies on one side of an [x]. *)
Lemma one_side {A} (pre w post u v : list A) x :
  pre ++ w ++ post = u ++ x :: v → x ∉ w →
  (∃ post1, u = pre ++ w ++ post1 ∧ post = post1 ++ x :: v)
  ∨ (∃ pre1, v = pre1 ++ w ++ post ∧ pre = u ++ x :: pre1).
Proof.
  intros Heq Hx. apply app_eq_inv in Heq as [(k & -> & Hk)|(k & -> & Hk)].
  - destruct k as [|y k]; simpl in Hk.
    + destruct w as [|y w]; simpl in Hk.
      * left. exists []. simpl. rewrite !app_nil_r. by subst.
      * injection Hk as -> _. destruct Hx. by left.
    + injection Hk as <- ->. right. by exists k.
  - apply app_eq_inv in Hk as [(j & -> & Hj)|(j & -> & Hj)].
    + destruct j as [|y j]; simpl in Hj.
      * left. exists []. rewrite !app_nil_r. by subst.
      * injection Hj as <- _. destruct Hx. rewrite elem_of_app. right. by left.
    + left. by exists j.
Qed.

(** An [x] in front of a list that avoids [x] lies in the part before it. *)
Lemma before_avoiding {A} (a y u b : list A) x :
  a ++ x :: y = u ++ b → x ∉ b → ∃ u2, u = a ++ x :: u2 ∧ y = u2 ++ b.
Proof.
  intros Heq Hx. apply app_eq_inv in Heq as [(k & -> & Hk)|(k & -> & Hk)].
  - destruct Hx. rewrite Hk, elem_of_app. right. by left.
  - destruct k as [|z k]; simpl in Hk.
    + destruct Hx. rewrite <- Hk. by left.
    + injection Hk as <- ->. by exists k.
Qed.

(** The block of columns ends with a line feed and has no [%]. *)
Lemma columns_shape :
  ∃ b, code_units default_columns = b ++ ["010"%char] ∧ "%"%char ∉ b.
Proof.
  exists (removelast (code_units default_columns)). split.
  - vm_compute. reflexivity.
  - apply (bool_decide_unpack _). vm_compute. exact I.
Qed.

Lemma marker_dots c1 c2 :
  Forall (fun c => dot c = true) c1 → Forall (fun c => dot c = true) c2 →
  Forall (fun c => dot c = true) (marker_text c1 c2).
Proof.
  intros H1 H2. unfold marker_text. repeat (apply Forall_app; split); try done.
  - apply (bool_decide_unpack _). vm_compute. exact I.
  - constructor; [done|]. apply Forall_app. split; [done|].
    apply (bool_decide_unpack _). vm_compute. exact I.
Qed.

Lemma marker_one_line c1 c2 :
  Forall (fun c => dot c = true) c1 → Forall (fun c => dot c = true) c2 →
  "010"%char ∉ marker_text c1 c2.
Proof.
  intros H1 H2 Hin. pose proof (marker_dots c1 c2 H1 H2) as Hall.
  rewrite Forall_forall in Hall. by apply Hall in Hin.
Qed.

Lemma marker_ends c1 c2 :
  marker_text c1 c2
  = (code_units "%DEFAULT_TRIGGER(" ++ c1 ++ "."%char :: c2 ++ [")"%char]) ++ ["%"%char].
Proof. unfold marker_text. rewrite <- !app_assoc. simpl. by rewrite <- !app_assoc. Qed.

(** ** First occurrences and first matches *)

Lemma app_eq_prefix {A} (a b c d : list A) :
  a ++ b = c ++ d → (length c ≤ length a)%nat → ∃ k, a = c ++ k ∧ d = k ++ b.
Proof.
  intros Heq Hlen. apply app_eq_inv in Heq as [(k & -> & ->)|(k & -> & ->)].
  - by exists k.
  - rewrite length_app in Hlen. destruct k; [|simpl in Hlen; lia].
    exists []. by rewrite !app_nil_r.
Qed.

(** [indexOf] gives the occurrence that starts first. *)
Lemma indexOf_first w s a c :
  indexOf w s = Some (a, c) → ∀ u v, s = u ++ w ++ v → (length a ≤ length u)%nat.
Proof.
  revert a c. induction s as [|x s IH]; intros a c; rewrite indexOf_eq.
  - destruct (strip w []) eqn:Hs; [|done]. intros [= <- <-] u v _. simpl. lia.
  - destruct (strip w (x :: s)) eqn:Hs.
    + intros [= <- <-] u v _. simpl. lia.
    + destruct (indexOf w s) as [[a' c']|] eqn:Hi; [|done].
      intros [= <- <-] u v Hu. destruct u as [|y u].
      * simpl in Hu. rewrite strip_None in Hs. by destruct (Hs v).
      * simpl in Hu. injection Hu as -> Hu. simpl.
        pose proof (IH a' c' eq_refl u v Hu). lia.
Qed.

Lemma indexOf_intro w a c :
  (∀ u v, a ++ w ++ c = u ++ w ++ v → (length a ≤ length u)%nat) →
  indexOf w (a ++ w ++ c) = Some (a, c).
Proof.
  intros Hmin. destruct (indexOf_occurs w a c) as (a' & c' & Hi & Hlen).
  rewrite Hi. pose proof (indexOf_Some _ _ _ _ Hi) as Heq.
  pose proof (Hmin a' c' Heq) as Hge.
  apply app_inj_1 in Heq as [-> Heq]; [|lia].
  apply app_inv_head in Heq. by subst.
Qed.

(** The first occurrence does not depend on the text after it. *)
Lemma indexOf_local w a c c' :
  indexOf w (a ++ w ++ c) = Some (a, c) → indexOf w (a ++ w ++ c') = Some (a, c').
Proof.
  intros Hi. apply indexOf_intro. intros u v Heq.
  destruct (decide (length a ≤ length u)%nat) as [|Hlt]; [done|].
  rewrite !app_assoc in Heq. apply app_eq_prefix in Heq as (k & Hk & _).
  - apply (indexOf_first _ _ _ _ Hi u (k ++ c)).
    rewrite !app_assoc, <- Hk. by rewrite <- !app_assoc.
  - rewrite !length_app. lia.
Qed.

Lemma scan_local p stop w r r' :
  scan p stop (w ++ stop ++ r) = Some (w, r) →
  scan p stop (w ++ stop ++ r') = Some (w, r').
Proof.
  intros [Hi Hall]%scan_Some. apply scan_Some. split; [|done].
  by apply (indexOf_local _ _ r).
Qed.

(** A run of characters in [p] in front of [stop]: the scan succeeds, at
    that [stop] or at an earlier one. *)
Lemma scan_complete p stop w r :
  Forall (fun c => p c = true) w →
  ∃ w' k r', scan p stop (w ++ stop ++ r) = Some (w', r')
             ∧ w = w' ++ k ∧ stop ++ r' = k ++ stop ++ r.
Proof.
  intros Hall. destruct (indexOf_occurs stop w r) as (w' & r' & Hi & Hlen).
  pose proof (indexOf_Some _ _ _ _ Hi) as Heq.
  apply app_eq_prefix in Heq as (k & -> & Hk); [|done].
  exists w', k, r'. split; [|done]. apply scan_Some. split; [done|].
  by apply Forall_app in Hall as [? _].
Qed.

Lemma search_Some r groups s : ∀ pre mt,
  search r groups pre s = Some mt →
  ∃ a b st,
    s = a ++ b
    ∧ m r Some (MkState (length pre + length a) b (replicate groups None)) = Some st
    ∧ mt = MkMatch (pre ++ a) (take (ms_pos st - (length pre + length a)) b)
             (ms_rest st) (ms_caps st)
    ∧ ∀ a1 a2, a = a1 ++ a2 → a2 ≠ [] →
               m r Some (MkState (length pre + length a1) (a2 ++ b)
                           (replicate groups None)) = None.
Proof.
  induction s as [|c s IH]; intros pre mt; rewrite search_eq.
  - destruct (m r Some _) as [st|] eqn:Hm; [|done]. intros [= <-].
    exists [], [], st. simpl. rewrite Nat.add_0_r, app_nil_r.
    repeat split; [done|]. intros a1 a2 Ha. by destruct a1, a2.
  - destruct (m r Some _) as [st|] eqn:Hm.
    + intros [= <-]. exists [], (c :: s), st. simpl. rewrite Nat.add_0_r, app_nil_r.
      repeat split; [done|]. intros a1 a2 Ha. by destruct a1, a2.
    + intros (a & b & st & -> & Hst & -> & Hno)%IH.
      rewrite length_app in Hst. simpl in Hst.
      exists (c :: a), b, st. simpl.
      replace (length pre + S (length a)) with (length pre + 1 + length a) by lia.
      rewrite length_app in *. simpl in *.
      repeat split; [done| by rewrite <- app_assoc|].
      intros a1 a2 Ha Ha2. destruct a1 as [|x a1]; simpl in Ha.
      * subst a2. simpl. by rewrite Nat.add_0_r.
      * injection Ha as <- ->. specialize (Hno a1 a2 eq_refl Ha2).
        simpl. by replace (length pre + S (length a1))
          with (length pre + 1 + length a1) by lia.
Qed.

(** A start index at which the matcher succeeds: the search finds a match. *)
Lemma search_complete r groups a : ∀ pre b,
  m r Some (MkState (length pre + length a) b (replicate groups None)) ≠ None →
  search r groups pre (a ++ b) ≠ None.
Proof.
  induction a as [|c a IH]; intros pre b Hm; rewrite search_eq.
  - simpl in *. rewrite Nat.add_0_r in Hm. by destruct (m r Some _).
  - destruct (m r Some (MkState (length pre) _ _)); [done|]. simpl. apply IH.
    rewrite length_app. simpl. simpl in Hm.
    by replace (length pre + 1 + length a) with (length pre + S (length a)) by lia.
Qed.

(** ** The trigger pattern: what it finds *)

Lemma marker_length c1 c2 :
  length (marker_text c1 c2) = 17 + length c1 + 1 + length c2 + 2.
Proof. unfold marker_text. rewrite !length_app. simpl. rewrite length_app. simpl. lia. Qed.

Lemma marker_parts c1 c2 q :
  marker_text c1 c2 ++ q
  = code_units "%DEFAULT_TRIGGER(" ++ c1 ++ ["."%char] ++ c2 ++ code_units ")%" ++ q.
Proof. unfold marker_text. rewrite <- !app_assoc. simpl. by rewrite <- !app_assoc. Qed.

(** The match found at a start index: the marker, the schema up to the
    first dot and the object up to the first [")%"].  It is found again at
    any index and whatever text follows. *)
Lemma m_rxDefaultTrigger_local pos rest caps st :
  m rxDefaultTrigger Some (MkState pos rest caps) = Some st →
  ∃ c1 c2 post,
    rest = marker_text c1 c2 ++ post
    ∧ Forall (fun c => dot c = true) c1
    ∧ Forall (fun c => dot c = true) c2
    ∧ st = MkState (pos + length (marker_text c1 c2)) post
             (<[1 := Some c2]> (<[0 := Some c1]> caps))
    ∧ ∀ pos' post' caps',
        m rxDefaultTrigger Some (MkState pos' (marker_text c1 c2 ++ post') caps')
        = Some (MkState (pos' + length (marker_text c1 c2)) post'
                  (<[1 := Some c2]> (<[0 := Some c1]> caps'))).
Proof.
  rewrite m_rxDefaultTrigger.
  destruct (strip _ rest) as [r1|] eqn:H0; [|done]. apply strip_Some in H0.
  destruct (scan dot ["."%char] r1) as [[c1 r2]|] eqn:H1; [|done].
  destruct (scan dot (code_units ")%") r2) as [[c2 post]|] eqn:H2; [|done].
  pose proof (scan_split _ _ _ _ _ H1) as [E1 Hc1].
  pose proof (scan_split _ _ _ _ _ H2) as [E2 Hc2].
  intros [= <-]. exists c1, c2, post. repeat split; [|done..| |].
  - by rewrite marker_parts, H0, E1, E2.
  - rewrite marker_length. f_equal. lia.
  - intros pos' post' caps'. rewrite m_rxDefaultTrigger, marker_parts, strip_app.
    rewrite E1, E2 in H1. rewrite E2 in H2.
    rewrite (scan_local _ _ _ _ (c2 ++ code_units ")%" ++ post') H1).
    rewrite (scan_local _ _ _ _ post' H2).
    rewrite marker_length. do 2 f_equal. lia.
Qed.

(** Where a trigger placeholder starts, the matcher succeeds. *)
Lemma m_rxDefaultTrigger_complete pos c1 c2 post caps :
  Forall (fun c => dot c = true) c1 → Forall (fun c => dot c = true) c2 →
  m rxDefaultTrigger Some (MkState pos (marker_text c1 c2 ++ post) caps) ≠ None.
Proof.
  intros Hc1 Hc2. rewrite m_rxDefaultTrigger, marker_parts, strip_app.
  destruct (scan_complete dot ["."%char] c1 (c2 ++ code_units ")%" ++ post) Hc1)
    as (c1' & k & r2 & -> & Hc & Hk).
  assert (∃ w, r2 = w ++ code_units ")%" ++ post ∧ Forall (fun c => dot c = true) w)
    as (w & -> & Hw).
  { destruct k as [|x k]; simpl in Hk.
    - injection Hk as ->. by exists c2.
    - injection Hk as <- ->. exists (k ++ "."%char :: c2).
      split; [by rewrite <- app_assoc|]. subst c1.
      apply Forall_app in Hc1 as [_ Hc1]. apply Forall_cons in Hc1 as [_ Hk].
      apply Forall_app. split; [done|]. by constructor. }
  by destruct (scan_complete dot (code_units ")%") w post Hw)
    as (c2' & k2 & post2 & -> & _ & _).
Qed.

(** The match that [exec] finds: the first trigger placeholder. *)
Lemma exec_rxDefaultTrigger_Some s mt :
  exec rxDefaultTrigger 2 s = Some mt →
  ∃ pre c1 c2 post,
    code_units s = pre ++ marker_text c1 c2 ++ post
    ∧ Forall (fun c => dot c = true) c1
    ∧ Forall (fun c => dot c = true) c2
    ∧ mt = MkMatch pre (marker_text c1 c2) post [Some c1; Some c2]
    ∧ (∀ u d1 d2 v,
         Forall (fun c => dot c = true) d1 → Forall (fun c => dot c = true) d2 →
         code_units s = u ++ marker_text d1 d2 ++ v → (length pre ≤ length u)%nat)
    ∧ ∀ pos' post',
        m rxDefaultTrigger Some
          (MkState pos' (marker_text c1 c2 ++ post') (replicate 2 None))
        = Some (MkState (pos' + length (marker_text c1 c2)) post' [Some c1; Some c2]).
Proof.
  unfold exec. intros (a & b & st & Hs & Hst & -> & Hno)%search_Some.
  simpl in Hst.
  apply m_rxDefaultTrigger_local in Hst as (c1 & c2 & post & -> & Hc1 & Hc2 & -> & Hloc).
  exists a, c1, c2, post. repeat split; try done.
  - cbn [ms_pos ms_rest ms_caps app length Nat.add]. f_equal.
    replace (length a + length (marker_text c1 c2) - length a)
      with (length (marker_text c1 c2)) by lia.
    by rewrite take_app_length.
  - intros u d1 d2 v Hd1 Hd2 Hu.
    destruct (decide (length a ≤ length u)%nat) as [|Hlt]; [done|].
    rewrite Hs in Hu. apply app_eq_prefix in Hu as (k & -> & Hk); [|lia].
    assert (k ≠ []) as Hne.
    { intros ->. rewrite app_nil_r in Hlt. lia. }
    specialize (Hno u k eq_refl Hne). cbn [length Nat.add] in Hno.
    rewrite <- Hk in Hno.
    by apply m_rxDefaultTrigger_complete in Hno.
Qed.

Lemma exec_rxDefaultTrigger_intro pre c1 c2 post :
  (∀ u d1 d2 v,
     Forall (fun c => dot c = true) d1 → Forall (fun c => dot c = true) d2 →
     pre ++ marker_text c1 c2 ++ post = u ++ marker_text d1 d2 ++ v →
     (length pre ≤ length u)%nat) →
  m rxDefaultTrigger Some
    (MkState (length pre) (marker_text c1 c2 ++ post) (replicate 2 None))
  = Some (MkState (length pre + length (marker_text c1 c2)) post [Some c1; Some c2]) →
  exec rxDefaultTrigger 2 (of_code_units (pre ++ marker_text c1 c2 ++ post))
  = Some (MkMatch pre (marker_text c1 c2) post [Some c1; Some c2]).
Proof.
  intros Hmin Hm. unfold exec. rewrite code_units_of, search_skip.
  - rewrite search_eq. change (length ([] ++ pre)) with (length pre). rewrite Hm.
    cbn [ms_pos ms_rest ms_caps app]. do 2 f_equal.
    replace (length pre + length (marker_text c1 c2) - length pre)
      with (length (marker_text c1 c2)) by lia.
    by rewrite take_app_length.
  - intros a1 a2 -> Ha2.
    destruct (m rxDefaultTrigger Some (MkState _ (a2 ++ _) _)) as [st|] eqn:E; [|done].
    apply m_rxDefaultTrigger_Some in E as (d1 & d2 & v & Hv & Hd1 & Hd2 & _).
    specialize (Hmin a1 d1 d2 v Hd1 Hd2). rewrite <- app_assoc, Hv in Hmin.
    specialize (Hmin eq_refl). rewrite length_app in Hmin.
    destruct a2; [done|simpl in Hmin; lia].
Qed.

Lemma exec_None_no_marker s : exec rxDefaultTrigger 2 s = None → ¬ has_marker s.
Proof.
  intros Hnone (pre & c1 & c2 & post & Hs & Hc1 & Hc2). revert Hnone.
  unfold exec. rewrite Hs. apply search_complete.
  by apply m_rxDefaultTrigger_complete.
Qed.

(** The replacement text uses the two captures only. *)
Lemma getSubstitution_trigger pre text post c1 c2 :
  getSubstitution (MkMatch pre text post [Some c1; Some c2]) (code_units default_trigger)
  = trigger_text c1 c2.
Proof. vm_compute. reflexivity. Qed.

Lemma inject_trigger_Some s pre c1 c2 post :
  exec rxDefaultTrigger 2 s
  = Some (MkMatch pre (marker_text c1 c2) post [Some c1; Some c2]) →
  inject_trigger s = of_code_units (pre ++ trigger_text c1 c2 ++ post).
Proof.
  intros H. unfold inject_trigger, replace_regex. rewrite H.
  cbn [mt_pre mt_post]. by rewrite getSubstitution_trigger.
Qed.

(** ** Where the placeholders can lie *)

(** An [x] behind a list that avoids [x] lies in the part after it. *)
Lemma after_avoiding {A} (b q k y : list A) x :
  b ++ q = k ++ x :: y → x ∉ b → ∃ k2, k = b ++ k2 ∧ q = k2 ++ x :: y.
Proof.
  intros Heq Hx. apply app_eq_inv in Heq as [(j & -> & Hj)|(j & -> & Hj)].
  - destruct j as [|z j]; simpl in Hj.
    + exists []. rewrite !app_nil_r. by subst.
    + injection Hj as <- ->. destruct Hx. rewrite elem_of_app. right. by left.
  - by exists j.
Qed.

(** The replacement text of a trigger placeholder whose schema and object
    have no [%]: a first line, and no [%] at all. *)
Lemma trigger_shape c1 c2 :
  "%"%char ∉ c1 → "%"%char ∉ c2 →
  ∃ t2, trigger_text c1 c2 = code_units "-- default trigger" ++ "010"%char :: t2
        ∧ "%"%char ∉ t2.
Proof.
  intros H1 H2. eexists. split.
  - vm_compute. reflexivity.
  - repeat first
      [ apply not_elem_of_nil
      | apply not_elem_of_cons; split; [discriminate|]
      | apply not_elem_of_app; split; [assumption|] ].
Qed.

(** A trigger placeholder in a text with the block of columns lies before
    the block or after it. *)
Lemma marker_beside_columns a c u c1 c2 v :
  Forall (fun c => dot c = true) c1 → Forall (fun c => dot c = true) c2 →
  a ++ code_units default_columns ++ c = u ++ marker_text c1 c2 ++ v →
  (∃ k, a = u ++ marker_text c1 c2 ++ k)
  ∨ (∃ k, c = k ++ marker_text c1 c2 ++ v ∧ u = a ++ code_units default_columns ++ k).
Proof.
  intros H1 H2 Heq. destruct columns_shape as (b & Hb & Hpercent).
  pose proof (marker_one_line c1 c2 H1 H2) as Hline.
  pose proof (marker_ends c1 c2) as Hends.
  remember (marker_text c1 c2) as mk eqn:Hmk.
  remember (code_units "%DEFAULT_TRIGGER(" ++ c1 ++ "."%char :: c2 ++ [")"%char])
    as mk' eqn:Hmk'.
  clear Hmk Hmk'. rewrite Hb in *. clear Hb.
  assert (Heq' : u ++ mk ++ v = (a ++ b) ++ "010"%char :: c).
  { rewrite <- Heq. by rewrite <- !app_assoc. }
  apply one_side in Heq' as [(post1 & Hab & _)|(pre1 & -> & ->)]; [| |done].
  - assert (Hab' : (u ++ mk') ++ "%"%char :: post1 = a ++ b).
    { rewrite Hab, Hends. by rewrite <- !app_assoc. }
    apply before_avoiding in Hab' as (u2 & -> & _); [|done].
    left. exists u2. rewrite Hends. by rewrite <- !app_assoc.
  - right. exists pre1. split; [done|]. by rewrite <- !app_assoc.
Qed.

(** The columns placeholder in a text with the replacement of a trigger
    placeholder lies before the replacement or after it. *)
Lemma columns_beside_trigger p q u v c1 c2 :
  "%"%char ∉ c1 → "%"%char ∉ c2 →
  p ++ trigger_text c1 c2 ++ q = u ++ code_units "%DEFAULT_COLUMNS%" ++ v →
  (∃ k, p = u ++ code_units "%DEFAULT_COLUMNS%" ++ k)
  ∨ (∃ k, q = k ++ code_units "%DEFAULT_COLUMNS%" ++ v
          ∧ u = p ++ trigger_text c1 c2 ++ k).
Proof.
  intros H1 H2 Heq. destruct (trigger_shape c1 c2 H1 H2) as (t2 & Ht & Ht2).
  assert ("%"%char ∉ code_units "-- default trigger") as Ht1.
  { apply (bool_decide_unpack _). vm_compute. exact I. }
  assert ("010"%char ∉ code_units "%DEFAULT_COLUMNS%") as Hline.
  { apply (bool_decide_unpack _). vm_compute. exact I. }
  assert (code_units "%DEFAULT_COLUMNS%" = "%"%char :: code_units "DEFAULT_COLUMNS%")
    as Hstart by done.
  assert (code_units "%DEFAULT_COLUMNS%" = code_units "%DEFAULT_COLUMNS" ++ ["%"%char])
    as Hend by done.
  remember (code_units "-- default trigger") as t1 eqn:E1.
  remember (code_units "%DEFAULT_COLUMNS%") as ph eqn:E2.
  remember (code_units "DEFAULT_COLUMNS%") as ph1 eqn:E3.
  remember (code_units "%DEFAULT_COLUMNS") as ph2 eqn:E4.
  remember (trigger_text c1 c2) as tt eqn:E5.
  clear E1 E2 E3 E4 E5. subst tt.
  assert (Heq' : u ++ ph ++ v = (p ++ t1) ++ "010"%char :: (t2 ++ q)).
  { rewrite <- Heq. by rewrite <- !app_assoc. }
  apply one_side in Heq' as [(post1 & Hp & _)|(pre1 & Hq & ->)]; [| |done].
  - assert (Hp' : (u ++ ph2) ++ "%"%char :: post1 = p ++ t1).
    { rewrite Hp, Hend. by rewrite <- !app_assoc. }
    apply before_avoiding in Hp' as (u2 & -> & _); [|done].
    left. exists u2. rewrite Hend. by rewrite <- !app_assoc.
  - rewrite Hstart in Hq. simpl in Hq.
    apply after_avoiding in Hq as (k2 & -> & ->); [|done].
    right. exists k2. split; [by rewrite Hstart|]. by rewrite <- !app_assoc.
Qed.

(** Putting the block of columns in place of the columns placeholder makes
    no trigger placeholder. *)
Lemma inject_columns_no_marker s : ¬ has_marker s → ¬ has_marker (inject_columns s).
Proof.
  intros Hno. unfold inject_columns, replace_string.
  destruct (indexOf _ (code_units s)) as [[a c]|] eqn:Hidx; [|done].
  rewrite getSubstitution_columns. apply indexOf_Some in Hidx.
  intros (pre & c1 & c2 & post & Heq & H1 & H2). rewrite code_units_of in Heq.
  apply marker_beside_columns in Heq as [(k & ->)|(k & -> & _)]; [| |done..];
    destruct Hno.
  - exists pre, c1, c2, (k ++ code_units "%DEFAULT_COLUMNS%" ++ c).
    split; [|done]. rewrite Hidx. by rewrite <- !app_assoc.
  - exists (a ++ code_units "%DEFAULT_COLUMNS%" ++ k), c1, c2, post.
    split; [|done]. rewrite Hidx. by rewrite <- !app_assoc.
Qed.

(** ** The two substitutions in either order *)

Lemma inject_trigger_at pre c1 c2 post :
  (∀ u d1 d2 v,
     Forall (fun c => dot c = true) d1 → Forall (fun c => dot c = true) d2 →
     pre ++ marker_text c1 c2 ++ post = u ++ marker_text d1 d2 ++ v →
     (length pre ≤ length u)%nat) →
  (∀ pos' post',
     m rxDefaultTrigger Some
       (MkState pos' (marker_text c1 c2 ++ post') (replicate 2 None))
     = Some (MkState (pos' + length (marker_text c1 c2)) post' [Some c1; Some c2])) →
  inject_trigger (of_code_units (pre ++ marker_text c1 c2 ++ post))
  = of_code_units (pre ++ trigger_text c1 c2 ++ post).
Proof.
  intros Hmin Hloc. apply inject_trigger_Some, exec_rxDefaultTrigger_intro; [done|].
  apply Hloc.
Qed.

Lemma inject_columns_at a c :
  (∀ u v, a ++ code_units "%DEFAULT_COLUMNS%" ++ c
          = u ++ code_units "%DEFAULT_COLUMNS%" ++ v → (length a ≤ length u)%nat) →
  inject_columns (of_code_units (a ++ code_units "%DEFAULT_COLUMNS%" ++ c))
  = of_code_units (a ++ code_units default_columns ++ c).
Proof.
  intros Hmin. apply inject_columns_Some. rewrite code_units_of.
  by apply indexOf_intro.
Qed.

Lemma substitutions_commute s :
  plain_names s → apart s →
  inject_trigger (inject_columns s) = inject_columns (inject_trigger s).
Proof.
  intros Hplain Hapart.
  destruct (exec rxDefaultTrigger 2 s) as [mt|] eqn:Hexec; cycle 1.
  { apply exec_None_no_marker in Hexec. rewrite (inject_trigger_verbatim s) by done.
    by apply inject_trigger_verbatim, inject_columns_no_marker. }
  destruct (Hplain mt Hexec) as [Hp1 Hp2].
  pose proof (fun a c H => Hapart a c mt H Hexec) as Hap. clear Hplain Hapart.
  destruct (exec_rxDefaultTrigger_Some s mt Hexec)
    as (pre & c1 & c2 & post & Hs & Hc1 & Hc2 & -> & Hfirst & Hloc).
  cbn [mt_pre mt_text mt_caps] in *.
  change (capture [Some c1; Some c2] 1) with c1 in Hp1.
  change (capture [Some c1; Some c2] 2) with c2 in Hp2.
  rewrite (inject_trigger_Some s pre c1 c2 post Hexec).
  destruct (indexOf (code_units "%DEFAULT_COLUMNS%") (code_units s))
    as [[a c]|] eqn:Hidx.
  - pose proof (indexOf_Some _ _ _ _ Hidx) as Ha.
    pose proof (indexOf_first _ _ _ _ Hidx) as Hmin.
    rewrite (inject_columns_Some s a c Hidx).
    specialize (Hap a c eq_refl). clear Hidx Hexec.
    remember (code_units s) as l eqn:El. clear El s.
    remember (code_units "%DEFAULT_COLUMNS%") as ph eqn:Eph.
    remember (code_units default_columns) as blk eqn:Eblk.
    destruct Hap as [Hbefore|Hafter].
    + assert (pre ++ marker_text c1 c2 ++ post = (a ++ ph) ++ c) as Hk.
      { rewrite <- Hs, Ha. by rewrite <- !app_assoc. }
      apply app_eq_prefix in Hk as (k & Epre & Ec); [|rewrite length_app; lia].
      subst pre c.
      transitivity (of_code_units (a ++ blk ++ k ++ trigger_text c1 c2 ++ post)).
      * replace (a ++ blk ++ k ++ marker_text c1 c2 ++ post)
          with ((a ++ blk ++ k) ++ marker_text c1 c2 ++ post)
          by (by rewrite <- !app_assoc).
        rewrite inject_trigger_at; [by rewrite <- !app_assoc| |done].
        intros u d1 d2 v Hd1 Hd2 Hu.
        assert (a ++ blk ++ (k ++ marker_text c1 c2 ++ post)
                = u ++ marker_text d1 d2 ++ v) as Hu'.
        { rewrite <- Hu. by rewrite <- !app_assoc. }
        subst blk. apply marker_beside_columns in Hu' as [(j & Hj)|(j & Hj & ->)];
          [| |done..].
        -- assert (length ((a ++ ph) ++ k) ≤ length u)%nat as Hle.
           { apply (Hfirst u d1 d2 (j ++ ph ++ k ++ marker_text c1 c2 ++ post) Hd1 Hd2).
             rewrite Ha, Hj. by rewrite <- !app_assoc. }
           rewrite Hj in Hle. rewrite !length_app, marker_length in Hle. lia.
        -- assert (length ((a ++ ph) ++ k) ≤ length (a ++ ph ++ j))%nat as Hle.
           { apply (Hfirst _ d1 d2 v Hd1 Hd2).
             rewrite Ha, Hj. by rewrite <- !app_assoc. }
           rewrite !length_app in *. lia.
      * symmetry.
        replace (((a ++ ph) ++ k) ++ trigger_text c1 c2 ++ post)
          with (a ++ ph ++ (k ++ trigger_text c1 c2 ++ post))
          by (by rewrite <- !app_assoc).
        subst ph blk. apply inject_columns_at. intros u v Hu.
        destruct (decide (length a ≤ length u)%nat) as [|Hlt]; [done|].
        assert ((a ++ code_units "%DEFAULT_COLUMNS%") ++ k ++ trigger_text c1 c2 ++ post
                = (u ++ code_units "%DEFAULT_COLUMNS%") ++ v) as Hu'.
        { rewrite <- !app_assoc. exact Hu. }
        apply app_eq_prefix in Hu' as (j & Hj & _); [|rewrite !length_app; lia].
        exfalso. apply Hlt.
        apply (Hmin u (j ++ k ++ marker_text c1 c2 ++ post)). rewrite Ha.
        transitivity ((a ++ code_units "%DEFAULT_COLUMNS%")
                        ++ k ++ marker_text c1 c2 ++ post);
          [by rewrite <- !app_assoc|].
        rewrite Hj. by rewrite <- !app_assoc.
    + assert (a ++ ph ++ c = (pre ++ marker_text c1 c2) ++ post) as Hk.
      { rewrite <- Ha, Hs. by rewrite <- !app_assoc. }
      apply app_eq_prefix in Hk as (k & Ea & Epost); [|rewrite length_app; lia].
      subst a post.
      transitivity (of_code_units (pre ++ trigger_text c1 c2 ++ k ++ blk ++ c)).
      * replace (((pre ++ marker_text c1 c2) ++ k) ++ blk ++ c)
          with (pre ++ marker_text c1 c2 ++ (k ++ blk ++ c))
          by (by rewrite <- !app_assoc).
        rewrite inject_trigger_at; [done| |done].
        intros u d1 d2 v Hd1 Hd2 Hu.
        assert ((pre ++ marker_text c1 c2 ++ k) ++ blk ++ c
                = u ++ marker_text d1 d2 ++ v) as Hu'.
        { rewrite <- Hu. by rewrite <- !app_assoc. }
        subst blk. apply marker_beside_columns in Hu' as [(j & Hj)|(j & Hj & ->)];
          [| |done..].
        -- apply (Hfirst u d1 d2 (j ++ ph ++ c) Hd1 Hd2).
           rewrite Hs.
           transitivity ((pre ++ marker_text c1 c2 ++ k) ++ ph ++ c);
             [by rewrite <- !app_assoc|].
           rewrite Hj. by rewrite <- !app_assoc.
        -- rewrite !length_app. lia.
      * symmetry.
        replace (pre ++ trigger_text c1 c2 ++ k ++ ph ++ c)
          with ((pre ++ trigger_text c1 c2 ++ k) ++ ph ++ c)
          by (by rewrite <- !app_assoc).
        subst ph blk. rewrite inject_columns_at; [by rewrite <- !app_assoc|].
        intros u v Hu.
        assert (pre ++ trigger_text c1 c2 ++ (k ++ code_units "%DEFAULT_COLUMNS%" ++ c)
                = u ++ code_units "%DEFAULT_COLUMNS%" ++ v) as Hu'.
        { rewrite <- Hu. by rewrite <- !app_assoc. }
        apply columns_beside_trigger in Hu' as [(j & Hj)|(j & Hj & ->)]; [| |done..].
        -- assert (length ((pre ++ marker_text c1 c2) ++ k) ≤ length u)%nat as Hle.
           { apply (Hmin u (j ++ marker_text c1 c2 ++ k
                              ++ code_units "%DEFAULT_COLUMNS%" ++ c)).
             rewrite Hs, Hj. by rewrite <- !app_assoc. }
           rewrite Hj in Hle. rewrite !length_app, marker_length in Hle. lia.
        -- assert (length ((pre ++ marker_text c1 c2) ++ k)
                   ≤ length ((pre ++ marker_text c1 c2) ++ j))%nat as Hle.
           { apply (Hmin _ v). rewrite Hs, Hj. by rewrite <- !app_assoc. }
           rewrite !length_app in *. lia.
  - rewrite (inject_columns_verbatim s); cycle 1.
    { intros (u & v & Hu). rewrite indexOf_None in Hidx. by destruct (Hidx u v). }
    rewrite (inject_trigger_Some s pre c1 c2 post Hexec).
    symmetry. apply inject_columns_verbatim. intros (u & v & Hu).
    rewrite code_units_of in Hu. rewrite indexOf_None in Hidx.
    apply columns_beside_trigger in Hu as [(j & Hj)|(j & Hj & _)]; [| |done..].
    + apply (Hidx u (j ++ marker_text c1 c2 ++ post)).
      rewrite Hs, Hj. by rewrite <- !app_assoc.
    + apply (Hidx (pre ++ marker_text c1 c2 ++ j) v).
      rewrite Hs, Hj. by rewrite <- !app_assoc.
Qed.

(** C8, as amended.  [injectDefaults] applies the column substitution and
    then the trigger substitution to its result.  When the schema and the
    object of the first trigger placeholder have no [%] and the first
    columns placeholder and the first trigger placeholder share no
    character, the two substitutions give the same text in either order.
    A text without columns placeholder gets the trigger substitution only, a
    text without trigger placeholder the column substitution only, and a
    text with neither is returned as it is.  (Being a function of the text,
    the expansion gives the same result for the same input.) *)
Theorem expansion_order s :
  plain_names s → apart s →
  injectDefaults s = inject_trigger (inject_columns s)
  ∧ inject_trigger (inject_columns s) = inject_columns (inject_trigger s)
  ∧ (¬ has_columns s → injectDefaults s = inject_trigger s)
  ∧ (¬ has_marker s → injectDefaults s = inject_columns s)
  ∧ (¬ has_columns s → ¬ has_marker s → injectDefaults s = s).
Proof.
  intros Hplain Hapart. split; [done|]. split; [by apply substitutions_commute|].
  unfold injectDefaults. repeat split.
  - intros Hcols. by rewrite (inject_columns_verbatim s).
  - intros Hno. by apply inject_trigger_verbatim, inject_columns_no_marker.
  - intros Hcols Hno. by rewrite (inject_columns_verbatim s), inject_trigger_verbatim.
Qed.

(** C8 fails as stated: when the two placeholders share a [%] the first
    substitution destroys the other placeholder, whichever goes first. *)
Lemma expansion_order_counterexample :
  let s := "%DEFAULT_COLUMNS%DEFAULT_TRIGGER(public.t)%" in
  inject_trigger (inject_columns s) = default_columns +:+ "DEFAULT_TRIGGER(public.t)%"
  ∧ inject_columns (inject_trigger s)
    = "%DEFAULT_COLUMNS" +:+ inject_trigger "%DEFAULT_TRIGGER(public.t)%"
  ∧ inject_trigger (inject_columns s) ≠ inject_columns (inject_trigger s).
Proof. vm_compute. repeat split. discriminate. Qed.

(** A [%] in the names can make a columns placeholder out of the trigger
    text: the text below has none, its trigger text has one. *)
Lemma percent_in_names :
  let s := "%DEFAULT_TRIGGER(%DEFAULT.COLUMNS%)%" in
  inject_columns s = s
  ∧ inject_trigger (inject_columns s) ≠ inject_columns (inject_trigger s).
Proof. vm_compute. split; [reflexivity|discriminate]. Qed.

(** A script with both placeholders, the columns first. *)
Lemma expansion_order_witness :
  let s := "ALTER TABLE public.t
%DEFAULT_COLUMNS%;
%DEFAULT_TRIGGER(public.t)%" in
  plain_names s ∧ apart s
  ∧ inject_trigger (inject_columns s) = inject_columns (inject_trigger s)
  ∧ injectDefaults s ≠ s.
Proof.
  intros s.
  assert (Hplain : plain_names s).
  { intros mt Hmt. vm_compute in Hmt. injection Hmt as <-.
    split; apply (bool_decide_unpack _); vm_compute; exact I. }
  assert (Hapart : apart s).
  { intros a c mt Ha Hmt. vm_compute in Ha, Hmt.
    injection Ha as <- <-. injection Hmt as <-. left. vm_compute. lia. }
  split; [exact Hplain|]. split; [exact Hapart|]. split.
  - exact (proj1 (proj2 (expansion_order s Hplain Hapart))).
  - vm_compute. discriminate.
Defined.

(** ** Facts about the script directory and the warnings *)

Lemma readdirSync_NoDup dir : NoDup (sort (readdirSync dir)).
Proof.
  unfold sort, readdirSync. rewrite merge_sort_Permutation.
  apply NoDup_fst_map_to_list.
Qed.

Lemma readdirSync_elem dir file :
  file ∈ sort (readdirSync dir) ↔ is_Some (dir !! file).
Proof.
  unfold sort, readdirSync. rewrite merge_sort_Permutation, list_elem_of_fmap.
  split.
  - intros ([f text] & -> & Hin). apply elem_of_map_to_list in Hin. by exists text.
  - intros [text Htext]. exists (file, text). split; [done|].
    by apply elem_of_map_to_list.
Qed.

Lemma find_absent (l : list string) file :
  file ∉ l → JS.find (fun item => bool_decide (item = file)) l = None.
Proof.
  intros Hnot. unfold JS.find. induction l as [|x l IH]; simpl; [done|].
  apply not_elem_of_cons in Hnot as [Hne Hnot].
  rewrite bool_decide_false by done. by apply IH.
Qed.

Lemma count_occ_filter_NoDup {A} (dec : ∀ x y : A, {x = y} + {x ≠ y})
    (P : A → bool) (l : list A) x :
  NoDup l → x ∈ l → P x = true → count_occ dec (List.filter P l) x = 1.
Proof.
  intros Hnd Hin HP.
  apply (proj1 (NoDup_count_occ' dec (List.filter P l))).
  - by apply List.NoDup_filter, NoDup_ListNoDup.
  - apply filter_In. split; [by apply list_elem_of_In|done].
Qed.

Lemma count_occ_filter_false {A} (dec : ∀ x y : A, {x = y} + {x ≠ y})
    (P : A → bool) (l : list A) x :
  P x = false → count_occ dec (List.filter P l) x = 0.
Proof.
  intros HP. apply count_occ_not_In. intros [_ ?]%filter_In. congruence.
Qed.

Lemma count_occ_map_inj {A B} (decA : ∀ x y : A, {x = y} + {x ≠ y})
    (decB : ∀ x y : B, {x = y} + {x ≠ y}) (f : A → B) (l : list A) x :
  (∀ a b, f a = f b → a = b) →
  count_occ decB (map f l) (f x) = count_occ decA l x.
Proof.
  intros Hinj. induction l as [|a l IH]; simpl; [done|].
  destruct (decA a x) as [->|Hne].
  - by rewrite IH; destruct (decB (f x) (f x)).
  - destruct (decB (f a) (f x)) as [Heq|_]; [by apply Hinj in Heq|done].
Qed.

(** An orphan is in the list of the first check once. *)
Lemma orphan_listed_once us dir file :
  is_Some (dir !! file) → file ∉ updates us → file ∉ ignore us →
  count_occ string_dec (warnNotReferencedScripts us (sort (readdirSync dir))) file = 1.
Proof.
  intros Hfile Hupd Hign. unfold warnNotReferencedScripts.
  apply count_occ_filter_NoDup.
  - apply readdirSync_NoDup.
  - by apply readdirSync_elem.
  - by rewrite !find_absent.
Qed.

Lemma warnings_count us dir file :
  count_occ Event_eq_dec (warnings us dir) (WarnNotReferenced file)
  = count_occ string_dec (warnNotReferencedScripts us (sort (readdirSync dir))) file.
Proof.
  unfold warnings. rewrite count_occ_app.
  rewrite (count_occ_map_inj string_dec) by (by intros a b [=]).
  rewrite (proj1 (count_occ_not_In _ (map WarnNoRLS _) _)); [lia|].
  by intros (? & ? & _)%in_map_iff.
Qed.

Lemma warnings_are_warnings us dir :
  List.filter (fun e => negb (is_warning e)) (warnings us dir) = [].
Proof.
  unfold warnings. rewrite List.filter_app.
  assert (Hw : ∀ (E : string → Event) l,
             (∀ f, is_warning (E f) = true) →
             List.filter (fun e => negb (is_warning e)) (map E l) = []).
  { intros E l HE. induction l as [|f l IH]; simpl; [done|]. by rewrite HE. }
  by rewrite !Hw.
Qed.

(** ** The pairing check on a directory *)

Lemma isRLSOf_spec f g schema object :
  one_line f → one_line g → letters schema →
  splits_at " TABLE" f (schema +:+ "." +:+ object) →
  isRLSOf f g = true ↔ splits_at " RLS" g (schema +:+ "." +:+ object).
Proof.
  intros Hf Hg Hschema Hsplit.
  destruct (exec_rxTableName f schema object Hf Hschema Hsplit) as (mt & Hmt & Hgrp).
  unfold isRLSOf, JS.test, match1, splits_at. rewrite exec_rxRLSName, Hmt by done.
  destruct (JS.indexOf (JS.code_units " RLS") (JS.code_units g)) as [[q post]|].
  - change (Some mt ≫= JS.group 1) with (JS.group 1 mt). rewrite Hgrp.
    unfold JS.group. simpl. rewrite bool_decide_eq_true. split.
    + intros [= ->]. exists post. by rewrite code_units_of.
    + intros (post' & [= Hq _]). by rewrite Hq, of_code_units_of.
  - split; [done|]. by intros [? ?].
Qed.

Lemma find_none_all {A} (P : A → bool) (l : list A) :
  (∀ x, x ∈ l → P x = false) → JS.find P l = None.
Proof.
  unfold JS.find. induction l as [|x l IH]; intros Hall; simpl; [done|].
  rewrite Hall by (by left). apply IH. intros y Hy. apply Hall. by right.
Qed.

Lemma find_some_any {A} (P : A → bool) (l : list A) x :
  x ∈ l → P x = true → ∃ y, JS.find P l = Some y ∧ y ∈ l ∧ P y = true.
Proof.
  unfold JS.find. induction l as [|z l IH]; intros Hin HP; simpl.
  - by apply not_elem_of_nil in Hin.
  - destruct (P z) eqn:Hz.
    + exists z. split; [done|]. split; [by left|done].
    + apply elem_of_cons in Hin as [->|Hin]; [congruence|].
      destruct (IH Hin HP) as (y & ? & ? & ?). exists y. split; [done|].
      split; [by right|done].
Qed.

Lemma splits_at_nonempty sep g prefix :
  sep ≠ "" → splits_at sep g prefix → g ≠ "".
Proof.
  intros Hsep [post Hidx] ->. apply indexOf_Some in Hidx.
  destruct sep; [done|]. simpl in Hidx. by destruct (JS.code_units prefix).
Qed.

(** The list of the second check, for a table script whose schema is a run
    of ASCII letters, in a directory of names without line terminators. *)
Lemma pairing_listed dir f schema object :
  let files := sort (readdirSync dir) in
  Forall one_line files → is_Some (dir !! f) → letters schema →
  splits_at " TABLE" f (schema +:+ "." +:+ object) →
  ((∀ g, g ∈ files → ¬ splits_at " RLS" g (schema +:+ "." +:+ object)) →
   count_occ string_dec (warnTablesWithoutRLS files) f = 1)
  ∧ ((∃ g, g ∈ files ∧ splits_at " RLS" g (schema +:+ "." +:+ object)) →
     count_occ string_dec (warnTablesWithoutRLS files) f = 0).
Proof.
  intros files Hlines Hf Hschema Hsplit.
  assert (Hin : f ∈ files) by (by apply readdirSync_elem).
  assert (Hline : one_line f) by (rewrite Forall_forall in Hlines; by apply Hlines).
  destruct (exec_rxTableName f schema object Hline Hschema Hsplit) as (mt & Hmt & _).
  assert (Htest : JS.test rxTableName 1 f = true) by (unfold JS.test; by rewrite Hmt).
  unfold warnTablesWithoutRLS. split.
  - intros Hno. apply count_occ_filter_NoDup; [apply readdirSync_NoDup|done|].
    rewrite Htest, find_none_all; [done|]. intros g Hg.
    apply not_true_is_false. intros Hrls.
    apply (isRLSOf_spec f g schema object) in Hrls; try done.
    + by apply (Hno g).
    + rewrite Forall_forall in Hlines. by apply Hlines.
  - intros (g & Hg & Hrls). apply count_occ_filter_false.
    assert (isRLSOf f g = true) as Hg'.
    { apply (isRLSOf_spec f g schema object); try done.
      rewrite Forall_forall in Hlines. by apply Hlines. }
    destruct (find_some_any (isRLSOf f) files g Hg Hg') as (y & -> & Hy & HPy).
    rewrite Htest. simpl.
    apply (isRLSOf_spec f y schema object) in HPy; try done.
    + apply splits_at_nonempty in HPy; [|done]. by rewrite decide_False.
    + rewrite Forall_forall in Hlines. by apply Hlines.
Qed.

Lemma letters_prefix (s : list ascii) :
  ∃ w rest, s = w ++ rest ∧ Forall (fun c => letter c = true) w
            ∧ match rest with [] => True | c :: _ => letter c = false end.
Proof.
  induction s as [|c s (w & rest & -> & Hw & Hrest)]; [by exists [], []|].
  destruct (letter c) eqn:Hc.
  - exists (c :: w), rest. repeat split; [by constructor|done].
  - by exists [], (c :: w ++ rest).
Qed.

Lemma m_rxTableName_None w rest caps :
  Forall (fun c => letter c = true) w →
  match rest with [] => True | c :: _ => letter c = false ∧ c ≠ "."%char end →
  m rxTableName Some (MkState 0 (w ++ rest) caps) = None.
Proof.
  intros Hw Hrest. unfold rxTableName, lit.
  remember (code_units " TABLE") as stop eqn:Hstop. clear Hstop.
  simpl m.
  rewrite (lazy_star_run letter _ caps w rest); [| done | |by destruct rest as [|c r]; [|destruct Hrest]].
  2: { intros pos c rest' Hc. simpl.
       destruct (decide ("."%char = c)) as [<-|]; [done|done]. }
  destruct rest as [|c r]; [done|]. destruct Hrest as [_ Hc]. simpl.
  by rewrite decide_False.
Qed.

(** [/(^[a-zA-Z]*?\..*?) TABLE/] matches only at the start of the name, and
    only a name that starts with letters, a dot and a text on one line in
    front of [" TABLE"]. *)
Lemma test_rxTableName f : test rxTableName 1 f = true → table_script_name f.
Proof.
  unfold test. destruct (exec rxTableName 1 f) as [mt|] eqn:Hexec; [|done]. intros _.
  unfold exec in Hexec.
  apply search_Some in Hexec as (a & b & st & Hs & Hst & _ & _).
  destruct a as [|x a]; cycle 1.
  { by rewrite m_rxTableName_later in Hst. }
  simpl in Hs. subst b. change (length [] + length []) with 0 in Hst.
  destruct (letters_prefix (code_units f)) as (w & rest & Hf & Hw & Hrest).
  rewrite Hf in Hst.
  destruct rest as [|c r].
  { by rewrite m_rxTableName_None in Hst. }
  destruct (decide (c = "."%char)) as [->|Hc]; cycle 1.
  { by rewrite m_rxTableName_None in Hst. }
  rewrite m_rxTableName in Hst by done.
  destruct (scan dot (code_units " TABLE") r) as [[object post]|] eqn:Hscan; [|done].
  apply scan_split in Hscan as [-> Hobject].
  by exists w, object, post.
Qed.

(** A name whose first character that is not a letter is not a dot does not
    match the table pattern. *)
Lemma test_rxTableName_other f w c rest :
  code_units f = w ++ c :: rest →
  Forall (fun c => letter c = true) w → letter c = false → c ≠ "."%char →
  test rxTableName 1 f = false.
Proof.
  intros Hf Hw Hc Hdot. unfold test.
  destruct (exec rxTableName 1 f) as [mt|] eqn:Hexec; [|done].
  unfold exec in Hexec.
  apply search_Some in Hexec as (a & b & st & Hs & Hst & _ & _).
  destruct a as [|x a]; cycle 1.
  { by rewrite m_rxTableName_later in Hst. }
  simpl in Hs. subst b. change (length [] + length []) with 0 in Hst.
  rewrite Hf in Hst. by rewrite m_rxTableName_None in Hst.
Qed.

Lemma warnings_count_rls us dir file :
  count_occ Event_eq_dec (warnings us dir) (WarnNoRLS file)
  = count_occ string_dec (warnTablesWithoutRLS (sort (readdirSync dir))) file.
Proof.
  unfold warnings. rewrite count_occ_app.
  rewrite (count_occ_map_inj string_dec _ WarnNoRLS) by (by intros a b [=]).
  rewrite (proj1 (count_occ_not_In _ (map WarnNotReferenced _) _)); [lia|].
  by intros (? & ? & _)%in_map_iff.
Qed.

(** ** Facts about the rows of the ledger *)

Lemma alreadyApplied_nil n : alreadyAppliedScript [] n = None.
Proof. reflexivity. Qed.

Lemma alreadyApplied_cons r rows n :
  alreadyAppliedScript (r :: rows) n
  = if decide (name r = n) then Some r else alreadyAppliedScript rows n.
Proof.
  unfold alreadyAppliedScript, JS.find. simpl.
  destruct (decide (name r = n)).
  - by rewrite bool_decide_true.
  - by rewrite bool_decide_false.
Qed.

Lemma alreadyApplied_Some rows n r :
  alreadyAppliedScript rows n = Some r → name r = n ∧ r ∈ rows.
Proof.
  induction rows as [|r0 rows IH]; [done|].
  rewrite alreadyApplied_cons. destruct (decide (name r0 = n)).
  - intros [= <-]. split; [done|]. by left.
  - intros H. apply IH in H as [? ?]. split; [done|]. by right.
Qed.

Lemma alreadyApplied_None rows n :
  alreadyAppliedScript rows n = None ↔ n ∉ name <$> rows.
Proof.
  induction rows as [|r0 rows IH].
  - split; [intros _; apply not_elem_of_nil|done].
  - rewrite alreadyApplied_cons, fmap_cons, not_elem_of_cons.
    destruct (decide (name r0 = n)); [|rewrite IH]; naive_solver.
Qed.

Lemma alreadyApplied_app rows rows' n :
  alreadyAppliedScript (rows ++ rows') n
  = match alreadyAppliedScript rows n with
    | Some r => Some r
    | None => alreadyAppliedScript rows' n
    end.
Proof.
  induction rows as [|r0 rows IH]; [done|].
  rewrite <- app_comm_cons, !alreadyApplied_cons. by destruct (decide (name r0 = n)).
Qed.

Lemma name_set_sha sha m r : name (set_sha sha m r) = name r.
Proof. unfold set_sha. by destruct (decide _). Qed.

Lemma set_sha_other sha m r : name r ≠ m → set_sha sha m r = r.
Proof. intros Hne. unfold set_sha. by rewrite decide_False. Qed.

Lemma set_sha_same sha m r : name r = m → set_sha sha m r = MkRow m sha.
Proof. intros <-. unfold set_sha. by rewrite decide_True. Qed.

Lemma names_set_sha sha m (rows : list Row) :
  name <$> (set_sha sha m <$> rows) = name <$> rows.
Proof.
  rewrite <- list_fmap_compose. apply list_fmap_ext. intros _ r _. apply name_set_sha.
Qed.

(** The row that [find] returns is the first record of the name. *)
Lemma alreadyApplied_records rows n :
  alreadyAppliedScript rows n = head (records n rows).
Proof.
  unfold records. induction rows as [|r rows IH]; [done|].
  rewrite alreadyApplied_cons, filter_cons. by destruct (decide (name r = n)).
Qed.

Lemma records_app n rows rows' :
  records n (rows ++ rows') = records n rows ++ records n rows'.
Proof. apply filter_app. Qed.

Lemma records_name n rows r : r ∈ records n rows → name r = n.
Proof. unfold records. by intros [? _]%list_elem_of_filter. Qed.

Lemma records_kept_rows m n (rows : list Row) :
  records n (filter (fun r => name r ≠ m) rows)
  = if decide (m = n) then [] else records n rows.
Proof.
  unfold records. induction rows as [|r rows IH]; [by destruct (decide _)|].
  rewrite !(filter_cons _ r). destruct (decide (name r ≠ m)) as [Hm|Hm].
  - rewrite filter_cons, IH. destruct (decide (m = n)) as [<-|Hne].
    + by rewrite !decide_False by done.
    + done.
  - rewrite IH. destruct (decide (m = n)) as [<-|Hne]; [done|].
    rewrite decide_False; [done|]. intros Hn. apply Hm. congruence.
Qed.

Lemma records_new_rows sha m n (rows : list Row) :
  records n (set_sha sha m <$> filter (fun r => name r = m) rows)
  = if decide (m = n) then (fun r => MkRow n sha) <$> records n rows else [].
Proof.
  unfold records. induction rows as [|r rows IH]; [by destruct (decide _)|].
  rewrite !(filter_cons _ r). destruct (decide (name r = m)) as [Hm|Hm].
  - rewrite fmap_cons, filter_cons, name_set_sha, IH.
    destruct (decide (m = n)) as [<-|Hne].
    + rewrite !decide_True by done. rewrite fmap_cons. f_equal.
      unfold set_sha. rewrite decide_True by done. by rewrite Hm.
    + rewrite decide_False; [done|]. congruence.
  - rewrite IH. destruct (decide (m = n)) as [<-|Hne]; [|done].
    by rewrite decide_False.
Qed.

(** An update of [m] leaves the records of another name as they are, in
    their order, and gives every record of [m] the new hash. *)
Lemma records_update_rows_other sha m n rows :
  m ≠ n → records n (update_rows sha m rows) = records n rows.
Proof.
  intros Hne. unfold update_rows.
  rewrite records_app, records_kept_rows, records_new_rows.
  rewrite !decide_False by done. apply app_nil_r.
Qed.

Lemma records_update_rows sha n rows :
  records n (update_rows sha n rows) = (fun r => MkRow n sha) <$> records n rows.
Proof.
  unfold update_rows.
  rewrite records_app, records_kept_rows, records_new_rows.
  by rewrite !decide_True.
Qed.

Lemma alreadyApplied_update_rows sha m (rows : list Row) n :
  alreadyAppliedScript (update_rows sha m rows) n
  = set_sha sha m <$> alreadyAppliedScript rows n.
Proof.
  rewrite !alreadyApplied_records. destruct (decide (m = n)) as [->|Hne].
  - rewrite records_update_rows.
    destruct (records n rows) as [|r l] eqn:Hr; [done|]. simpl. f_equal.
    assert (name r = n) as Hn by (apply (records_name n rows); rewrite Hr; by left).
    unfold set_sha. rewrite decide_True by done. by rewrite Hn.
  - rewrite records_update_rows_other by done.
    destruct (records n rows) as [|r l] eqn:Hr; [done|]. simpl. f_equal.
    assert (name r = n) as Hn by (apply (records_name n rows); rewrite Hr; by left).
    unfold set_sha. rewrite decide_False; [done|]. congruence.
Qed.

(** The rows after an update are the rows before, in another order and with
    the new hash. *)
Lemma update_rows_Permutation sha m (rows : list Row) :
  update_rows sha m rows ≡ₚ set_sha sha m <$> rows.
Proof.
  unfold update_rows. induction rows as [|r rows IH]; [done|].
  rewrite !(filter_cons _ r), fmap_cons.
  destruct (decide (name r = m)) as [Hm|Hm].
  - rewrite decide_False by (intros ?; done). rewrite fmap_cons.
    rewrite <- Permutation_middle. by constructor.
  - rewrite decide_True by done. simpl. rewrite (set_sha_other sha m r) by done.
    by constructor.
Qed.

Lemma names_update_rows sha m (rows : list Row) :
  name <$> update_rows sha m rows ≡ₚ name <$> rows.
Proof. by rewrite update_rows_Permutation, names_set_sha. Qed.

Lemma decide_Skip applied n sha :
  decide_entry applied n sha = Skip
  ↔ ∃ dbu, alreadyAppliedScript applied n = Some dbu ∧ sha256 dbu = sha.
Proof.
  unfold decide_entry. destruct (alreadyAppliedScript applied n) as [dbu|].
  - case_bool_decide; naive_solver.
  - naive_solver.
Qed.

Lemma decide_Update applied n sha :
  decide_entry applied n sha = Update
  ↔ ∃ dbu, alreadyAppliedScript applied n = Some dbu ∧ sha256 dbu ≠ sha.
Proof.
  unfold decide_entry. destruct (alreadyAppliedScript applied n) as [dbu|].
  - case_bool_decide; naive_solver.
  - naive_solver.
Qed.

Lemma decide_Insert applied n sha :
  decide_entry applied n sha = Insert ↔ alreadyAppliedScript applied n = None.
Proof.
  unfold decide_entry. destruct (alreadyAppliedScript applied n) as [dbu|].
  - case_bool_decide; naive_solver.
  - naive_solver.
Qed.

Lemma tracks_refl dir applied : tracks dir applied applied.
Proof.
  intros n script Hn. destruct (alreadyAppliedScript applied n) as [r|] eqn:Hr.
  - exists r. auto.
  - done.
Qed.

Lemma tracks_step dir applied rows m :
  tracks dir applied rows → tracks dir applied (entry_rows dir applied rows m).
Proof.
  intros Htr. unfold entry_rows.
  destruct (dir !! m) as [script_m|] eqn:Hm; [|done].
  destruct (decide_entry applied m (SHA256.hex script_m)) eqn:Hdec; [done|..].
  - apply decide_Update in Hdec as (dbu & Hdbu & Hne).
    intros n script Hn. specialize (Htr n script Hn).
    rewrite alreadyApplied_update_rows.
    destruct (alreadyAppliedScript applied n) as [r|] eqn:Hr.
    + destruct Htr as (r' & Hr' & Hsha). rewrite Hr'. simpl. eexists. split; [done|].
      apply alreadyApplied_Some in Hr' as [Hname _].
      unfold set_sha. destruct (decide (name r' = m)); [|done].
      simpl. right. congruence.
    + intros r''. destruct (alreadyAppliedScript rows n) as [r'|] eqn:Hr'; [|done].
      simpl. intros [= <-]. apply alreadyApplied_Some in Hr' as Hname.
      destruct Hname as [Hname _]. unfold set_sha.
      destruct (decide (name r' = m)); [congruence|]. by apply Htr.
  - apply decide_Insert in Hdec.
    intros n script Hn. specialize (Htr n script Hn).
    rewrite alreadyApplied_app.
    destruct (alreadyAppliedScript applied n) as [r|] eqn:Hr.
    + destruct Htr as (r' & Hr' & Hsha). rewrite Hr'. eauto.
    + intros r''. destruct (alreadyAppliedScript rows n) as [r'|] eqn:Hr'.
      * intros [= <-]. by apply Htr.
      * rewrite alreadyApplied_cons. simpl.
        destruct (decide (m = n)) as [->|]; [|done].
        intros [= <-]. simpl. congruence.
Qed.

Lemma recorded_step dir applied rows m :
  tracks dir applied rows → recorded dir (entry_rows dir applied rows m) m.
Proof.
  intros Htr script Hm. specialize (Htr m script Hm). unfold entry_rows. rewrite Hm.
  destruct (decide_entry applied m (SHA256.hex script)) eqn:Hdec.
  - apply decide_Skip in Hdec as (dbu & Hdbu & Hsha). rewrite Hdbu in Htr.
    destruct Htr as (r' & Hr' & [?|?]); exists r'; split; congruence.
  - apply decide_Update in Hdec as (dbu & Hdbu & Hne). rewrite Hdbu in Htr.
    destruct Htr as (r' & Hr' & _). rewrite alreadyApplied_update_rows, Hr'. simpl.
    eexists. split; [done|]. apply alreadyApplied_Some in Hr' as [Hname _].
    unfold set_sha. by rewrite decide_True.
  - apply decide_Insert in Hdec. rewrite Hdec in Htr.
    rewrite alreadyApplied_app.
    destruct (alreadyAppliedScript rows m) as [r'|] eqn:Hr'.
    + exists r'. split; [done|]. by apply Htr.
    + rewrite alreadyApplied_cons. simpl. rewrite decide_True by done. by eexists.
Qed.

Lemma recorded_kept dir applied rows n m :
  recorded dir rows n → recorded dir (entry_rows dir applied rows m) n.
Proof.
  intros Hrec script Hn. destruct (Hrec script Hn) as (dbu & Hdbu & Hsha).
  unfold entry_rows. destruct (dir !! m) as [script_m|] eqn:Hm; [|by exists dbu].
  destruct (decide_entry applied m (SHA256.hex script_m)) eqn:Hdec.
  - by exists dbu.
  - rewrite alreadyApplied_update_rows, Hdbu. simpl. eexists. split; [done|].
    apply alreadyApplied_Some in Hdbu as [Hname _].
    unfold set_sha. destruct (decide (name dbu = m)); [|done]. simpl. congruence.
  - rewrite alreadyApplied_app, Hdbu. by exists dbu.
Qed.

Lemma recorded_foldl dir applied l : ∀ rows n,
  recorded dir rows n → recorded dir (foldl (entry_rows dir applied) rows l) n.
Proof.
  induction l as [|m l IH]; intros rows n Hrec; simpl; [done|].
  by apply IH, recorded_kept.
Qed.

(** After the loop every entry of the manifest is recorded. *)
Lemma all_recorded dir applied l : ∀ rows n,
  tracks dir applied rows → n ∈ l →
  recorded dir (foldl (entry_rows dir applied) rows l) n.
Proof.
  induction l as [|m l IH]; intros rows n Htr Hin; simpl.
  - by apply not_elem_of_nil in Hin.
  - apply elem_of_cons in Hin as [->|Hin].
    + by apply recorded_foldl, recorded_step.
    + by apply IH; [apply tracks_step|].
Qed.

(** The names of the rows after the loop: the names before, then one name
    for every entry that was inserted. *)
Lemma names_foldl dir applied l : ∀ rows,
  name <$> foldl (entry_rows dir applied) rows l
  ≡ₚ (name <$> rows) ++ inserted dir applied l.
Proof.
  induction l as [|m l IH]; intros rows; simpl; [by rewrite app_nil_r|].
  rewrite IH. unfold entry_rows.
  destruct (dir !! m) as [script|] eqn:Hm.
  - destruct (decide_entry applied m (SHA256.hex script)) eqn:Hdec.
    + apply decide_Skip in Hdec as (dbu & Hdbu & _).
      rewrite bool_decide_false; [done|]. intros [_ ?]. congruence.
    + apply decide_Update in Hdec as (dbu & Hdbu & _). rewrite names_update_rows.
      rewrite bool_decide_false; [done|]. intros [_ ?]. congruence.
    + apply decide_Insert in Hdec. rewrite bool_decide_true by done.
      by rewrite fmap_app, <- app_assoc.
  - rewrite bool_decide_false; [done|]. intros [[? ?] _]. done.
Qed.


Lemma inserted_spec dir applied l n :
  n ∈ inserted dir applied l
  ↔ n ∈ l ∧ is_Some (dir !! n) ∧ alreadyAppliedScript applied n = None.
Proof.
  unfold inserted. rewrite list_elem_of_In, filter_In, <- list_elem_of_In.
  by rewrite bool_decide_eq_true.
Qed.




Lemma records_entry_other dir applied rows m n :
  m ≠ n → records n (entry_rows dir applied rows m) = records n rows.
Proof.
  intros Hne. unfold entry_rows. destruct (dir !! m) as [script|]; [|done].
  destruct (decide_entry _ _ _); [done|by apply records_update_rows_other|].
  rewrite records_app. unfold records at 2. rewrite filter_cons, decide_False by done.
  by rewrite filter_nil, app_nil_r.
Qed.

Lemma records_foldl_other dir applied l n : ∀ rows,
  n ∉ l → records n (foldl (entry_rows dir applied) rows l) = records n rows.
Proof.
  induction l as [|m l IH]; intros rows Hn; simpl; [done|].
  apply not_elem_of_cons in Hn as [Hne Hn].
  rewrite IH by done. by apply records_entry_other.
Qed.






(** ** Facts about the [pg] client and the monad of the script *)

Section EngineFacts.

Context {Objects : Type}.
Variable run_sql : string → Objects → option Objects.

Abbreviation World := (@World Objects).
Abbreviation Database := (@Database Objects).

Lemma bind_eq {A B} (x : IO A) (f : A → IO B) (w : World) :
  (x ≫= f) w =
  match x w with
  | (w', Ret a) => f a w'
  | (w', Throw err) => (w', Throw err)
  | (w', Exit code) => (w', Exit code)
  end.
Proof. reflexivity. Qed.

Lemma pgQuery_Script c0 o rows lg body :
  pgQuery run_sql (Script body) (in_tx c0 o rows lg) =
  match run_sql body o with
  | Some o' => (in_tx c0 o' rows (lg ++ [Sent (Script body)]), Ret [])
  | None =>
      (in_tx c0 o rows (lg ++ [Sent (Script body)]), Throw (QueryFailed (Script body)))
  end.
Proof.
  unfold pgQuery, in_tx; simpl. destruct (run_sql body o); reflexivity.
Qed.

Lemma pgQuery_UpdateRow c0 o rows lg sha n :
  pgQuery run_sql (UpdateRow sha n) (in_tx c0 o rows lg) =
  (in_tx c0 o (update_rows sha n rows) (lg ++ [Sent (UpdateRow sha n)]), Ret []).
Proof. reflexivity. Qed.

Lemma pgQuery_InsertRow c0 o rows lg sha n :
  pgQuery run_sql (InsertRow n sha) (in_tx c0 o rows lg) =
  (in_tx c0 o (rows ++ [MkRow n sha]) (lg ++ [Sent (InsertRow n sha)]), Ret []).
Proof. reflexivity. Qed.

Lemma apply_update_view dir applied n c c0 o rows lg :
  StepView run_sql dir applied n c c0 o rows lg
    (apply_update run_sql dir applied n c (in_tx c0 o rows lg)).
Proof.
  unfold apply_update.
  destruct (dir !! n) as [script|] eqn:Hdir; [|by constructor].
  destruct (alreadyAppliedScript applied n) as [dbu|] eqn:Hfind.
  - case_bool_decide as Hsha.
    + eapply SV_skip; eauto.
    + rewrite bind_eq, pgQuery_Script.
      destruct (run_sql (injectDefaults script) o) as [o'|] eqn:Hrun.
      * rewrite bind_eq, pgQuery_UpdateRow, <- app_assoc.
        eapply SV_update; eauto.
      * eapply SV_fail; eauto. intros dbu' ?. by simplify_eq.
  - rewrite bind_eq, pgQuery_Script.
    destruct (run_sql (injectDefaults script) o) as [o'|] eqn:Hrun.
    + rewrite bind_eq, pgQuery_InsertRow, <- app_assoc.
      eapply SV_insert; eauto.
    + eapply SV_fail; eauto. intros dbu' ?. by simplify_eq.
Qed.

Lemma forEach_emit (E : string → Event) l (w : World) :
  forEach l (fun f => emit (E f)) w = (MkWorld (client w) (log w ++ map E l), Ret tt).
Proof.
  revert w. induction l as [|f l IH]; intros [c lg]; simpl.
  - by rewrite app_nil_r.
  - rewrite bind_eq. unfold emit at 1. simpl. rewrite IH. simpl.
    by rewrite <- app_assoc.
Qed.

Lemma printWarnings_eq wn wr (w : World) :
  printWarnings wn wr w
  = (MkWorld (client w) (log w ++ map WarnNotReferenced wn ++ map WarnNoRLS wr), Ret tt).
Proof.
  unfold printWarnings. rewrite bind_eq, forEach_emit, forEach_emit. simpl.
  by rewrite <- app_assoc.
Qed.

Lemma checkEnvVar_ok key value (w : World) :
  JS.falsy value = false → checkEnvVarAndQuitIfFalsy key value w = (w, Ret tt).
Proof. unfold checkEnvVarAndQuitIfFalsy. by intros ->. Qed.

(** The loop stays inside the transaction and never leaves the process. *)
Lemma apply_updates_in_tx dir applied l : ∀ c c0 o rows lg w r,
  apply_updates run_sql dir applied l c (in_tx c0 o rows lg) = (w, r) →
  (∃ o' rows' evs, w = in_tx c0 o' rows' (lg ++ evs)) ∧ (∀ code, r ≠ Exit code).
Proof.
  induction l as [|n l IH]; intros c c0 o rows lg w r; simpl.
  - intros [= <- <-]. split; [|done]. exists o, rows, []. by rewrite app_nil_r.
  - rewrite bind_eq.
    destruct (apply_update_view dir applied n c c0 o rows lg).
    + intros [= <- <-]. split; [|done]. exists o, rows, []. by rewrite app_nil_r.
    + intros Hl. apply IH in Hl as [(o' & rows' & evs & ->) ?]. split; [|done].
      exists o', rows', ([Skipping n] ++ evs). by rewrite app_assoc.
    + intros [= <- <-]. split; [|done]. by eexists o, rows, _.
    + intros Hl. apply IH in Hl as [(o'' & rows' & evs & ->) ?]. split; [|done].
      eexists o'', rows', (_ ++ evs). by rewrite app_assoc.
    + intros Hl. apply IH in Hl as [(o'' & rows' & evs & ->) ?]. split; [|done].
      eexists o'', rows', (_ ++ evs). by rewrite app_assoc.
Qed.

(** A run that passes the checks before the connection, in terms of its loop. *)
Lemma run_eq env db us dir :
  configured env → scripts_json env = Some us → scripts_dir env = Some dir →
  reachable env = true →
  run run_sql env db =
  match loop run_sql dir us db with
  | (w, Ret c) =>
      if JS.falsy (doCommit env)
      then MkOutcome 0 (log w ++ [Sent Rollback] ++ warnings us dir ++ [NotCommitted])
             (committed (client w))
      else MkOutcome 0 (log w ++ [Sent Commit] ++ warnings us dir)
             (current (client w))
  | (w, Throw err) =>
      MkOutcome 1 (log w ++ [Failed err; Sent Rollback]) (committed (client w))
  | (w, Exit code) => MkOutcome code (log w) (committed (client w))
  end.
Proof.
  intros Hcfg Hjson Hdir Hreach. unfold configured in Hcfg.
  repeat match goal with
         | H : Forall _ (_ :: _) |- _ => apply Forall_cons in H as [? H]
         end.
  unfold run, main.
  repeat (rewrite bind_eq, checkEnvVar_ok by done).
  rewrite Hjson, Hdir.
  unfold run_updates, try_catch, manage_db_updates_table, query_db_updates,
    pgQuery, emit, throw, exit, mbind, IO_bind, mret, IO_ret.
  simpl. rewrite Hreach. simpl.
  unfold loop, at_begin, in_tx, ensured, snapshot, current. simpl.
  destruct (apply_updates _ _ _ _ _ _) as [w [c|err|code]] eqn:Hloop; simpl.
  - destruct (JS.falsy (doCommit env)); simpl.
    + rewrite printWarnings_eq. simpl.
      unfold warnings. by rewrite <- !app_assoc.
    + rewrite printWarnings_eq. simpl.
      unfold warnings. by rewrite <- !app_assoc.
  - by rewrite <- !app_assoc.
  - done.
Qed.

(** The events and the rows of one entry, from the cases of the loop body. *)
Lemma entry_skip dir applied n script dbu :
  dir !! n = Some script → alreadyAppliedScript applied n = Some dbu →
  sha256 dbu = SHA256.hex script →
  entry_events dir applied n = [Skipping n]
  ∧ ∀ rows, entry_rows dir applied rows n = rows.
Proof.
  intros Hdir Hfind Hsha. unfold entry_events, entry_rows, decide_entry.
  by rewrite Hdir, Hfind, bool_decide_true.
Qed.

Lemma entry_update dir applied n script dbu :
  dir !! n = Some script → alreadyAppliedScript applied n = Some dbu →
  sha256 dbu ≠ SHA256.hex script →
  entry_events dir applied n
  = [Sent (Script (injectDefaults script)); Sent (UpdateRow (SHA256.hex script) n)]
  ∧ ∀ rows, entry_rows dir applied rows n = update_rows (SHA256.hex script) n rows.
Proof.
  intros Hdir Hfind Hsha. unfold entry_events, entry_rows, decide_entry.
  by rewrite Hdir, Hfind, bool_decide_false.
Qed.

Lemma entry_insert dir applied n script :
  dir !! n = Some script → alreadyAppliedScript applied n = None →
  entry_events dir applied n
  = [Sent (Script (injectDefaults script)); Sent (InsertRow n (SHA256.hex script))]
  ∧ ∀ rows, entry_rows dir applied rows n = rows ++ [MkRow n (SHA256.hex script)].
Proof.
  intros Hdir Hfind. unfold entry_events, entry_rows, decide_entry.
  by rewrite Hdir, Hfind.
Qed.

(** The loop, entry by entry: on success every entry has contributed its
    events and rows; on failure the entries before the failing one have. *)
Lemma apply_updates_spec dir applied l : ∀ c c0 o rows lg w r,
  apply_updates run_sql dir applied l c (in_tx c0 o rows lg) = (w, r) →
  match r with
  | Ret _ =>
      ∃ o', w = in_tx c0 o' (foldl (entry_rows dir applied) rows l)
                  (lg ++ flat_map (entry_events dir applied) l)
            ∧ Forall (fun n => is_Some (dir !! n)) l
  | Throw err =>
      ∃ o' pre k post evs,
        l = pre ++ k :: post
        ∧ w = in_tx c0 o' (foldl (entry_rows dir applied) rows pre)
                (lg ++ flat_map (entry_events dir applied) pre ++ evs)
        ∧ failure dir applied k err evs
  | Exit _ => False
  end.
Proof.
  induction l as [|n l IH]; intros c c0 o rows lg w r; simpl.
  - intros [= <- <-]. exists o. by rewrite app_nil_r.
  - rewrite bind_eq.
    destruct (apply_update_view dir applied n c c0 o rows lg)
      as [Hdir|script dbu Hdir Hfind Hsha|script Hdir Hno Hrun
          |script dbu o1 Hdir Hfind Hsha Hrun|script o1 Hdir Hfind Hrun].
    + intros [= <- <-]. exists o, [], n, l, []. simpl. rewrite app_nil_r.
      repeat split. by left.
    + destruct (entry_skip dir applied n script dbu) as [Hev Hrows]; [done..|].
      intros Hl. apply IH in Hl. rewrite Hev, Hrows.
      destruct r as [c'|err|code]; [| |done].
      * destruct Hl as (o' & -> & Hall). exists o'. rewrite <- app_assoc.
        split; [done|]. constructor; [by rewrite Hdir|done].
      * destruct Hl as (o' & pre & k & post & evs & -> & -> & Hf).
        exists o', (n :: pre), k, post, evs. simpl.
        rewrite Hev, Hrows, <- !app_assoc. done.
    + intros [= <- <-]. exists o, [], n, l, [Sent (Script (injectDefaults script))].
      simpl. repeat split. right. exists script. repeat split; [done| |done..].
      unfold decide_entry. destruct (alreadyAppliedScript applied n) as [dbu|]; [|done].
      rewrite bool_decide_false; [done|]. by apply Hno.
    + destruct (entry_update dir applied n script dbu) as [Hev Hrows]; [done..|].
      intros Hl. apply IH in Hl. rewrite Hev, Hrows.
      destruct r as [c'|err|code]; [| |done].
      * destruct Hl as (o' & -> & Hall). exists o'. rewrite <- app_assoc.
        split; [done|]. constructor; [by rewrite Hdir|done].
      * destruct Hl as (o' & pre & k & post & evs & -> & -> & Hf).
        exists o', (n :: pre), k, post, evs. simpl.
        rewrite Hev, Hrows, <- !app_assoc. done.
    + destruct (entry_insert dir applied n script) as [Hev Hrows]; [done..|].
      intros Hl. apply IH in Hl. rewrite Hev, Hrows.
      destruct r as [c'|err|code]; [| |done].
      * destruct Hl as (o' & -> & Hall). exists o'. rewrite <- app_assoc.
        split; [done|]. constructor; [by rewrite Hdir|done].
      * destruct Hl as (o' & pre & k & post & evs & -> & -> & Hf).
        exists o', (n :: pre), k, post, evs. simpl.
        rewrite Hev, Hrows, <- !app_assoc. done.
Qed.

Lemma entry_events_entry dir applied n :
  Forall entry_event (entry_events dir applied n).
Proof.
  unfold entry_events. destruct (dir !! n); [|done].
  destruct (decide_entry _ _ _); repeat constructor.
Qed.

Lemma entry_event_absent evs e :
  Forall entry_event evs → ¬ entry_event e →
  (e ∉ evs) ∧ count_occ Event_eq_dec evs e = 0.
Proof.
  intros Hall Hne.
  assert (e ∉ evs) as Hnot.
  { intros Hin. rewrite Forall_forall in Hall. by apply Hall in Hin. }
  split; [done|]. apply count_occ_not_In. by rewrite <- list_elem_of_In.
Qed.

(** The loop of a run: where it leaves the session, and what it printed. *)
Lemma loop_frame dir us db w r :
  loop run_sql dir us db = (w, r) →
  ∃ o rows evs,
    w = in_tx (ensured db) o rows (prologue ++ evs)
    ∧ Forall entry_event evs
    ∧ evs `prefix_of` flat_map (entry_events dir (snapshot db)) (updates us)
    ∧ (∀ c, r = Ret c →
         rows = foldl (entry_rows dir (snapshot db)) (snapshot db) (updates us)
         ∧ evs = flat_map (entry_events dir (snapshot db)) (updates us)
         ∧ Forall (fun n => is_Some (dir !! n)) (updates us))
    ∧ (∀ code, r ≠ Exit code).
Proof.
  unfold loop, at_begin. intros Hl. apply apply_updates_spec in Hl.
  destruct r as [c|err|code]; [| |done].
  - destruct Hl as (o & -> & Hall). eexists o, _, _. split; [done|].
    split; [|split; [done|split; [|done]]].
    + apply Forall_flat_map, Forall_forall. intros n _. apply entry_events_entry.
    + by intros c' _.
  - destruct Hl as (o & pre & k & post & evs & Hl & -> & Hf).
    eexists o, _, _. split; [done|]. split; [|split; [|done]].
    + apply Forall_app. split.
      * apply Forall_flat_map, Forall_forall. intros n _. apply entry_events_entry.
      * destruct Hf as [(_ & _ & ->)|(script & _ & _ & _ & ->)]; repeat constructor.
    + rewrite Hl, flat_map_app. apply prefix_app. simpl.
      destruct Hf as [(_ & _ & ->)|(script & Hdir & Hdec & _ & ->)].
      * apply prefix_nil.
      * unfold entry_events. rewrite Hdir.
        destruct (decide_entry _ _ _); [done|..];
          by eexists (_ :: _).
Qed.

Lemma apply_updates_app dir applied pre l : ∀ c (w : World),
  apply_updates run_sql dir applied (pre ++ l) c w =
  match apply_updates run_sql dir applied pre c w with
  | (w', Ret c') => apply_updates run_sql dir applied l c' w'
  | (w', Throw err) => (w', Throw err)
  | (w', Exit code) => (w', Exit code)
  end.
Proof.
  induction pre as [|n pre IH]; intros c w; simpl; [done|].
  rewrite !bind_eq.
  destruct (apply_update run_sql dir applied n c w) as [w1 [c1|err|code]]; [|done..].
  apply IH.
Qed.

(** The runs that end before the loop. *)
Lemma run_not_configured env db :
  ¬ configured env →
  ∃ key, JS.falsy (process_env env !! key) = true
         ∧ ∀ env', process_env env' = process_env env →
             run run_sql env' db = MkOutcome 1 [EnvVarNotSet key] db.
Proof.
  intros Hn.
  assert (Hstep : ∀ key value (k : IO ()) (w : World),
    JS.falsy value = true →
    (checkEnvVarAndQuitIfFalsy key value ;; k) w
    = (MkWorld (client w) (log w ++ [EnvVarNotSet key]), Exit 1)).
  { intros key value k w Hv. rewrite bind_eq. unfold checkEnvVarAndQuitIfFalsy.
    by rewrite Hv. }
  destruct (JS.falsy (process_env env !! "PGHOST")) eqn:H1.
  { exists "PGHOST". split; [done|]. intros env' Henv. unfold run, main.
    rewrite Henv. by rewrite Hstep. }
  destruct (JS.falsy (process_env env !! "PGPORT")) eqn:H2.
  { exists "PGPORT". split; [done|]. intros env' Henv. unfold run, main.
    rewrite Henv. rewrite bind_eq, checkEnvVar_ok by done. by rewrite Hstep. }
  destruct (JS.falsy (process_env env !! "PGDATABASE")) eqn:H3.
  { exists "PGDATABASE". split; [done|]. intros env' Henv. unfold run, main.
    rewrite Henv. do 2 rewrite bind_eq, checkEnvVar_ok by done. by rewrite Hstep. }
  destruct (JS.falsy (process_env env !! "PGUSER")) eqn:H4.
  { exists "PGUSER". split; [done|]. intros env' Henv. unfold run, main.
    rewrite Henv. do 3 rewrite bind_eq, checkEnvVar_ok by done. by rewrite Hstep. }
  destruct (JS.falsy (process_env env !! "PGPASSWORD")) eqn:H5.
  { exists "PGPASSWORD". split; [done|]. intros env' Henv. unfold run, main.
    rewrite Henv. do 4 rewrite bind_eq, checkEnvVar_ok by done. by rewrite Hstep. }
  destruct Hn. by repeat constructor.
Qed.

Lemma run_unreadable env db :
  configured env → scripts_json env = None ∨ scripts_dir env = None →
  run run_sql env db
  = MkOutcome 1
      (match scripts_dir env with
       | Some _ => []
       | None => [DoesNotExist UPDATE_SCRIPTS_LOCATION]
       end) db.
Proof.
  intros Hcfg Hnone. unfold configured in Hcfg.
  repeat match goal with
         | H : Forall _ (_ :: _) |- _ => apply Forall_cons in H as [? H]
         end.
  unfold run, main.
  repeat (rewrite bind_eq, checkEnvVar_ok by done).
  destruct (scripts_dir env), (scripts_json env); try done; naive_solver.
Qed.

Lemma run_unreachable env db us dir :
  configured env → scripts_json env = Some us → scripts_dir env = Some dir →
  reachable env = false →
  run run_sql env db = MkOutcome 1 [Connect; Failed ConnectFailed] db.
Proof.
  intros Hcfg Hjson Hdir Hreach. unfold configured in Hcfg.
  repeat match goal with
         | H : Forall _ (_ :: _) |- _ => apply Forall_cons in H as [? H]
         end.
  unfold run, main.
  repeat (rewrite bind_eq, checkEnvVar_ok by done).
  rewrite Hjson, Hdir.
  unfold run_updates, try_catch, emit, throw, exit, mbind, IO_bind, mret, IO_ret.
  simpl. by rewrite Hreach.
Qed.

(** A run that ends with exit code 0 has passed the checks and connected. *)
Lemma run_exit_0 env db :
  exit_code (run run_sql env db) = 0 →
  configured env ∧ reachable env = true
  ∧ ∃ us dir, scripts_json env = Some us ∧ scripts_dir env = Some dir.
Proof.
  intros Hexit.
  destruct (decide (configured env)) as [Hcfg|Hn].
  2: { destruct (run_not_configured env db Hn) as (key & _ & Hrun).
       by rewrite Hrun in Hexit. }
  destruct (scripts_json env) as [us|] eqn:Hjson.
  2: { rewrite run_unreadable in Hexit by auto. done. }
  destruct (scripts_dir env) as [dir|] eqn:Hdir.
  2: { rewrite run_unreadable in Hexit by auto. done. }
  destruct (reachable env) eqn:Hreach.
  2: { rewrite (run_unreachable env db us dir) in Hexit by done. done. }
  eauto 10.
Qed.

(** C6. When the change-script directory is missing the process ends with
    exit code 1 before any connection attempt and without sending a
    statement: either a connection variable is missing and that is what is
    reported, or the missing directory is reported and the read of the
    directory that follows throws. *)
Theorem missing_directory_is_fatal env db :
  scripts_dir env = None →
  let o := run run_sql env db in
  exit_code o = 1
  ∧ (Connect ∉ output o)
  ∧ (∀ q, Sent q ∉ output o)
  ∧ database o = db
  ∧ (output o = [DoesNotExist UPDATE_SCRIPTS_LOCATION]
     ∨ ∃ key, JS.falsy (process_env env !! key) = true ∧ output o = [EnvVarNotSet key])
  ∧ (configured env → output o = [DoesNotExist UPDATE_SCRIPTS_LOCATION]).
Proof.
  intros Hdir o.
  assert (Hone : ∀ e e' : Event, e ≠ e' → e ∉ [e'])
    by (intros e e' Hne Hin; apply list_elem_of_singleton in Hin; done).
  destruct (decide (configured env)) as [Hcfg|Hn]; subst o.
  - rewrite run_unreadable, Hdir by auto. simpl.
    repeat split; try (by apply Hone); try (intros q; by apply Hone); by left.
  - destruct (run_not_configured env db Hn) as (key & Hkey & Hrun).
    rewrite Hrun by done. simpl.
    repeat split; try (by apply Hone); try (intros q; by apply Hone).
    + right. by exists key.
    + done.
Qed.

(** C2. When the body of entry [k] fails, after the entries before it went
    through, the run sends ROLLBACK and never COMMIT, ends with exit code 1,
    and the database is as before the run: the objects are untouched and the
    ledger holds the rows it held (none, if the table had to be created). *)
Theorem failed_entry_rolls_back env db us dir pre k post w c w' q :
  configured env → scripts_json env = Some us → scripts_dir env = Some dir →
  reachable env = true →
  updates us = pre ++ k :: post →
  apply_updates run_sql dir (snapshot db) pre 0 (at_begin db) = (w, Ret c) →
  apply_update run_sql dir (snapshot db) k c w = (w', Throw (QueryFailed q)) →
  let o := run run_sql env db in
  exit_code o = 1
  ∧ output o = log w' ++ [Failed (QueryFailed q); Sent Rollback]
  ∧ (Sent Commit ∉ output o)
  ∧ objects (database o) = objects db
  ∧ db_updates (database o) = Some (snapshot db).
Proof.
  intros Hcfg Hjson Hdir Hreach Hsplit Hpre Hk o.
  assert (loop run_sql dir us db = (w', Throw (QueryFailed q))) as Hloop.
  { unfold loop. rewrite Hsplit, apply_updates_app, Hpre. simpl.
    by rewrite bind_eq, Hk. }
  subst o. rewrite (run_eq env db us dir), Hloop by done. simpl.
  destruct (loop_frame _ _ _ _ _ Hloop) as (o' & rows & evs & -> & Hevs & _ & _ & _).
  simpl. repeat split.
  destruct (entry_event_absent evs (Sent Commit) Hevs) as [Hnot _]; [by intros []|].
  set_solver.
Qed.


(** The events of a run that passes the checks and connects: the prologue,
    the events of the loop, and an epilogue without events of the loop. *)
Lemma output_shape env db us dir :
  configured env → scripts_json env = Some us → scripts_dir env = Some dir →
  reachable env = true →
  let o := run run_sql env db in
  ∃ evs rest,
    output o = prologue ++ evs ++ rest
    ∧ evs `prefix_of` flat_map (entry_events dir (snapshot db)) (updates us)
    ∧ (exit_code o = 0 → evs = flat_map (entry_events dir (snapshot db)) (updates us))
    ∧ Forall (fun e => ¬ entry_event e ∧ e ≠ Sent SelectUpdates) rest.
Proof.
  intros Hcfg Hjson Hdir Hreach o. subst o.
  rewrite (run_eq env db us dir) by done.
  destruct (loop run_sql dir us db) as [w r] eqn:Hloop.
  destruct (loop_frame _ _ _ _ _ Hloop)
    as (o' & rows & evs & -> & Hevs & Hpre & Hret & Hexit).
  assert (Hw : Forall (fun e => ¬ entry_event e ∧ e ≠ Sent SelectUpdates)
                 (warnings us dir)).
  { unfold warnings. apply Forall_app. split; apply Forall_forall;
      intros e (f & -> & _)%list_elem_of_fmap; (split; [by intros []|discriminate]). }
  assert (Hne : ∀ e, e ∈ [Sent Rollback; Sent Commit; NotCommitted] ∨
                    (∃ err, e = Failed err) →
                ¬ entry_event e ∧ e ≠ Sent SelectUpdates).
  { intros e [He|[err ->]]; [|by split; [intros []|]].
    repeat (apply elem_of_cons in He as [->|He]; [by split; [intros []|]|]).
    by apply not_elem_of_nil in He. }
  destruct r as [c|err|code]; [|  |by destruct (Hexit code)].
  - destruct (Hret c eq_refl) as (_ & Hall & _).
    destruct (JS.falsy (doCommit env)); simpl.
    + exists evs, (Sent Rollback :: warnings us dir ++ [NotCommitted]).
      split; [done|]. split; [done|]. split; [done|].
      constructor; [apply Hne; set_solver|].
      apply Forall_app. split; [done|]. constructor; [apply Hne; set_solver|done].
    + exists evs, (Sent Commit :: warnings us dir).
      split; [done|]. split; [done|]. split; [done|].
      constructor; [apply Hne; set_solver|done].
  - simpl. exists evs, [Failed err; Sent Rollback].
    split; [done|]. split; [done|]. split; [done|].
    constructor; [apply Hne; naive_solver|].
    constructor; [apply Hne; set_solver|done].
Qed.

(** A loop over entries that are all recorded skips every one of them. *)
Lemma apply_updates_all_skip dir applied l :
  Forall (fun n => is_Some (dir !! n) ∧ recorded dir applied n) l →
  ∀ c c0 o rows lg,
    apply_updates run_sql dir applied l c (in_tx c0 o rows lg)
    = (in_tx c0 o rows (lg ++ map Skipping l), Ret c).
Proof.
  induction 1 as [|n l [[script Hn] Hrec] _ IH]; intros c c0 o rows lg; simpl.
  - by rewrite app_nil_r.
  - destruct (Hrec script Hn) as (dbu & Hdbu & Hsha).
    rewrite bind_eq. unfold apply_update. rewrite Hn, Hdbu, bool_decide_true by done.
    rewrite bind_eq. unfold emit. simpl. fold (in_tx c0 o rows (lg ++ [Skipping n])).
    rewrite IH. by rewrite <- app_assoc.
Qed.

(** A successful run in commit mode. *)
Lemma committed_run env db us dir :
  JS.falsy (doCommit env) = false →
  scripts_json env = Some us → scripts_dir env = Some dir →
  exit_code (run run_sql env db) = 0 →
  configured env ∧ reachable env = true
  ∧ Forall (fun n => is_Some (dir !! n)) (updates us)
  ∧ ∃ o',
      run run_sql env db
      = MkOutcome 0
          (prologue ++ flat_map (entry_events dir (snapshot db)) (updates us)
             ++ Sent Commit :: warnings us dir)
          (MkDatabase o' (Some (foldl (entry_rows dir (snapshot db)) (snapshot db)
                                  (updates us)))).
Proof.
  intros Hcommit Hjson Hdir Hexit.
  destruct (run_exit_0 env db Hexit) as (Hcfg & Hreach & _).
  split; [done|]. split; [done|].
  rewrite (run_eq env db us dir) in * by done.
  destruct (loop run_sql dir us db) as [w r] eqn:Hloop.
  destruct (loop_frame _ _ _ _ _ Hloop)
    as (o' & rows & evs & -> & _ & _ & Hret & Hne).
  destruct r as [c|err|code]; [|done|by destruct (Hne code)].
  destruct (Hret c eq_refl) as (-> & -> & Hall).
  rewrite Hcommit. simpl. split; [done|]. by exists o'.
Qed.

(** C10. The rows of the ledger are fetched once, before BEGIN, and what
    the loop prints and sends for an entry is a function of those rows, of
    the directory and of the entry alone: the events of the loop are the
    events of its entries under the rows fetched before the run, all of them
    when the run succeeds and a prefix of them when an entry fails, and the
    rows a successful run commits are the effects of its entries under those
    same rows.  Two occurrences of a name are decided alike. *)
Theorem decisions_from_one_snapshot env db us dir :
  configured env → scripts_json env = Some us → scripts_dir env = Some dir →
  reachable env = true →
  let o := run run_sql env db in
  let applied := default [] (db_updates db) in
  (∃ evs rest,
     output o = [Connect; Sent ManageTable; Sent SelectUpdates; Sent Begin]
                  ++ evs ++ rest
     ∧ evs `prefix_of` flat_map (entry_events dir applied) (updates us)
     ∧ (exit_code o = 0 → evs = flat_map (entry_events dir applied) (updates us))
     ∧ Forall (fun e => ¬ entry_event e ∧ e ≠ Sent SelectUpdates) rest)
  ∧ (JS.falsy (doCommit env) = false → exit_code o = 0 →
     db_updates (database o)
     = Some (foldl (entry_rows dir applied) applied (updates us))).
Proof.
  intros Hcfg Hjson Hdir Hreach o applied. split.
  - by apply output_shape.
  - intros Hcommit Hexit. subst o.
    destruct (committed_run env db us dir) as (_ & _ & _ & o' & Hdb); [done..|].
    by rewrite Hdb.
Qed.

(** C1. After a run in commit mode that ended with exit code 0, a second
    run in commit mode on the same files sends no script body and no write
    to the ledger: it prints one "skipping" line per entry, sends only its
    four bookkeeping statements and leaves the database as it is, because
    the ledger has, for every entry, a row with its name and the hash of its
    file. *)
Theorem second_run_skips_everything env db us dir :
  JS.falsy (doCommit env) = false →
  scripts_json env = Some us → scripts_dir env = Some dir →
  let o1 := run run_sql env db in
  exit_code o1 = 0 →
  let o2 := run run_sql env (database o1) in
  exit_code o2 = 0
  ∧ output o2
    = [Connect; Sent ManageTable; Sent SelectUpdates; Sent Begin]
        ++ map Skipping (updates us)
        ++ Sent Commit :: warnings us dir
  ∧ Forall (fun e => ∀ q, e = Sent q → q ∈ [ManageTable; SelectUpdates; Begin; Commit])
      (output o2)
  ∧ database o2 = database o1
  ∧ Forall (fun n => ∃ script dbu,
                dir !! n = Some script
                ∧ alreadyAppliedScript (snapshot (database o1)) n = Some dbu
                ∧ name dbu = n ∧ sha256 dbu = SHA256.hex script)
      (updates us).
Proof.
  intros Hcommit Hjson Hdir o1 Hexit o2. subst o1 o2.
  destruct (committed_run env db us dir) as (Hcfg & Hreach & Hall & o' & Hdb);
    [done..|].
  rewrite Hdb. simpl.
  set (rows := foldl (entry_rows dir (snapshot db)) (snapshot db) (updates us)).
  assert (Hrec : Forall (fun n => is_Some (dir !! n) ∧ recorded dir rows n) (updates us)).
  { apply Forall_forall. intros n Hn. split.
    - rewrite Forall_forall in Hall. by apply Hall.
    - by apply all_recorded; [apply tracks_refl|]. }
  assert (Hrun : run run_sql env (MkDatabase o' (Some rows))
                 = MkOutcome 0
                     (prologue ++ map Skipping (updates us)
                        ++ Sent Commit :: warnings us dir)
                     (MkDatabase o' (Some rows))).
  { rewrite (run_eq env _ us dir) by done. unfold loop, at_begin, snapshot. simpl.
    unfold ensured. simpl.
    rewrite (apply_updates_all_skip dir rows (updates us) Hrec), Hcommit. simpl.
    done. }
  rewrite Hrun. simpl. repeat split.
  - assert (Hq : ∀ e, e ∈ [Connect; Sent ManageTable; Sent SelectUpdates; Sent Begin;
                            Sent Commit] →
                  ∀ q, e = Sent q → q ∈ [ManageTable; SelectUpdates; Begin; Commit]).
    { intros e He q ->. set_solver. }
    repeat (constructor; [apply Hq; set_solver|]).
    apply Forall_app. split.
    { apply Forall_forall. intros e (n & -> & _)%list_elem_of_fmap q [=]. }
    constructor; [apply Hq; set_solver|].
    unfold warnings. apply Forall_app.
    split; apply Forall_forall; intros e (f & -> & _)%list_elem_of_fmap q [=].
  - eapply Forall_impl; [exact Hrec|]. simpl. intros n [[script Hn] Hr].
    destruct (Hr script Hn) as (dbu & Hdbu & Hsha).
    exists script, dbu. repeat split; try done.
    by apply alreadyApplied_Some in Hdbu as [? _].
Qed.

Lemma entry_events_raw dir applied l n e :
  n ∈ l → e ∈ entry_events dir applied n → raw_hashed dir applied l e.
Proof.
  intros Hn. unfold entry_events.
  destruct (dir !! n) as [script|] eqn:Hdir; [|by intros ?%not_elem_of_nil].
  destruct (decide_entry applied n (SHA256.hex script)) eqn:Hdec.
  - apply decide_Skip in Hdec as (dbu & Hdbu & Hsha).
    intros ->%list_elem_of_singleton. simpl. eauto 10.
  - apply decide_Update in Hdec as (dbu & Hdbu & Hsha).
    intros [->|He]%elem_of_cons; [|apply list_elem_of_singleton in He as ->];
      simpl; eauto 10.
  - apply decide_Insert in Hdec.
    intros [->|He]%elem_of_cons; [|apply list_elem_of_singleton in He as ->];
      simpl; eauto 10.
Qed.

(** C3, as amended.  For every entry the file is read, its text is hashed
    as read, and only then is the text expanded: the hash compared with the
    ledger and stored in it is the SHA-256 of the unexpanded file, and the
    body sent is the expanded text.  After a successful run in commit mode
    the ledger holds, for every entry, the hash of its unexpanded file. *)
Theorem hash_is_of_the_raw_text env db us dir :
  configured env → scripts_json env = Some us → scripts_dir env = Some dir →
  reachable env = true →
  let o := run run_sql env db in
  Forall (raw_hashed dir (snapshot db) (updates us)) (output o)
  ∧ (JS.falsy (doCommit env) = false → exit_code o = 0 →
     Forall (fun n => ∃ script dbu,
                 dir !! n = Some script
                 ∧ alreadyAppliedScript (snapshot (database o)) n = Some dbu
                 ∧ sha256 dbu = SHA256.hex script)
       (updates us)).
Proof.
  intros Hcfg Hjson Hdir Hreach o. split.
  - destruct (output_shape env db us dir Hcfg Hjson Hdir Hreach)
      as (evs & rest & Hout & Hpre & _ & Hrest).
    fold o in Hout. rewrite Hout.
    assert (Hother : ∀ e, ¬ entry_event e → raw_hashed dir (snapshot db) (updates us) e).
    { intros e He. destruct e as [| | |q| | | | |]; simpl in *; try done;
        destruct q; simpl in *; try done. }
    apply Forall_app. split.
    { unfold prologue. repeat (constructor; [apply Hother; by intros []|]). done. }
    apply Forall_app. split.
    + apply Forall_forall. intros e He.
      destruct Hpre as [more Hpre].
      assert (e ∈ flat_map (entry_events dir (snapshot db)) (updates us)) as Hin
        by (rewrite Hpre; set_solver).
      apply list_elem_of_In, in_flat_map in Hin as (n & Hn & Hin).
      eapply entry_events_raw; by apply list_elem_of_In.
    + eapply Forall_impl; [exact Hrest|]. intros e [He _]. by apply Hother.
  - intros Hcommit Hexit. subst o.
    destruct (committed_run env db us dir) as (_ & _ & Hall & o' & Hdb);
      [done..|].
    rewrite Hdb. simpl. apply Forall_forall. intros n Hn.
    rewrite Forall_forall in Hall. destruct (Hall n Hn) as [script Hscript].
    destruct (all_recorded dir (snapshot db) (updates us) (snapshot db) n
                (tracks_refl _ _) Hn script Hscript) as (dbu & Hdbu & Hsha).
    by exists script, dbu.
Qed.

(** The rows of the ledger after a run: the rows before it, or, after a
    successful run in commit mode, the effects of the entries on them. *)
Lemma rows_after_run env db us dir :
  scripts_json env = Some us → scripts_dir env = Some dir →
  snapshot (database (run run_sql env db)) = snapshot db
  ∨ snapshot (database (run run_sql env db))
    = foldl (entry_rows dir (snapshot db)) (snapshot db) (updates us).
Proof.
  intros Hjson Hdir.
  destruct (decide (configured env)) as [Hcfg|Hn].
  2: { destruct (run_not_configured env db Hn) as (key & _ & Hrun).
       rewrite Hrun by done. by left. }
  destruct (reachable env) eqn:Hreach.
  2: { rewrite (run_unreachable env db us dir) by done. by left. }
  rewrite (run_eq env db us dir) by done.
  destruct (loop run_sql dir us db) as [w r] eqn:Hloop.
  destruct (loop_frame _ _ _ _ _ Hloop)
    as (o' & rows & evs & -> & _ & _ & Hret & Hne).
  destruct r as [c|err|code]; [|by left|by left].
  destruct (Hret c eq_refl) as (-> & _ & _).
  destruct (JS.falsy (doCommit env)); [by left|by right].
Qed.


(** The ignore list has no part in what a run does: two manifests with the
    same update list give the same exit code, the same database and the same
    events apart from the warnings. *)
Lemma ignore_is_advisory env db ignore' :
  let o := run run_sql env db in
  let o' := run run_sql (with_ignore env ignore') db in
  exit_code o' = exit_code o ∧ database o' = database o
  ∧ List.filter (fun e => negb (is_warning e)) (output o')
    = List.filter (fun e => negb (is_warning e)) (output o).
Proof.
  intros o o'. subst o o'.
  destruct (decide (configured env)) as [Hcfg|Hn].
  2: { destruct (run_not_configured env db Hn) as (key & _ & Hrun).
       by rewrite !Hrun. }
  destruct (scripts_json env) as [us|] eqn:Hjson.
  2: { rewrite !run_unreadable; simpl; try rewrite Hjson; auto. }
  destruct (scripts_dir env) as [dir|] eqn:Hdir.
  2: { rewrite !run_unreadable; simpl; try rewrite Hdir; auto. }
  destruct (reachable env) eqn:Hreach.
  2: { rewrite (run_unreachable env db us dir) by done.
       rewrite (run_unreachable (with_ignore env ignore') db
                  {| updates := updates us; ignore := ignore' |} dir);
         try done. simpl. by rewrite Hjson. }
  rewrite (run_eq env db us dir) by done.
  rewrite (run_eq (with_ignore env ignore') db
             {| updates := updates us; ignore := ignore' |} dir);
    try done; [|simpl; by rewrite Hjson].
  change (doCommit (with_ignore env ignore')) with (doCommit env).
  change (loop run_sql dir {| updates := updates us; ignore := ignore' |} db)
    with (loop run_sql dir us db).
  destruct (loop run_sql dir us db) as [w [c|err|code]]; [|done..].
  destruct (JS.falsy (doCommit env)); simpl; repeat split;
    rewrite !List.filter_app; simpl; rewrite ?List.filter_app, !warnings_are_warnings;
    done.
Qed.

(** C7. A file of the directory that is neither in the update list nor in
    the ignore list is in the list of unreferenced scripts exactly once; a
    run that reaches the end of the manifest, in dry-run mode or in commit
    mode, prints the warning for it exactly once; and the warning has no
    part in the application: with the file on the ignore list the run has
    the same exit code, the same database and the same events apart from the
    warnings. *)
Theorem orphan_warned_once env db us dir file :
  scripts_json env = Some us → scripts_dir env = Some dir →
  is_Some (dir !! file) → file ∉ updates us → file ∉ ignore us →
  let o := run run_sql env db in
  count_occ string_dec (warnNotReferencedScripts us (sort (readdirSync dir))) file = 1
  ∧ (exit_code o = 0 →
     count_occ Event_eq_dec (output o) (WarnNotReferenced file) = 1)
  ∧ (let o' := run run_sql (with_ignore env (file :: ignore us)) db in
     exit_code o' = exit_code o ∧ database o' = database o
     ∧ List.filter (fun e => negb (is_warning e)) (output o')
       = List.filter (fun e => negb (is_warning e)) (output o)).
Proof.
  intros Hjson Hdir Hfile Hupd Hign o.
  pose proof (orphan_listed_once us dir file Hfile Hupd Hign) as Hone.
  split; [done|]. split; [|apply ignore_is_advisory].
  intros Hexit. subst o.
  destruct (run_exit_0 env db Hexit) as (Hcfg & Hreach & _).
  rewrite (run_eq env db us dir) in * by done.
  destruct (loop run_sql dir us db) as [w r] eqn:Hloop.
  destruct (loop_frame _ _ _ _ _ Hloop)
    as (o' & rows & evs & -> & Hevs & _ & _ & Hne).
  destruct (entry_event_absent evs (WarnNotReferenced file) Hevs) as [_ Hnone];
    [by intros []|].
  destruct r as [c|err|code]; [|done|by destruct (Hne code)].
  destruct (JS.falsy (doCommit env)); simpl;
    rewrite count_occ_app, Hnone; simpl;
    rewrite ?count_occ_app, warnings_count, Hone; done.
Qed.

(** A run that does not reach the end of the manifest prints no warning. *)
Lemma aborted_run_prints_no_warning env db :
  exit_code (run run_sql env db) ≠ 0 →
  List.filter is_warning (output (run run_sql env db)) = [].
Proof.
  intros Hexit.
  destruct (decide (configured env)) as [Hcfg|Hn].
  2: { destruct (run_not_configured env db Hn) as (key & _ & Hrun).
       by rewrite Hrun. }
  destruct (scripts_json env) as [us|] eqn:Hjson.
  2: { rewrite run_unreadable by auto. simpl. by destruct (scripts_dir env). }
  destruct (scripts_dir env) as [dir|] eqn:Hdir.
  2: { rewrite run_unreadable by auto. simpl. by rewrite Hdir. }
  destruct (reachable env) eqn:Hreach.
  2: { by rewrite (run_unreachable env db us dir). }
  rewrite (run_eq env db us dir) in * by done.
  destruct (loop run_sql dir us db) as [w r] eqn:Hloop.
  destruct (loop_frame _ _ _ _ _ Hloop)
    as (o' & rows & evs & -> & Hevs & _ & _ & Hne).
  destruct r as [c|err|code]; [by destruct (JS.falsy (doCommit env))| |by destruct (Hne code)].
  simpl. rewrite List.filter_app. simpl. rewrite app_nil_r.
  clear -Hevs. induction Hevs as [|e evs He _ IH]; simpl; [done|].
  destruct e as [| | |q| | | | |]; try done; by destruct q.
Qed.

(** How often a warning is printed: as often as it is on the lists when the
    run reaches the end of the manifest, and never otherwise. *)
Lemma warning_count env db us dir e :
  scripts_json env = Some us → scripts_dir env = Some dir →
  is_warning e = true →
  count_occ Event_eq_dec (output (run run_sql env db)) e
  = if decide (exit_code (run run_sql env db) = 0)
    then count_occ Event_eq_dec (warnings us dir) e
    else 0.
Proof.
  intros Hjson Hdir He.
  destruct (decide (configured env)) as [Hcfg|Hn].
  2: { destruct (run_not_configured env db Hn) as (key & _ & Hrun).
       rewrite Hrun by done. simpl. by destruct e. }
  destruct (reachable env) eqn:Hreach.
  2: { rewrite (run_unreachable env db us dir) by done. simpl. by destruct e. }
  rewrite (run_eq env db us dir) by done.
  destruct (loop run_sql dir us db) as [w r] eqn:Hloop.
  destruct (loop_frame _ _ _ _ _ Hloop)
    as (o' & rows & evs & -> & Hevs & _ & _ & Hne).
  destruct (entry_event_absent evs e Hevs) as [_ Hnone].
  { destruct e as [| | |q| | | | |]; try done; by intros []. }
  destruct r as [c|err|code]; [| |by destruct (Hne code)].
  - destruct (JS.falsy (doCommit env)); simpl;
      rewrite count_occ_app, Hnone; simpl;
      rewrite ?count_occ_app; simpl; destruct e; try done; simpl; lia.
  - simpl. rewrite count_occ_app, Hnone. by destruct e.
Qed.

(** C9, as amended.  In a directory none of whose names has a line
    terminator, take a file whose name is a schema made of ASCII letters, a
    dot, an object name and [" TABLE"], the prefix [schema.object] being the
    text before the first [" TABLE"] of the name.  If no file of the
    directory has that prefix as the text before its first [" RLS"], the
    file is on the list of the second check exactly once, and a run that
    reaches the end of the manifest prints exactly one pairing warning for
    it; if some file has, the file is not on the list and no pairing warning
    for it is printed.  In every directory, a file in whose name the first
    character that is not an ASCII letter is not a dot, as with a digit or
    an underscore in the schema, is not checked: it is not on the list and
    no run prints a pairing warning for it. *)
Theorem pairing_warning env db us dir :
  scripts_json env = Some us → scripts_dir env = Some dir →
  let files := sort (readdirSync dir) in
  let o := run run_sql env db in
  (Forall one_line files →
   ∀ f schema object,
     is_Some (dir !! f) → letters schema →
     splits_at " TABLE" f (schema +:+ "." +:+ object) →
     ((∀ g, g ∈ files → ¬ splits_at " RLS" g (schema +:+ "." +:+ object)) →
      count_occ string_dec (warnTablesWithoutRLS files) f = 1
      ∧ (exit_code o = 0 → count_occ Event_eq_dec (output o) (WarnNoRLS f) = 1))
     ∧ ((∃ g, g ∈ files ∧ splits_at " RLS" g (schema +:+ "." +:+ object)) →
        count_occ string_dec (warnTablesWithoutRLS files) f = 0
        ∧ count_occ Event_eq_dec (output o) (WarnNoRLS f) = 0))
  ∧ (∀ f w c rest,
       JS.code_units f = w ++ c :: rest →
       Forall (fun a => JS.letter a = true) w →
       JS.letter c = false → c ≠ "."%char →
       count_occ string_dec (warnTablesWithoutRLS files) f = 0
       ∧ count_occ Event_eq_dec (output o) (WarnNoRLS f) = 0).
Proof.
  intros Hjson Hdir files o. split.
  - intros Hlines f schema object Hf Hschema Hsplit.
    destruct (pairing_listed dir f schema object Hlines Hf Hschema Hsplit) as [H1 H0].
    subst o files. rewrite (warning_count env db us dir (WarnNoRLS f)) by done.
    rewrite warnings_count_rls. split.
    + intros Hno. split; [by apply H1|]. intros ->. simpl. by apply H1.
    + intros Hsome. split; [by apply H0|]. rewrite H0 by done. by destruct (decide _).
  - intros f w c rest Hf Hw Hc Hdot.
    assert (Hnone : count_occ string_dec (warnTablesWithoutRLS files) f = 0).
    { unfold warnTablesWithoutRLS. apply count_occ_filter_false.
      by rewrite (test_rxTableName_other f w c rest). }
    split; [done|].
    subst o files. rewrite (warning_count env db us dir (WarnNoRLS f)) by done.
    rewrite warnings_count_rls, Hnone. by destruct (decide _).
Qed.

End EngineFacts.

(** A run without the directory: the variables are set and the manifest is
    there. *)
Lemma missing_directory_is_fatal_witness :
  let env := {| argv := ["node"; "update-db.mjs"; "--commit"];
                process_env := demo_vars;
                scripts_dir := None;
                scripts_json := Some {| updates := ["public.users TABLE.sql"]; ignore := [] |};
                reachable := true |} in
  scripts_dir env = None
  ∧ exit_code (run demo_sql env fresh) = 1
  ∧ output (run demo_sql env fresh) = [DoesNotExist "db/db-updates"].
Proof.
  intros env. split; [reflexivity|].
  destruct (missing_directory_is_fatal demo_sql env fresh eq_refl)
    as (Hexit & _ & _ & _ & _ & Hout).
  split; [exact Hexit|]. apply Hout. unfold configured, env. simpl.
  repeat constructor.
Defined.

(** The second of two entries divides by zero, in commit mode, on a fresh
    database: nothing of the first entry is left. *)
Lemma failed_entry_rolls_back_witness :
  let us := {| updates := ["public.a TABLE.sql"; "public.b TABLE.sql"]; ignore := [] |} in
  let files := [("public.a TABLE.sql", "CREATE TABLE public.a ();");
                ("public.b TABLE.sql", "SELECT 1/0;")] in
  let env := demo_env ["--commit"] files us in
  exit_code (run demo_sql env fresh) = 1
  ∧ (Sent Commit ∉ output (run demo_sql env fresh))
  ∧ objects (database (run demo_sql env fresh)) = []
  ∧ db_updates (database (run demo_sql env fresh)) = Some [].
Proof.
  intros us files env.
  edestruct (failed_entry_rolls_back demo_sql env fresh us (list_to_map files)
               ["public.a TABLE.sql"] "public.b TABLE.sql" [])
    as (Hexit & _ & Hcommit & Hobj & Hrows).
  - unfold configured. repeat constructor.
  - reflexivity.
  - reflexivity.
  - reflexivity.
  - reflexivity.
  - vm_compute. reflexivity.
  - vm_compute. reflexivity.
  - repeat split; assumption.
Defined.



(** A manifest of two scripts on a fresh database, applied twice. *)
Lemma second_run_skips_everything_witness :
  let us := {| updates := ["public.a TABLE.sql"; "public.a RLS.sql"]; ignore := [] |} in
  let files := [("public.a TABLE.sql", "CREATE TABLE public.a ();");
                ("public.a RLS.sql", "ALTER TABLE public.a ENABLE ROW LEVEL SECURITY;")] in
  let env := demo_env ["--commit"] files us in
  let o1 := run demo_sql env fresh in
  exit_code o1 = 0
  ∧ output (run demo_sql env (database o1))
    = [Connect; Sent ManageTable; Sent SelectUpdates; Sent Begin;
       Skipping "public.a TABLE.sql"; Skipping "public.a RLS.sql";
       Sent Commit]
  ∧ database (run demo_sql env (database o1)) = database o1.
Proof.
  intros us files env o1.
  assert (Hexit : exit_code o1 = 0) by (vm_compute; reflexivity).
  destruct (second_run_skips_everything demo_sql env fresh us (list_to_map files))
    as (_ & Hout & _ & Hdb & _).
  - reflexivity.
  - reflexivity.
  - reflexivity.
  - exact Hexit.
  - split; [exact Hexit|]. split; [|exact Hdb].
    fold o1 in Hout. rewrite Hout. vm_compute. reflexivity.
Defined.

(** C3 fails as stated: the hash stored for a script with a placeholder is
    the hash of the file as read, which differs from the hash of the
    expanded text that was executed. *)
Lemma hash_counterexample :
  let text := "ALTER TABLE public.t %DEFAULT_COLUMNS%;" in
  let us := {| updates := ["public.t TABLE.sql"]; ignore := [] |} in
  let env := demo_env ["--commit"] [("public.t TABLE.sql", text)] us in
  let o := run demo_sql env fresh in
  objects (database o) = [injectDefaults text]
  ∧ db_updates (database o) = Some [MkRow "public.t TABLE.sql" (SHA256.hex text)]
  ∧ SHA256.hex text ≠ SHA256.hex (injectDefaults text).
Proof. vm_compute. repeat split. discriminate. Qed.

(** The same run, for the amended statement. *)
Lemma hash_is_of_the_raw_text_witness :
  let text := "ALTER TABLE public.t %DEFAULT_COLUMNS%;" in
  let us := {| updates := ["public.t TABLE.sql"]; ignore := [] |} in
  let env := demo_env ["--commit"] [("public.t TABLE.sql", text)] us in
  let o := run demo_sql env fresh in
  Forall (raw_hashed (list_to_map [("public.t TABLE.sql", text)]) [] (updates us))
    (output o).
Proof.
  intros text us env o.
  destruct (hash_is_of_the_raw_text demo_sql env fresh us
              (list_to_map [("public.t TABLE.sql", text)])) as [Hall _].
  - unfold configured. repeat constructor.
  - reflexivity.
  - reflexivity.
  - reflexivity.
  - exact Hall.
Defined.

(** A name that occurs twice and has no row yet is inserted twice: the
    second occurrence does not see the row of the first. *)
Lemma decisions_from_one_snapshot_witness :
  let us := {| updates := ["public.a TABLE.sql"; "public.a TABLE.sql"]; ignore := [] |} in
  let files := [("public.a TABLE.sql", "CREATE TABLE IF NOT EXISTS public.a ();")] in
  let env := demo_env ["--commit"] files us in
  let sha := SHA256.hex "CREATE TABLE IF NOT EXISTS public.a ();" in
  db_updates (database (run demo_sql env fresh))
  = Some [MkRow "public.a TABLE.sql" sha; MkRow "public.a TABLE.sql" sha].
Proof.
  intros us files env sha.
  destruct (decisions_from_one_snapshot demo_sql env fresh us (list_to_map files))
    as [_ Hrows].
  - unfold configured. repeat constructor.
  - reflexivity.
  - reflexivity.
  - reflexivity.
  - rewrite Hrows; [reflexivity|reflexivity|vm_compute; reflexivity].
Defined.



(** A directory with one unreferenced script, in dry-run mode and in commit
    mode. *)
Lemma orphan_warned_once_witness :
  let us := {| updates := ["public.a TABLE.sql"]; ignore := ["public.a RLS.sql"] |} in
  let files := [("public.a TABLE.sql", "CREATE TABLE public.a ();");
                ("public.a RLS.sql", "");
                ("public.old TABLE.sql", "CREATE TABLE public.old ();")] in
  count_occ Event_eq_dec (output (run demo_sql (demo_env [] files us) fresh))
    (WarnNotReferenced "public.old TABLE.sql") = 1
  ∧ count_occ Event_eq_dec (output (run demo_sql (demo_env ["--commit"] files us) fresh))
      (WarnNotReferenced "public.old TABLE.sql") = 1.
Proof.
  intros us files.
  split.
  - destruct (orphan_warned_once demo_sql (demo_env [] files us) fresh us
                (list_to_map files) "public.old TABLE.sql") as (_ & Hone & _).
    + reflexivity.
    + reflexivity.
    + vm_compute. by eexists.
    + apply (bool_decide_unpack _). vm_compute. exact I.
    + apply (bool_decide_unpack _). vm_compute. exact I.
    + apply Hone. vm_compute. reflexivity.
  - destruct (orphan_warned_once demo_sql (demo_env ["--commit"] files us) fresh us
                (list_to_map files) "public.old TABLE.sql") as (_ & Hone & _).
    + reflexivity.
    + reflexivity.
    + vm_compute. by eexists.
    + apply (bool_decide_unpack _). vm_compute. exact I.
    + apply (bool_decide_unpack _). vm_compute. exact I.
    + apply Hone. vm_compute. reflexivity.
Defined.

(** C9 fails as stated: a table script whose schema name has an underscore
    is never checked, so it gets no pairing warning although the directory
    has no RLS script for it. *)
Lemma pairing_counterexample :
  let f := "app_private.users TABLE.sql" in
  let files := [(f, "CREATE TABLE app_private.users ();")] in
  let us := {| updates := [f]; ignore := [] |} in
  let o := run demo_sql (demo_env ["--commit"] files us) fresh in
  f = "app_private" +:+ "." +:+ "users" +:+ " TABLE" +:+ ".sql"
  ∧ sort (readdirSync (list_to_map files)) = [f]
  ∧ JS.indexOf (JS.code_units " RLS") (JS.code_units f) = None
  ∧ warnTablesWithoutRLS (sort (readdirSync (list_to_map files))) = []
  ∧ exit_code o = 0
  ∧ count_occ Event_eq_dec (output o) (WarnNoRLS f) = 0.
Proof. vm_compute. repeat split. Qed.

(** A table script without RLS script, the same with one, and a table
    script in a schema with an underscore. *)
Lemma pairing_warning_witness :
  let f := "public.orders TABLE.sql" in
  let g := "public.orders RLS policies.sql" in
  let h := "app_private.users TABLE.sql" in
  let us := {| updates := [f]; ignore := [g; h] |} in
  let alone := [(f, "CREATE TABLE public.orders ();")] in
  let paired := [(f, "CREATE TABLE public.orders ();"); (g, "");
                 (h, "CREATE TABLE app_private.users ();")] in
  count_occ Event_eq_dec
    (output (run demo_sql (demo_env ["--commit"] alone us) fresh)) (WarnNoRLS f) = 1
  ∧ count_occ Event_eq_dec
      (output (run demo_sql (demo_env ["--commit"] paired us) fresh)) (WarnNoRLS f) = 0
  ∧ count_occ Event_eq_dec
      (output (run demo_sql (demo_env ["--commit"] paired us) fresh)) (WarnNoRLS h) = 0.
Proof.
  intros f g h us alone paired.
  assert (Hsplit : splits_at " TABLE" f ("public" +:+ "." +:+ "orders")).
  { exists (JS.code_units ".sql"). vm_compute. reflexivity. }
  assert (Hletters : letters "public").
  { apply (bool_decide_unpack _). vm_compute. exact I. }
  split.
  - destruct (pairing_warning demo_sql (demo_env ["--commit"] alone us) fresh us
                (list_to_map alone)) as [Hpair _].
    + reflexivity.
    + reflexivity.
    + destruct (Hpair ltac:(apply (bool_decide_unpack _); vm_compute; exact I)
                  f "public" "orders" ltac:(vm_compute; by eexists) Hletters Hsplit)
        as [Hone _].
      apply Hone; [|vm_compute; reflexivity].
      intros k Hk [post Hpost].
      assert (k = f) as -> by (vm_compute in Hk; by apply list_elem_of_singleton in Hk).
      vm_compute in Hpost. discriminate.
  - destruct (pairing_warning demo_sql (demo_env ["--commit"] paired us) fresh us
                (list_to_map paired)) as [Hpair Hother].
    + reflexivity.
    + reflexivity.
    + split.
      * destruct (Hpair ltac:(apply (bool_decide_unpack _); vm_compute; exact I)
                    f "public" "orders" ltac:(vm_compute; by eexists) Hletters Hsplit)
          as [_ Hnone].
        apply Hnone. exists g. split.
        -- apply (bool_decide_unpack _). vm_compute. exact I.
        -- exists (JS.code_units " policies.sql"). vm_compute. reflexivity.
      * apply (Hother h (JS.code_units "app") "_"%char
                 (JS.code_units "private.users TABLE.sql")).
        -- vm_compute. reflexivity.
        -- apply (bool_decide_unpack _). vm_compute. exact I.
        -- vm_compute. reflexivity.
        -- discriminate.
Defined.

(** ** Further facts about the runs *)

Section MoreEngineFacts.

Context {Objects : Type}.
Variable run_sql : string → Objects → option Objects.

(** The loop body as a function of the file, the decision and the executor. *)
Lemma apply_update_eq dir applied n c c0 o rows lg :
  apply_update run_sql dir applied n c (in_tx c0 o rows lg)
  = match dir !! n with
    | None => (in_tx c0 o rows lg, Throw (FileNotFound n))
    | Some script =>
        match decide_entry applied n (SHA256.hex script) with
        | Skip => (in_tx c0 o rows (lg ++ [Skipping n]), Ret c)
        | _ =>
            match run_sql (injectDefaults script) o with
            | None =>
                (in_tx c0 o rows (lg ++ [Sent (Script (injectDefaults script))]),
                 Throw (QueryFailed (Script (injectDefaults script))))
            | Some o' =>
                (in_tx c0 o' (entry_rows dir applied rows n)
                   (lg ++ entry_events dir applied n), Ret (S c))
            end
        end
    end.
Proof.
  unfold apply_update, entry_rows, entry_events, decide_entry.
  destruct (dir !! n) as [script|] eqn:Hdir; [|done].
  destruct (alreadyAppliedScript applied n) as [dbu|] eqn:Hfind.
  - case_bool_decide as Hsha; [done|].
    rewrite bind_eq, pgQuery_Script.
    destruct (run_sql (injectDefaults script) o) as [o'|]; [|done].
    by rewrite bind_eq, pgQuery_UpdateRow, <- app_assoc.
  - rewrite bind_eq, pgQuery_Script.
    destruct (run_sql (injectDefaults script) o) as [o'|]; [|done].
    by rewrite bind_eq, pgQuery_InsertRow, <- app_assoc.
Qed.

Lemma executed_cons dir applied n l :
  executed dir applied (n :: l)
  = match dir !! n with
    | None => []
    | Some script =>
        match decide_entry applied n (SHA256.hex script) with
        | Skip => []
        | _ => [injectDefaults script]
        end
    end ++ executed dir applied l.
Proof. reflexivity. Qed.

(** The events and the rows of an entry that has a file, by the decision. *)
Lemma entry_of_file dir applied n script :
  dir !! n = Some script →
  entry_events dir applied n
  = match decide_entry applied n (SHA256.hex script) with
    | Skip => [Skipping n]
    | Update => [Sent (Script (injectDefaults script));
                 Sent (UpdateRow (SHA256.hex script) n)]
    | Insert => [Sent (Script (injectDefaults script));
                 Sent (InsertRow n (SHA256.hex script))]
    end
  ∧ ∀ rows,
      entry_rows dir applied rows n
      = match decide_entry applied n (SHA256.hex script) with
        | Skip => rows
        | Update => update_rows (SHA256.hex script) n rows
        | Insert => rows ++ [MkRow n (SHA256.hex script)]
        end.
Proof. intros Hdir. unfold entry_events, entry_rows. by rewrite Hdir. Qed.

(** The loop that reaches the end of the manifest: every entry has a file,
    the bodies of the new and changed entries all succeed, in order, and the
    counter has counted them. *)
Lemma apply_updates_Ret dir applied l : ∀ c c0 o rows lg w c',
  apply_updates run_sql dir applied l c (in_tx c0 o rows lg) = (w, Ret c') →
  Forall (fun n => is_Some (dir !! n)) l
  ∧ ∃ o', run_all run_sql (executed dir applied l) o = Some o'
          ∧ w = in_tx c0 o' (foldl (entry_rows dir applied) rows l)
                  (lg ++ flat_map (entry_events dir applied) l)
          ∧ c' = c + length (executed dir applied l).
Proof.
  induction l as [|n l IH]; intros c c0 o rows lg w c'.
  - simpl. intros [= <- <-]. split; [done|]. exists o.
    by rewrite app_nil_r, Nat.add_0_r.
  - cbn [apply_updates foldl flat_map]. rewrite bind_eq, apply_update_eq, executed_cons.
    destruct (dir !! n) as [script|] eqn:Hdir; [|done].
    destruct (entry_of_file dir applied n script Hdir) as [Hev Hrows].
    rewrite Hev, Hrows.
    destruct (decide_entry applied n (SHA256.hex script)) eqn:Hdec.
    + intros (Hall & o' & Hrun & -> & ->)%IH. split; [constructor; [by eexists|done]|].
      exists o'. simpl. by rewrite <- app_assoc.
    + destruct (run_sql (injectDefaults script) o) as [o1|] eqn:Hrun; [|done].
      intros (Hall & o' & Hrun' & -> & ->)%IH. split; [constructor; [by eexists|done]|].
      exists o'. simpl. rewrite Hrun. simpl. rewrite <- app_assoc.
      repeat split; [done|]. lia.
    + destruct (run_sql (injectDefaults script) o) as [o1|] eqn:Hrun; [|done].
      intros (Hall & o' & Hrun' & -> & ->)%IH. split; [constructor; [by eexists|done]|].
      exists o'. simpl. rewrite Hrun. simpl. rewrite <- app_assoc.
      repeat split; [done|]. lia.
Qed.

Lemma apply_updates_run_all dir applied l : ∀ c c0 o rows lg o',
  Forall (fun n => is_Some (dir !! n)) l →
  run_all run_sql (executed dir applied l) o = Some o' →
  apply_updates run_sql dir applied l c (in_tx c0 o rows lg)
  = (in_tx c0 o' (foldl (entry_rows dir applied) rows l)
       (lg ++ flat_map (entry_events dir applied) l),
     Ret (c + length (executed dir applied l))).
Proof.
  induction l as [|n l IH]; intros c c0 o rows lg o' Hall.
  - simpl. intros [= <-]. by rewrite app_nil_r, Nat.add_0_r.
  - apply Forall_cons in Hall as [[script Hdir] Hall].
    cbn [apply_updates foldl flat_map].
    rewrite bind_eq, apply_update_eq, executed_cons, Hdir.
    destruct (entry_of_file dir applied n script Hdir) as [Hev Hrows].
    rewrite Hev, Hrows.
    destruct (decide_entry applied n (SHA256.hex script)) eqn:Hdec; simpl.
    + intros Hrun. rewrite (IH _ _ _ _ _ o') by done. by rewrite <- app_assoc.
    + destruct (run_sql (injectDefaults script) o) as [o1|] eqn:Hrun; [|done]. simpl.
      intros Hrun'. rewrite (IH _ _ _ _ _ o') by done. rewrite <- app_assoc.
      do 2 f_equal. lia.
    + destruct (run_sql (injectDefaults script) o) as [o1|] eqn:Hrun; [|done]. simpl.
      intros Hrun'. rewrite (IH _ _ _ _ _ o') by done. rewrite <- app_assoc.
      do 2 f_equal. lia.
Qed.

(** A run ends before the transaction, with exit code 1 and the database as
    it was, or it passes the checks and connects. *)
Lemma run_view env db :
  (∃ evs,
     (∀ env', process_env env' = process_env env →
              scripts_dir env' = scripts_dir env →
              scripts_json env' = scripts_json env →
              reachable env' = reachable env →
              run run_sql env' db = MkOutcome 1 evs db)
     ∧ ((∃ key, evs = [EnvVarNotSet key]) ∨ evs = []
        ∨ evs = [DoesNotExist UPDATE_SCRIPTS_LOCATION]
        ∨ evs = [Connect; Failed ConnectFailed]))
  ∨ (∃ us dir,
       configured env ∧ scripts_json env = Some us ∧ scripts_dir env = Some dir
       ∧ reachable env = true).
Proof.
  destruct (decide (configured env)) as [Hcfg|Hn].
  2: { destruct (run_not_configured run_sql env db Hn) as (key & _ & Hrun).
       left. exists [EnvVarNotSet key]. split; [|left; by exists key].
       intros env' Hp _ _ _. by apply Hrun. }
  destruct (scripts_json env) as [us|] eqn:Hjson; cycle 1.
  { left. eexists. split.
    - intros env' Hp Hd Hj Hr. rewrite (run_unreadable run_sql env' db).
      + rewrite Hd. reflexivity.
      + unfold configured in *. by rewrite Hp.
      + left. by rewrite Hj.
    - destruct (scripts_dir env); auto. }
  destruct (scripts_dir env) as [dir|] eqn:Hdir; cycle 1.
  { left. eexists. split.
    - intros env' Hp Hd Hj Hr. rewrite (run_unreadable run_sql env' db).
      + rewrite Hd. reflexivity.
      + unfold configured in *. by rewrite Hp.
      + right. by rewrite Hd.
    - auto. }
  destruct (reachable env) eqn:Hreach; cycle 1.
  { left. eexists. split; [|by repeat right].
    intros env' Hp Hd Hj Hr. apply (run_unreachable run_sql env' db us dir).
    - unfold configured in *. by rewrite Hp.
    - by rewrite Hj.
    - by rewrite Hd.
    - by rewrite Hr. }
  right. by exists us, dir.
Qed.

(** The run that passes the checks and connects, from the loop. *)
Lemma run_connected env db us dir :
  configured env → scripts_json env = Some us → scripts_dir env = Some dir →
  reachable env = true →
  let l := updates us in
  let applied := snapshot db in
  (∃ o',
     Forall (fun n => is_Some (dir !! n)) l
     ∧ run_all run_sql (executed dir applied l) (objects db) = Some o'
     ∧ run run_sql env db
       = if JS.falsy (doCommit env)
         then MkOutcome 0
                (prologue ++ flat_map (entry_events dir applied) l
                   ++ [Sent Rollback] ++ warnings us dir ++ [NotCommitted])
                (ensured db)
         else MkOutcome 0
                (prologue ++ flat_map (entry_events dir applied) l
                   ++ [Sent Commit] ++ warnings us dir)
                (MkDatabase o' (Some (foldl (entry_rows dir applied) applied l))))
  ∨ (∃ pre k post evs err,
       l = pre ++ k :: post
       ∧ failure dir applied k err evs
       ∧ run run_sql env db
         = MkOutcome 1
             (prologue ++ flat_map (entry_events dir applied) pre ++ evs
                ++ [Failed err; Sent Rollback])
             (ensured db)).
Proof.
  intros Hcfg Hjson Hdir Hreach l applied.
  rewrite (run_eq run_sql env db us dir) by done.
  destruct (loop run_sql dir us db) as [w r] eqn:Hloop. unfold loop, at_begin in Hloop.
  destruct r as [c|err|code].
  - apply apply_updates_Ret in Hloop as (Hall & o' & Hrun & -> & ->).
    left. exists o'. repeat split; [done..|].
    destruct (JS.falsy (doCommit env)); simpl; by rewrite <- ?app_assoc.
  - apply apply_updates_spec in Hloop
      as (o' & pre & k & post & evs & Hl & -> & Hf).
    right. exists pre, k, post, evs, err. repeat split; [done..|].
    simpl. by rewrite <- ?app_assoc.
  - by apply apply_updates_spec in Hloop.
Qed.

Lemma count_loop_events dir applied l e :
  ¬ entry_event e →
  count_occ Event_eq_dec (flat_map (entry_events dir applied) l) e = 0.
Proof.
  intros He. apply (entry_event_absent _ e); [|done].
  apply Forall_flat_map, Forall_forall. intros n _. apply entry_events_entry.
Qed.

Lemma count_warnings us dir e :
  is_warning e = false → count_occ Event_eq_dec (warnings us dir) e = 0.
Proof.
  intros He. apply count_occ_not_In. unfold warnings.
  rewrite in_app_iff, !in_map_iff. intros [(f & <- & _)|(f & <- & _)]; done.
Qed.

Lemma count_failure dir applied k err evs e :
  failure dir applied k err evs → (∀ body, e ≠ Sent (Script body)) →
  count_occ Event_eq_dec evs e = 0.
Proof.
  intros [(_ & _ & ->)|(script & _ & _ & _ & ->)] He; [done|].
  apply count_occ_not_In. intros [<-|[]]. by destruct (He (injectDefaults script)).
Qed.

(** X1.  The exit code is 0 or 1.  It is 0 exactly when the five variables are
    set, the manifest and the directory can be read, the server can be
    reached, every entry of the manifest has a file and the bodies of the
    new and changed entries, executed in the order of the manifest, all
    succeed: the command line plays no part in it. *)
Theorem exit_code_meaning env db :
  let o := run run_sql env db in
  (exit_code o = 0 ∨ exit_code o = 1)
  ∧ (exit_code o = 0 ↔
     configured env ∧ reachable env = true
     ∧ ∃ us dir,
         scripts_json env = Some us ∧ scripts_dir env = Some dir
         ∧ Forall (fun n => is_Some (dir !! n)) (updates us)
         ∧ is_Some (run_all run_sql (executed dir (snapshot db) (updates us))
                      (objects db))).
Proof.
  intros o. subst o. split.
  - destruct (run_view env db) as [(evs & Hrun & _)|(us & dir & Hcfg & Hjson & Hdir & Hreach)].
    + rewrite Hrun by done. by right.
    + destruct (run_connected env db us dir Hcfg Hjson Hdir Hreach)
        as [(o' & _ & _ & ->)|(pre & k & post & evs & err & _ & _ & ->)];
        [|by right].
      left. by destruct (JS.falsy (doCommit env)).
  - split.
    + intros Hexit.
      destruct (run_exit_0 run_sql env db Hexit) as (Hcfg & Hreach & us & dir & Hjson & Hdir).
      split; [done|]. split; [done|]. exists us, dir. split; [done|]. split; [done|].
      rewrite (run_eq run_sql env db us dir) in Hexit by done.
      destruct (loop run_sql dir us db) as [w r] eqn:Hloop.
      unfold loop, at_begin in Hloop. destruct r as [c|err|code].
      * apply apply_updates_Ret in Hloop as (Hall & o' & Hrun & _). split; [done|].
        by exists o'.
      * done.
      * by apply apply_updates_spec in Hloop.
    + intros (Hcfg & Hreach & us & dir & Hjson & Hdir & Hall & o' & Hrun).
      rewrite (run_eq run_sql env db us dir) by done. unfold loop, at_begin.
      rewrite (apply_updates_run_all dir (snapshot db) (updates us) _ _ _ _ _ o')
        by done.
      by destruct (JS.falsy (doCommit env)).
Qed.

(** X2.  A dry run predicts the commit run.  With other command-line
    arguments the run on the same database ends with the same exit code and
    prints and sends the same, up to the events that tell how the transaction
    ended (COMMIT or ROLLBACK, and the notice of a dry run that nothing was
    committed). *)
Theorem dry_run_predicts_commit env db args :
  let o := run run_sql env db in
  let o' := run run_sql (with_argv env args) db in
  exit_code o' = exit_code o
  ∧ List.filter (fun e => negb (is_ending e)) (output o')
    = List.filter (fun e => negb (is_ending e)) (output o).
Proof.
  intros o o'. subst o o'.
  destruct (run_view env db) as [(evs & Hrun & _)|(us & dir & Hcfg & Hjson & Hdir & Hreach)].
  - rewrite (Hrun env) by done. by rewrite (Hrun (with_argv env args)).
  - rewrite (run_eq run_sql env db us dir) by done.
    rewrite (run_eq run_sql (with_argv env args) db us dir) by done.
    destruct (loop run_sql dir us db) as [w [c|err|code]]; [|done..].
    assert (Hw : List.filter (fun e => negb (is_ending e)) (warnings us dir)
                 = warnings us dir).
    { unfold warnings. rewrite List.filter_app. f_equal.
      - induction (warnNotReferencedScripts _ _) as [|f l IH]; simpl; by f_equal.
      - induction (warnTablesWithoutRLS _) as [|f l IH]; simpl; by f_equal. }
    destruct (JS.falsy (doCommit env)), (JS.falsy (doCommit (with_argv env args)));
      simpl; (split; [done|]);
      rewrite !List.filter_app; simpl; rewrite ?List.filter_app, ?Hw; simpl;
      by rewrite ?app_nil_r.
Qed.

(** X3.  The transaction is opened at most once and always closed.  In every
    run the number of COMMITs and ROLLBACKs sent together is the number of
    BEGINs sent, which is at most one; a COMMIT is sent exactly by the runs
    in commit mode that end with exit code 0. *)
Theorem transaction_is_closed env db :
  let o := run run_sql env db in
  let sent q := count_occ Event_eq_dec (output o) (Sent q) in
  (sent Begin ≤ 1)%nat
  ∧ sent Commit + sent Rollback = sent Begin
  ∧ (sent Commit = 1 ↔ exit_code o = 0 ∧ JS.falsy (doCommit env) = false).
Proof.
  intros o sent. subst o sent.
  destruct (run_view env db) as [(evs & Hrun & Hevs)|(us & dir & Hcfg & Hjson & Hdir & Hreach)].
  - rewrite Hrun by done. simpl.
    destruct Hevs as [(key & ->)|[->|[->| ->]]]; simpl; repeat split; try lia;
      by intros [? _].
  - assert (Hl : ∀ l q, match q with Script _ | UpdateRow _ _ | InsertRow _ _ => False
                        | _ => True end →
              count_occ Event_eq_dec
                (flat_map (entry_events dir (snapshot db)) l) (Sent q) = 0).
    { intros l q Hq. apply count_loop_events. destruct q; simpl in *; tauto. }
    assert (Hw : ∀ q, count_occ Event_eq_dec (warnings us dir) (Sent q) = 0).
    { intros q. by apply count_warnings. }
    destruct (run_connected env db us dir Hcfg Hjson Hdir Hreach)
      as [(o' & _ & _ & ->)|(pre & k & post & evs & err & _ & Hf & ->)].
    + destruct (JS.falsy (doCommit env)); simpl;
        rewrite !count_occ_app, !Hl by done; simpl;
        rewrite ?count_occ_app, !Hw; simpl; repeat split; try lia; try done;
        by intros [_ ?].
    + simpl. rewrite !count_occ_app, !Hl by done.
      rewrite !(count_failure _ _ _ _ _ _ Hf) by done. simpl.
      repeat split; try lia; by intros [? _].
Qed.

Lemma scripts_of_loop dir applied l :
  List.filter is_script (flat_map (entry_events dir applied) l)
  = map (fun body => Sent (Script body)) (executed dir applied l).
Proof.
  induction l as [|n l IH]; [done|].
  cbn [flat_map]. rewrite List.filter_app, IH, executed_cons, map_app. f_equal.
  unfold entry_events. destruct (dir !! n) as [script|]; [|done].
  by destruct (decide_entry applied n (SHA256.hex script)).
Qed.

Lemma skips_of_loop dir applied l :
  Forall (fun n => is_Some (dir !! n)) l →
  length (List.filter is_skipping (flat_map (entry_events dir applied) l))
  + length (executed dir applied l) = length l.
Proof.
  induction 1 as [|n l [script Hn] _ IH]; [done|].
  cbn [flat_map]. rewrite List.filter_app, executed_cons, !length_app, Hn.
  destruct (entry_of_file dir applied n script Hn) as [-> _].
  destruct (decide_entry applied n (SHA256.hex script)); simpl; lia.
Qed.

Lemma filter_warnings (P : Event → bool) us dir :
  (∀ e, is_warning e = true → P e = false) → List.filter P (warnings us dir) = [].
Proof.
  intros HP. unfold warnings. rewrite List.filter_app.
  assert (∀ (E : string → Event) l,
            (∀ f, is_warning (E f) = true) → List.filter P (map E l) = []) as Hmap.
  { intros E l HE. induction l as [|f l IH]; [done|]. simpl.
    by rewrite (HP (E f)) by done. }
  by rewrite !Hmap.
Qed.

(** X4.  What a successful commit run executes.  The bodies sent are the
    expanded texts of the new and changed entries, in the order of the
    manifest; their number and the number of entries announced as skipped
    add up to the number of entries of the manifest; and the objects
    committed are what these bodies, executed in that order, make of the
    objects before the run.  The run prints nothing after the warnings: its
    last event is the last warning or, without warnings, COMMIT, and the
    number of updates applied is not shown. *)
Theorem committed_bodies env db us dir :
  JS.falsy (doCommit env) = false →
  scripts_json env = Some us → scripts_dir env = Some dir →
  let o := run run_sql env db in
  exit_code o = 0 →
  let bodies := executed dir (snapshot db) (updates us) in
  List.filter is_script (output o) = map (fun body => Sent (Script body)) bodies
  ∧ length (List.filter is_skipping (output o)) + length bodies = length (updates us)
  ∧ run_all run_sql bodies (objects db) = Some (objects (database o))
  ∧ last (output o) = last (Sent Commit :: warnings us dir).
Proof.
  intros Hcommit Hjson Hdir o Hexit bodies. subst o bodies.
  destruct (run_exit_0 run_sql env db Hexit) as (Hcfg & Hreach & us' & dir' & Hj & Hd).
  assert (us' = us) as -> by congruence. assert (dir' = dir) as -> by congruence.
  destruct (run_connected env db us dir Hcfg Hjson Hdir Hreach)
    as [(o' & Hall & Hrun & Heq)|(pre & k & post & evs & err & _ & _ & Heq)];
    rewrite Heq in *; [|done].
  rewrite Hcommit. cbn [output database objects]. repeat split.
  - rewrite !List.filter_app, scripts_of_loop.
    rewrite (filter_warnings is_script) by (by intros []).
    change (List.filter is_script prologue) with (@nil Event). simpl.
    by rewrite app_nil_r.
  - rewrite !List.filter_app, !length_app.
    rewrite (filter_warnings is_skipping) by (by intros []).
    change (List.filter is_skipping prologue) with (@nil Event). simpl.
    rewrite Nat.add_0_r. by apply skips_of_loop.
  - done.
  - rewrite !app_assoc, <- (app_assoc _ [Sent Commit]).
    change ([Sent Commit] ++ warnings us dir) with (Sent Commit :: warnings us dir).
    apply last_app_cons.
Qed.

Lemma loop_ensured dir us db :
  loop run_sql dir us (ensured db) = loop run_sql dir us db.
Proof. done. Qed.

(** X5.  A run that does not commit leaves no trace.  After a dry run, or a
    run that ended with another exit code than 0, a run with any command
    line behaves on the database left behind as it does on the database
    before. *)
Theorem uncommitted_run_leaves_no_trace env db args :
  let o := run run_sql env db in
  exit_code o ≠ 0 ∨ JS.falsy (doCommit env) = true →
  run run_sql (with_argv env args) (database o) = run run_sql (with_argv env args) db.
Proof.
  intros o Hnot. subst o.
  destruct (run_view env db) as [(evs & Hrun & _)|(us & dir & Hcfg & Hjson & Hdir & Hreach)].
  - by rewrite (Hrun env).
  - assert (database (run run_sql env db) = ensured db) as ->.
    { destruct (run_connected env db us dir Hcfg Hjson Hdir Hreach)
        as [(o' & _ & _ & Heq)|(pre & k & post & evs & err & _ & _ & Heq)];
        rewrite Heq in *; [|done].
      destruct (JS.falsy (doCommit env)); [done|]. by destruct Hnot. }
    rewrite !(run_eq run_sql (with_argv env args) _ us dir) by done.
    by rewrite loop_ensured.
Qed.

(** X6.  The rows of the ledger are kept.  Whatever the run, no row is
    deleted and none gets another name: the names of the rows after the run
    are, up to the order of the rows, the names before it together with
    names of the manifest that had no row; and the rows of a name that is
    not in the manifest are what they were. *)
Theorem ledger_rows_are_kept env db us dir :
  scripts_json env = Some us → scripts_dir env = Some dir →
  let o := run run_sql env db in
  (∃ new,
     name <$> snapshot (database o) ≡ₚ (name <$> snapshot db) ++ new
     ∧ ∀ n, n ∈ new → n ∈ updates us ∧ n ∉ name <$> snapshot db)
  ∧ ∀ n, n ∉ updates us → records n (snapshot (database o)) = records n (snapshot db).
Proof.
  intros Hjson Hdir o. subst o.
  destruct (rows_after_run run_sql env db us dir Hjson Hdir) as [-> | ->].
  - split; [|done]. exists []. rewrite app_nil_r. split; [done|]. by intros n ?%elem_of_nil.
  - split.
    + exists (inserted dir (snapshot db) (updates us)). split; [apply names_foldl|].
      intros n (Hn & _ & Hnone)%inserted_spec. split; [done|].
      by apply alreadyApplied_None.
    + intros n Hn. by apply records_foldl_other.
Qed.

(** X7.  An entry without file.  When the entries before it have their files
    and their bodies succeed, the run sends what these entries ask for,
    reports the missing file when the loop reaches the entry, sends ROLLBACK
    and ends with exit code 1, in either mode; nothing of the later entries
    is sent and the database is as after the creation of the ledger table. *)
Theorem missing_file_aborts env db us dir pre n post o1 :
  configured env → scripts_json env = Some us → scripts_dir env = Some dir →
  reachable env = true →
  updates us = pre ++ n :: post →
  Forall (fun m => is_Some (dir !! m)) pre →
  run_all run_sql (executed dir (snapshot db) pre) (objects db) = Some o1 →
  dir !! n = None →
  run run_sql env db
  = MkOutcome 1
      (prologue ++ flat_map (entry_events dir (snapshot db)) pre
         ++ [Failed (FileNotFound n); Sent Rollback])
      (ensured db).
Proof.
  intros Hcfg Hjson Hdir Hreach Hl Hpre Hrun Hn.
  rewrite (run_eq run_sql env db us dir) by done. unfold loop, at_begin.
  rewrite Hl, apply_updates_app.
  rewrite (apply_updates_run_all dir (snapshot db) pre _ _ _ _ _ o1) by done.
  cbn [apply_updates]. rewrite bind_eq, apply_update_eq, Hn. simpl.
  by rewrite <- ?app_assoc.
Qed.

(** X8.  The connection variables are checked in the order PGHOST, PGPORT,
    PGDATABASE, PGUSER, PGPASSWORD, and the first one that is not set, or
    set to the empty text, ends the run: its name is the only thing printed,
    the exit code is 1 and the database is not touched, whatever the files
    and the command line. *)
Theorem first_unset_variable env db pre key post :
  connection_variables = pre ++ key :: post →
  Forall (fun k => JS.falsy (process_env env !! k) = false) pre →
  JS.falsy (process_env env !! key) = true →
  run run_sql env db = MkOutcome 1 [EnvVarNotSet key] db.
Proof.
  unfold connection_variables. intros Heq Hpre Hkey.
  assert (Hstep : ∀ key value (k : IO ()) (w : @World Objects),
    JS.falsy value = true →
    (checkEnvVarAndQuitIfFalsy key value ;; k) w
    = (MkWorld (client w) (log w ++ [EnvVarNotSet key]), Exit 1)).
  { intros key' value k w Hv. rewrite bind_eq. unfold checkEnvVarAndQuitIfFalsy.
    by rewrite Hv. }
  unfold run, main.
  destruct pre as [|k1 pre]; simpl in Heq.
  { injection Heq as <- _. by rewrite Hstep. }
  injection Heq as <- Heq. apply Forall_cons in Hpre as [H1 Hpre].
  rewrite bind_eq, checkEnvVar_ok by done.
  destruct pre as [|k2 pre]; simpl in Heq.
  { injection Heq as <- _. by rewrite Hstep. }
  injection Heq as <- Heq. apply Forall_cons in Hpre as [H2 Hpre].
  rewrite bind_eq, checkEnvVar_ok by done.
  destruct pre as [|k3 pre]; simpl in Heq.
  { injection Heq as <- _. by rewrite Hstep. }
  injection Heq as <- Heq. apply Forall_cons in Hpre as [H3 Hpre].
  rewrite bind_eq, checkEnvVar_ok by done.
  destruct pre as [|k4 pre]; simpl in Heq.
  { injection Heq as <- _. by rewrite Hstep. }
  injection Heq as <- Heq. apply Forall_cons in Hpre as [H4 Hpre].
  rewrite bind_eq, checkEnvVar_ok by done.
  destruct pre as [|k5 pre]; simpl in Heq.
  { injection Heq as <- _. by rewrite Hstep. }
  injection Heq as _ Heq. by destruct pre.
Qed.

(** X9.  Without manifest or without connection nothing is sent.  When
    [db/db-updates.json] cannot be read or parsed, or the server cannot be
    reached, the run ends with exit code 1, sends no statement -- the ledger
    table is not created -- prints no warning and leaves the database as it
    was. *)
Theorem nothing_sent_without_connection env db :
  scripts_json env = None ∨ reachable env = false →
  let o := run run_sql env db in
  exit_code o = 1
  ∧ (∀ q, Sent q ∉ output o)
  ∧ List.filter is_warning (output o) = []
  ∧ database o = db.
Proof.
  intros Hnot o. subst o.
  destruct (run_view env db) as [(evs & Hrun & Hevs)|(us & dir & Hcfg & Hjson & Hdir & Hreach)].
  - rewrite Hrun by done. simpl. repeat split.
    + intros q Hq. destruct Hevs as [(key & ->)|[->|[->| ->]]];
        repeat (apply elem_of_cons in Hq as [Hq|Hq]; [done|]); by apply elem_of_nil in Hq.
    + by destruct Hevs as [(key & ->)|[->|[->| ->]]].
  - destruct Hnot; congruence.
Qed.

Lemma falsy_find l file :
  file ≠ "" →
  JS.falsy (JS.find (fun item => bool_decide (item = file)) l) = true ↔ file ∉ l.
Proof.
  intros Hne. split.
  - intros Hf Hin.
    destruct (find_some_any (fun item => bool_decide (item = file)) l file Hin)
      as (y & Hy & _ & ->%bool_decide_eq_true); [by apply bool_decide_eq_true|].
    rewrite Hy in Hf. simpl in Hf. by destruct (decide (file = "")).
  - intros Hnot. by rewrite find_absent.
Qed.

Lemma orphan_iff us files file :
  file ≠ "" →
  In file (warnNotReferencedScripts us files)
  ↔ In file files ∧ (file ∉ updates us) ∧ (file ∉ ignore us).
Proof.
  intros Hne. unfold warnNotReferencedScripts.
  rewrite filter_In, andb_true_iff, !falsy_find by done. tauto.
Qed.

(** X10.  When the not-referenced warning is printed.  For a file name other
    than the empty text, the run prints the warning exactly when it reaches
    the end of the manifest (exit code 0), the directory has the file and
    neither list of the manifest has its name: a file on the update list or
    on the ignore list is never warned about, nor is a name that is no file. *)
Theorem not_referenced_warning_iff env db us dir file :
  scripts_json env = Some us → scripts_dir env = Some dir →
  file ≠ "" →
  let o := run run_sql env db in
  WarnNotReferenced file ∈ output o
  ↔ exit_code o = 0 ∧ is_Some (dir !! file)
    ∧ (file ∉ updates us) ∧ (file ∉ ignore us).
Proof.
  intros Hjson Hdir Hne o. subst o.
  rewrite list_elem_of_In, (count_occ_In Event_eq_dec).
  rewrite (warning_count run_sql env db us dir) by done.
  rewrite warnings_count, <- readdirSync_elem, list_elem_of_In.
  destruct (decide (exit_code (run run_sql env db) = 0)) as [->|Hexit].
  - rewrite <- (count_occ_In string_dec), orphan_iff by done. tauto.
  - split; [lia|]. by intros [? _].
Qed.

Lemma StronglySorted_filter {A} (R : relation A) (P : A → bool) l :
  StronglySorted R l → StronglySorted R (List.filter P l).
Proof.
  induction 1 as [|x l _ IH Hx]; simpl; [constructor|].
  destruct (P x); [|done]. constructor; [done|].
  rewrite Forall_forall in *. intros y Hy%list_elem_of_In%filter_In.
  apply Hx. apply list_elem_of_In. tauto.
Qed.

Lemma NoDup_filter_bool {A} (P : A → bool) (l : list A) :
  NoDup l → NoDup (List.filter P l).
Proof. rewrite !NoDup_ListNoDup. apply List.NoDup_filter. Qed.

Lemma filter_loop (P : Event → bool) dir applied l :
  (∀ e, entry_event e → P e = false) →
  List.filter P (flat_map (entry_events dir applied) l) = [].
Proof.
  intros HP. induction l as [|n l IH]; [done|].
  cbn [flat_map]. rewrite List.filter_app, IH, app_nil_r.
  pose proof (entry_events_entry dir applied n) as Hall.
  induction Hall as [|e evs He _ IHe]; [done|]. simpl. by rewrite (HP e He).
Qed.

(** X11.  The warnings of a run that reaches the end of the manifest.  They
    are printed right after the ROLLBACK of a dry run, which prints the
    notice that nothing was committed after them, and right after the COMMIT
    of a commit run, which prints nothing after them; first come the files
    that are not referenced and then the tables without RLS script, each
    group in ascending order of the file names and without repetition. *)
Theorem warnings_in_order env db us dir :
  scripts_json env = Some us → scripts_dir env = Some dir →
  let o := run run_sql env db in
  exit_code o = 0 →
  let files := sort (readdirSync dir) in
  let wn := warnNotReferencedScripts us files in
  let wr := warnTablesWithoutRLS files in
  List.filter is_warning (output o) = map WarnNotReferenced wn ++ map WarnNoRLS wr
  ∧ (∃ a,
       last a = Some (Sent (if JS.falsy (doCommit env) then Rollback else Commit))
       ∧ output o
         = a ++ map WarnNotReferenced wn ++ map WarnNoRLS wr
             ++ (if JS.falsy (doCommit env) then [NotCommitted] else []))
  ∧ StronglySorted String.le wn ∧ NoDup wn
  ∧ StronglySorted String.le wr ∧ NoDup wr.
Proof.
  intros Hjson Hdir o Hexit files wn wr. subst o.
  assert (Hsorted : StronglySorted String.le files ∧ NoDup files).
  { split; [apply StronglySorted_merge_sort; apply _|apply readdirSync_NoDup]. }
  destruct Hsorted as [Hs Hn].
  split; [|split;
    [|by repeat split; try apply StronglySorted_filter; try apply NoDup_filter_bool]].
  - destruct (run_exit_0 run_sql env db Hexit) as (Hcfg & Hreach & us' & dir' & Hj & Hd).
    assert (us' = us) as -> by congruence. assert (dir' = dir) as -> by congruence.
    destruct (run_connected env db us dir Hcfg Hjson Hdir Hreach)
      as [(o' & _ & _ & Heq)|(pre & k & post & evs & err & _ & _ & Heq)];
      rewrite Heq in *; [|done].
    assert (Hw : List.filter is_warning (warnings us dir) = warnings us dir).
    { unfold warnings. rewrite List.filter_app. f_equal.
      - induction (warnNotReferencedScripts _ _) as [|f l IH]; simpl; by f_equal.
      - induction (warnTablesWithoutRLS _) as [|f l IH]; simpl; by f_equal. }
    destruct (JS.falsy (doCommit env)); cbn [output];
      rewrite !List.filter_app, (filter_loop is_warning), Hw
        by (by intros [| | |[]| | | | |]);
      simpl; by rewrite ?app_nil_r.
  - destruct (run_exit_0 run_sql env db Hexit) as (Hcfg & Hreach & us' & dir' & Hj & Hd).
    assert (us' = us) as -> by congruence. assert (dir' = dir) as -> by congruence.
    destruct (run_connected env db us dir Hcfg Hjson Hdir Hreach)
      as [(o' & _ & _ & Heq)|(pre & k & post & evs & err & _ & _ & Heq)];
      rewrite Heq in *; [|done].
    destruct (JS.falsy (doCommit env)); cbn [output].
    + exists (prologue ++ flat_map (entry_events dir (snapshot db)) (updates us)
                ++ [Sent Rollback]).
      split; [rewrite !app_assoc; apply last_snoc|].
      unfold warnings. by rewrite <- !app_assoc.
    + exists (prologue ++ flat_map (entry_events dir (snapshot db)) (updates us)
                ++ [Sent Commit]).
      split; [rewrite !app_assoc; apply last_snoc|].
      unfold warnings. by rewrite <- !app_assoc, app_nil_r.
Qed.

(** X12.  Which files the pairing check looks at.  A pairing warning is only
    ever printed for a file of the directory whose name starts with ASCII
    letters (possibly none), a dot and a text without line terminator in
    front of [" TABLE"], and only by a run that reaches the end of the
    manifest; any other file gets none, with or without RLS script. *)
Theorem rls_warning_only_for_tables env db us dir f :
  scripts_json env = Some us → scripts_dir env = Some dir →
  let o := run run_sql env db in
  WarnNoRLS f ∈ output o →
  exit_code o = 0 ∧ is_Some (dir !! f) ∧ table_script_name f.
Proof.
  intros Hjson Hdir o. subst o.
  rewrite list_elem_of_In, (count_occ_In Event_eq_dec).
  rewrite (warning_count run_sql env db us dir) by done.
  destruct (decide (exit_code (run run_sql env db) = 0)) as [->|]; [|lia].
  rewrite warnings_count_rls, <- (count_occ_In string_dec).
  unfold warnTablesWithoutRLS. intros [Hin [Ht _]%andb_true_iff]%filter_In.
  split; [done|]. split; [by apply readdirSync_elem, list_elem_of_In|].
  by apply test_rxTableName.
Qed.

End MoreEngineFacts.

(** ** Further facts about the command line and the template expander *)

(** X13.  The commit flag.  The run is in commit mode exactly when some
    command-line argument, at any position, is [--commit] up to the case of
    its ASCII letters. *)
Theorem commit_flag env :
  JS.falsy (doCommit env) = false
  ↔ ∃ arg, arg ∈ argv env ∧ toLowerCase arg = "--commit".
Proof.
  unfold doCommit. split.
  - destruct (JS.find _ (argv env)) as [arg|] eqn:Hfind; [|done]. intros _.
    apply find_some in Hfind as [Hin Harg%bool_decide_eq_true].
    exists arg. split; [by apply list_elem_of_In|done].
  - intros (arg & Hin & Harg).
    destruct (find_some_any (fun a => bool_decide (toLowerCase a = "--commit"))
                (argv env) arg Hin) as (y & -> & _ & Hy%bool_decide_eq_true);
      [by apply bool_decide_eq_true|].
    simpl. destruct (decide (y = "")) as [->|]; [|done]. done.
Qed.

(** The schema and the object that the trigger pattern captures at a start
    index: the schema has no dot, the object has no [")%"]. *)
Lemma m_rxDefaultTrigger_names pos rest caps st :
  m rxDefaultTrigger Some (MkState pos rest caps) = Some st →
  ∃ c1 c2 post,
    rest = marker_text c1 c2 ++ post
    ∧ ms_caps st = <[1 := Some c2]> (<[0 := Some c1]> caps)
    ∧ ("."%char ∉ c1)
    ∧ ∀ u v, c2 ≠ u ++ code_units ")%" ++ v.
Proof.
  rewrite m_rxDefaultTrigger.
  destruct (strip _ rest) as [r1|] eqn:H0; [|done]. apply strip_Some in H0.
  destruct (scan dot ["."%char] r1) as [[c1 r2]|] eqn:H1; [|done].
  destruct (scan dot (code_units ")%") r2) as [[c2 post]|] eqn:H2; [|done].
  apply scan_Some in H1 as [H1 _]. apply scan_Some in H2 as [H2 _].
  pose proof (indexOf_Some _ _ _ _ H1) as E1.
  pose proof (indexOf_Some _ _ _ _ H2) as E2.
  intros [= <-]. exists c1, c2, post. repeat split.
  - by rewrite marker_parts, H0, E1, E2.
  - intros (u & v & ->)%list_elem_of_split.
    pose proof (indexOf_first _ _ _ _ H1 u (v ++ ["."%char] ++ r2)) as Hle.
    rewrite length_app in Hle. simpl in Hle.
    assert (length u + S (length v) ≤ length u)%nat; [|lia].
    apply Hle. rewrite E1. by rewrite <- !app_assoc.
  - intros u v ->.
    pose proof (indexOf_first _ _ _ _ H2 u (v ++ code_units ")%" ++ post)) as Hle.
    rewrite !length_app in Hle.
    assert (length u + (length (code_units ")%") + length v) ≤ length u)%nat as Hlt.
    { apply Hle. rewrite E2. by rewrite <- !app_assoc. }
    simpl in Hlt. lia.
Qed.

(** X14.  What the trigger substitution takes as names.  It rewrites the first
    trigger placeholder of the text, the one that starts first; the schema
    is the text between the opening parenthesis and the first dot, so it has
    no dot, and the object is the text from there to the first [")%"];
    both are on one line.  The text before and after the placeholder is
    kept. *)
Theorem trigger_placeholder_names s mt :
  exec rxDefaultTrigger 2 s = Some mt →
  ∃ pre c1 c2 post,
    code_units s = pre ++ marker_text c1 c2 ++ post
    ∧ mt_caps mt = [Some c1; Some c2]
    ∧ inject_trigger s = of_code_units (pre ++ trigger_text c1 c2 ++ post)
    ∧ ("."%char ∉ c1) ∧ (∀ u v, c2 ≠ u ++ code_units ")%" ++ v)
    ∧ Forall (fun c => dot c = true) (c1 ++ c2)
    ∧ ∀ u d1 d2 v,
        Forall (fun c => dot c = true) (d1 ++ d2) →
        code_units s = u ++ marker_text d1 d2 ++ v → (length pre ≤ length u)%nat.
Proof.
  intros Hexec.
  destruct (exec_rxDefaultTrigger_Some s mt Hexec)
    as (pre & c1 & c2 & post & Hs & Hc1 & Hc2 & -> & Hfirst & Hloc).
  exists pre, c1, c2, post. split; [done|]. split; [done|].
  split; [by apply inject_trigger_Some|].
  specialize (Hloc 0 post).
  apply m_rxDefaultTrigger_names in Hloc as (d1 & d2 & post' & Heq & Hcaps & Hd1 & Hd2).
  simpl in Hcaps. injection Hcaps as <- <-.
  split; [done|]. split; [done|]. split; [by apply Forall_app|].
  intros u e1 e2 v [He1 He2]%Forall_app. by apply Hfirst.
Qed.

(** X15.  The text that replaces a trigger placeholder is the template with
    every [$1] replaced by the schema and every [$2] by the object, whatever
    the two names are; the rest of the template, the [$func$] quotes
    included, is kept as it is, and the names are not looked at again. *)
Theorem trigger_text_is_the_filled_template pre text post c1 c2 :
  getSubstitution (MkMatch pre text post [Some c1; Some c2]) (code_units default_trigger)
  = fill c1 c2 (code_units default_trigger).
Proof. vm_compute. reflexivity. Qed.

Lemma indexOf_at c stop w r :
  c ∉ w → indexOf (c :: stop) (w ++ (c :: stop) ++ r) = Some (w, r).
Proof.
  intros Hc. rewrite indexOf_after by done. rewrite indexOf_eq, strip_app.
  by rewrite app_nil_r.
Qed.

(** X16.  The expansion of a script with the columns placeholder in front of a
    trigger placeholder.  When the text before and between them has no [%],
    the schema is on one line and has no dot and the object is on one line
    and has no closing parenthesis, the expansion is the text with the block
    of columns and the trigger text in place of the two placeholders; what
    comes before, between and after them, later placeholders included, is
    kept as it is. *)
Theorem expansion_of_a_script s a k c1 c2 post :
  code_units s
  = a ++ code_units "%DEFAULT_COLUMNS%" ++ k ++ marker_text c1 c2 ++ post →
  ("%"%char ∉ a) → ("%"%char ∉ k) →
  Forall (fun c => dot c = true) c1 → ("."%char ∉ c1) →
  Forall (fun c => dot c = true) c2 → (")"%char ∉ c2) →
  injectDefaults s
  = of_code_units (a ++ code_units default_columns ++ k ++ trigger_text c1 c2 ++ post).
Proof.
  intros Hs Ha Hk Hc1 Hdot Hc2 Hpar. unfold injectDefaults.
  rewrite (inject_columns_Some s a (k ++ marker_text c1 c2 ++ post)); cycle 1.
  { rewrite Hs. by apply (indexOf_at "%"%char (code_units "DEFAULT_COLUMNS%")). }
  destruct columns_shape as (b & Hb & Hpercent).
  assert (Hblock : "%"%char ∉ code_units default_columns).
  { rewrite Hb, not_elem_of_app. split; [done|].
    by intros ?%list_elem_of_singleton. }
  remember (code_units default_columns) as blk eqn:Eblk. clear Eblk Hb.
  replace (a ++ blk ++ k ++ marker_text c1 c2 ++ post)
    with ((a ++ blk ++ k) ++ marker_text c1 c2 ++ post) by (by rewrite <- !app_assoc).
  rewrite inject_trigger_at; [by rewrite <- !app_assoc| |].
  - intros u d1 d2 v _ _ Hu.
    change (u ++ marker_text d1 d2 ++ v)
      with (u ++ "%"%char :: (code_units "DEFAULT_TRIGGER(" ++ d1 ++ "."%char :: d2
                               ++ code_units ")%") ++ v) in Hu.
    apply after_avoiding in Hu as (k2 & -> & _).
    + rewrite !length_app. lia.
    + rewrite !not_elem_of_app. by repeat split.
  - intros pos' post'. rewrite m_rxDefaultTrigger, marker_parts, strip_app.
    assert (scan dot ["."%char] (c1 ++ ["."%char] ++ c2 ++ code_units ")%" ++ post')
            = Some (c1, c2 ++ code_units ")%" ++ post')) as ->.
    { apply scan_Some. split; [|done]. by apply (indexOf_at "."%char []). }
    assert (scan dot (code_units ")%") (c2 ++ code_units ")%" ++ post')
            = Some (c2, post')) as ->.
    { apply scan_Some. split; [|done]. by apply (indexOf_at ")"%char ["%"%char]). }
    rewrite marker_length. do 2 f_equal. lia.
Qed.

(** X17.  The order of the directory listing plays no part.  The names are
    sorted before the two checks, so two listings of the same names, in any
    order, give the same sorted list and the same two lists of warnings. *)
Theorem listing_order_is_irrelevant us l l' :
  l ≡ₚ l' →
  sort l = sort l'
  ∧ warnNotReferencedScripts us (sort l) = warnNotReferencedScripts us (sort l')
  ∧ warnTablesWithoutRLS (sort l) = warnTablesWithoutRLS (sort l').
Proof.
  intros Hperm.
  assert (sort l = sort l') as ->; [|done].
  apply (StronglySorted_unique String.le).
  - apply StronglySorted_merge_sort; apply _.
  - apply StronglySorted_merge_sort; apply _.
  - unfold sort. by rewrite !merge_sort_Permutation.
Qed.

(** ** The format of the hash *)

Lemma be_bytes_length n x : length (SHA256.be_bytes n x) = n.
Proof.
  revert x. induction n as [|n IH]; intros x; simpl; [done|].
  rewrite length_app, IH. simpl. lia.
Qed.

Lemma be_bytes_bound n x : Forall (fun b => (b < 256)%N) (SHA256.be_bytes n x).
Proof.
  revert x. induction n as [|n IH]; intros x; simpl; [done|].
  apply Forall_app. split; [done|]. repeat constructor. by apply N.mod_lt.
Qed.

Lemma round_length v kw : length (SHA256.round v kw) = length v.
Proof. by destruct v as [|? [|? [|? [|? [|? [|? [|? [|? [|? ?]]]]]]]]]. Qed.

Lemma rounds_length l : ∀ v, length (fold_left SHA256.round l v) = length v.
Proof.
  induction l as [|kw l IH]; intros v; simpl; [done|]. by rewrite IH, round_length.
Qed.

Lemma compress_length h block : length (SHA256.compress h block) = length h.
Proof.
  unfold SHA256.compress. rewrite length_map, length_combine, rounds_length. lia.
Qed.

Lemma state_length blocks : ∀ h,
  length (fold_left SHA256.compress blocks h) = length h.
Proof.
  induction blocks as [|b blocks IH]; intros h; simpl; [done|].
  by rewrite IH, compress_length.
Qed.

Lemma hex_digit_range y :
  (y < 16)%N → SHA256.hex_digit y ∈ code_units "0123456789abcdef".
Proof.
  intros Hy.
  assert (Hall : forallb (fun n => bool_decide (SHA256.hex_digit (N.of_nat n)
                                                 ∈ code_units "0123456789abcdef"))
                   (seq 0 16) = true) by (vm_compute; reflexivity).
  rewrite forallb_forall in Hall. specialize (Hall (N.to_nat y)).
  rewrite N2Nat.id in Hall. eapply bool_decide_eq_true_1, Hall, in_seq. lia.
Qed.

(** X18.  The form of the hash.  Whatever the text of the script, the hash
    that is compared with and stored in the ledger is a text of 64
    characters, each a digit or a letter from [a] to [f]. *)
Theorem sha256_hex_format s :
  length (code_units (SHA256.hex s)) = 64
  ∧ Forall (fun c => c ∈ code_units "0123456789abcdef") (code_units (SHA256.hex s)).
Proof.
  unfold SHA256.hex, SHA256.digest. rewrite code_units_of.
  set (blocks := SHA256.chunks _ _ _).
  pose proof (state_length blocks SHA256.H0) as Hlen.
  change (length SHA256.H0) with 8 in Hlen.
  remember (fold_left SHA256.compress blocks SHA256.H0) as h eqn:Hh. clear Hh blocks.
  split.
  - assert (∀ l, length (flat_map SHA256.hex_byte l) = 2 * length l) as ->.
    { induction l as [|x l IH]; simpl; [done|]. rewrite IH. lia. }
    assert (∀ l, length (flat_map (SHA256.be_bytes 4) l) = 4 * length l) as ->.
    { induction l as [|x l IH]; [done|].
      cbn [flat_map]. rewrite length_app, be_bytes_length, IH. simpl. lia. }
    rewrite Hlen. done.
  - apply Forall_flat_map, Forall_forall. intros b Hb.
    assert (b < 256)%N as Hbound.
    { apply list_elem_of_In, in_flat_map in Hb as (w & _ & Hb).
      pose proof (be_bytes_bound 4 w) as Hall. rewrite Forall_forall in Hall.
      by apply Hall, list_elem_of_In. }
    unfold SHA256.hex_byte.
    constructor; [|constructor; [|constructor]]; apply hex_digit_range.
    + apply N.Div0.div_lt_upper_bound. lia.
    + by apply N.mod_lt.
Qed.

(** ** The schema of the trigger function *)

Lemma fill_cons_cons c1 c2 a b t :
  fill c1 c2 (a :: b :: t)
  = if decide (a = "$"%char ∧ b = "1"%char) then c1 ++ fill c1 c2 t
    else if decide (a = "$"%char ∧ b = "2"%char) then c2 ++ fill c1 c2 t
    else a :: fill c1 c2 (b :: t).
Proof. reflexivity. Qed.

(** Filling in a template piece by piece, when no piece ends with [$]. *)
Lemma fill_app c1 c2 t2 : ∀ n t1,
  (length t1 ≤ n)%nat → last t1 ≠ Some "$"%char →
  fill c1 c2 (t1 ++ t2) = fill c1 c2 t1 ++ fill c1 c2 t2.
Proof.
  induction n as [|n IH]; intros t1 Hlen Hlast.
  - by destruct t1; [|simpl in Hlen; lia].
  - destruct t1 as [|a [|b t']]; [done| |].
    + simpl in Hlast. destruct t2 as [|b t2]; [done|].
      change ([a] ++ b :: t2) with (a :: b :: t2). rewrite fill_cons_cons.
      rewrite !decide_False by (intros [-> _]; by destruct Hlast). done.
    + change ((a :: b :: t') ++ t2) with (a :: b :: (t' ++ t2)).
      rewrite !fill_cons_cons. simpl in Hlen.
      assert (last (b :: t') ≠ Some "$"%char) as Hb by done.
      repeat case_decide.
      * rewrite IH, app_assoc; [done|lia|].
        destruct t' as [|x t']; [|done]. simpl in *. by destruct H as [_ ->].
      * rewrite IH, app_assoc; [done|lia|].
        destruct t' as [|x t']; [|done]. simpl in *. by destruct H0 as [_ ->].
      * change (b :: t' ++ t2) with ((b :: t') ++ t2).
        rewrite IH; [done|simpl; lia|done].
Qed.

Lemma trigger_text_fill c1 c2 :
  trigger_text c1 c2 = fill c1 c2 (code_units default_trigger).
Proof. vm_compute. reflexivity. Qed.

(** X19.  The schema of the trigger function.  Whatever the schema and the
    object of the placeholder, the trigger text creates the function
    [func_tr_schema_object_update] in the schema [public], and its trigger
    executes the function of that name in the schema of the placeholder. *)
Theorem trigger_function_schema c1 c2 :
  ∃ x y z,
    trigger_text c1 c2
    = x ++ (code_units "CREATE FUNCTION public.func_tr_" ++ c1 ++ code_units "_"
              ++ c2 ++ code_units "_update()")
        ++ y
        ++ (code_units "EXECUTE FUNCTION " ++ c1 ++ code_units ".func_tr_" ++ c1
              ++ code_units "_" ++ c2 ++ code_units "_update();")
        ++ z.
Proof.
  set (created := code_units "CREATE FUNCTION public.func_tr_$1_$2_update()").
  set (executed_by := code_units "EXECUTE FUNCTION $1.func_tr_$1_$2_update();").
  destruct (indexOf created (code_units default_trigger)) as [[tx r1]|] eqn:H1;
    [|by vm_compute in H1].
  destruct (indexOf executed_by r1) as [[ty tz]|] eqn:H2.
  2: { vm_compute in H1. injection H1 as <- <-. by vm_compute in H2. }
  exists (fill c1 c2 tx), (fill c1 c2 ty), (fill c1 c2 tz).
  rewrite trigger_text_fill.
  rewrite (indexOf_Some _ _ _ _ H1), (indexOf_Some _ _ _ _ H2).
  assert (Hlast : last tx ≠ Some "$"%char ∧ last ty ≠ Some "$"%char).
  { vm_compute in H1. injection H1 as <- <-. vm_compute in H2. injection H2 as <- <-.
    split; vm_compute; discriminate. }
  destruct Hlast as [Hx Hy].
  rewrite (fill_app c1 c2 _ (length tx) tx) by done.
  rewrite (fill_app c1 c2 _ (length created) created) by (done || (vm_compute; discriminate)).
  rewrite (fill_app c1 c2 _ (length ty) ty) by done.
  rewrite (fill_app c1 c2 _ (length executed_by) executed_by)
    by (done || (vm_compute; discriminate)).
  reflexivity.
Qed.

(** ** The further facts on concrete inputs *)

(** A ledger that knows the first script with the hash of its file and the
    second with another hash; the third script is new. *)
Lemma committed_bodies_witness :
  let us := {| updates := ["public.a TABLE.sql"; "public.b TABLE.sql";
                           "public.c TABLE.sql"]; ignore := [] |} in
  let files := [("public.a TABLE.sql", "CREATE TABLE public.a ();");
                ("public.b TABLE.sql", "CREATE TABLE public.b (id INT);");
                ("public.c TABLE.sql", "CREATE TABLE public.c ();")] in
  let db := MkDatabase ["CREATE TABLE public.a ();"; "CREATE TABLE public.b ();"]
              (Some [MkRow "public.a TABLE.sql" (SHA256.hex "CREATE TABLE public.a ();");
                     MkRow "public.b TABLE.sql" (SHA256.hex "CREATE TABLE public.b ();")]) in
  let o := run demo_sql (demo_env ["--commit"] files us) db in
  exit_code o = 0
  ∧ List.filter is_script (output o)
    = [Sent (Script "CREATE TABLE public.b (id INT);");
       Sent (Script "CREATE TABLE public.c ();")]
  ∧ last (output o) = Some (WarnNoRLS "public.c TABLE.sql").
Proof.
  intros us files db o.
  assert (Hexit : exit_code o = 0) by (vm_compute; reflexivity).
  destruct (committed_bodies demo_sql (demo_env ["--commit"] files us) db us
              (list_to_map files)) as (Hbodies & _ & _ & Hlast).
  - vm_compute. reflexivity.
  - reflexivity.
  - reflexivity.
  - exact Hexit.
  - split; [exact Hexit|]. split.
    + subst o. rewrite Hbodies. vm_compute. reflexivity.
    + subst o. rewrite Hlast. vm_compute. reflexivity.
Defined.

(** A dry run, and then a commit run on what it leaves behind. *)
Lemma uncommitted_run_leaves_no_trace_witness :
  let us := {| updates := ["public.a TABLE.sql"]; ignore := [] |} in
  let files := [("public.a TABLE.sql", "CREATE TABLE public.a ();")] in
  let env := demo_env [] files us in
  run demo_sql (with_argv env ["--commit"]) (database (run demo_sql env fresh))
  = run demo_sql (with_argv env ["--commit"]) fresh.
Proof.
  intros us files env.
  apply (uncommitted_run_leaves_no_trace demo_sql env fresh ["--commit"]).
  right. vm_compute. reflexivity.
Defined.

(** A ledger with the row of a script that has changed and the row of a
    script that has left the manifest. *)
Lemma ledger_rows_are_kept_witness :
  let us := {| updates := ["public.b TABLE.sql"]; ignore := [] |} in
  let files := [("public.b TABLE.sql", "CREATE TABLE public.b (id INT);")] in
  let old := MkRow "public.a TABLE.sql" (SHA256.hex "CREATE TABLE public.a ();") in
  let db := MkDatabase ["CREATE TABLE public.b ();"; "CREATE TABLE public.a ();"]
              (Some [MkRow "public.b TABLE.sql" (SHA256.hex "CREATE TABLE public.b ();");
                     old]) in
  let o := run demo_sql (demo_env ["--commit"] files us) db in
  records "public.a TABLE.sql" (snapshot (database o)) = [old].
Proof.
  intros us files old db o.
  destruct (ledger_rows_are_kept demo_sql (demo_env ["--commit"] files us) db us
              (list_to_map files)) as [_ Hkept].
  - reflexivity.
  - reflexivity.
  - subst o. rewrite Hkept.
    + vm_compute. reflexivity.
    + apply (bool_decide_unpack _). vm_compute. exact I.
Defined.

(** The second entry of the manifest has no file. *)
Lemma missing_file_aborts_witness :
  let us := {| updates := ["public.a TABLE.sql"; "public.b TABLE.sql";
                           "public.c TABLE.sql"]; ignore := [] |} in
  let files := [("public.a TABLE.sql", "CREATE TABLE public.a ();");
                ("public.c TABLE.sql", "CREATE TABLE public.c ();")] in
  let o := run demo_sql (demo_env ["--commit"] files us) fresh in
  exit_code o = 1
  ∧ database o = MkDatabase [] (Some [])
  ∧ Failed (FileNotFound "public.b TABLE.sql") ∈ output o.
Proof.
  intros us files o. subst o.
  rewrite (missing_file_aborts demo_sql (demo_env ["--commit"] files us) fresh us
             (list_to_map files) ["public.a TABLE.sql"] "public.b TABLE.sql"
             ["public.c TABLE.sql"] ["CREATE TABLE public.a ();"]).
  - repeat split. apply (bool_decide_unpack _). vm_compute. exact I.
  - apply (bool_decide_unpack _). vm_compute. exact I.
  - reflexivity.
  - reflexivity.
  - reflexivity.
  - reflexivity.
  - repeat constructor. vm_compute. by eexists.
  - vm_compute. reflexivity.
  - vm_compute. reflexivity.
Defined.

(** The port is set to the empty text. *)
Lemma first_unset_variable_witness :
  let env := {| argv := ["node"; "update-db.mjs"];
                process_env := <["PGPORT" := ""]> demo_vars;
                scripts_dir := None;
                scripts_json := None;
                reachable := false |} in
  run demo_sql env fresh = MkOutcome 1 [EnvVarNotSet "PGPORT"] fresh.
Proof.
  intros env.
  apply (first_unset_variable demo_sql env fresh ["PGHOST"] "PGPORT"
           ["PGDATABASE"; "PGUSER"; "PGPASSWORD"]).
  - reflexivity.
  - repeat constructor.
  - vm_compute. reflexivity.
Defined.

(** The server cannot be reached. *)
Lemma nothing_sent_without_connection_witness :
  let us := {| updates := ["public.a TABLE.sql"]; ignore := [] |} in
  let env := {| argv := ["node"; "update-db.mjs"; "--commit"];
                process_env := demo_vars;
                scripts_dir := Some (list_to_map
                                       [("public.a TABLE.sql", "CREATE TABLE public.a ();")]);
                scripts_json := Some us;
                reachable := false |} in
  exit_code (run demo_sql env fresh) = 1 ∧ database (run demo_sql env fresh) = fresh.
Proof.
  intros us env.
  destruct (nothing_sent_without_connection demo_sql env fresh) as (Hexit & _ & _ & Hdb).
  - right. reflexivity.
  - split; [exact Hexit|exact Hdb].
Defined.

(** A file on the ignore list and a file on neither list. *)
Lemma not_referenced_warning_iff_witness :
  let us := {| updates := ["public.a TABLE.sql"]; ignore := ["public.a RLS.sql"] |} in
  let files := [("public.a TABLE.sql", "CREATE TABLE public.a ();");
                ("public.a RLS.sql", "");
                ("public.old TABLE.sql", "CREATE TABLE public.old ();")] in
  let o := run demo_sql (demo_env [] files us) fresh in
  (WarnNotReferenced "public.a RLS.sql" ∉ output o)
  ∧ WarnNotReferenced "public.old TABLE.sql" ∈ output o.
Proof.
  intros us files o. split.
  - intros Hin.
    apply (not_referenced_warning_iff demo_sql (demo_env [] files us) fresh us
             (list_to_map files) "public.a RLS.sql") in Hin as (_ & _ & _ & Hign);
      [|reflexivity|reflexivity|discriminate].
    apply Hign. apply (bool_decide_unpack _). vm_compute. exact I.
  - apply (not_referenced_warning_iff demo_sql (demo_env [] files us) fresh us
             (list_to_map files) "public.old TABLE.sql");
      [reflexivity|reflexivity|discriminate|].
    split; [vm_compute; reflexivity|]. split; [vm_compute; by eexists|].
    split; apply (bool_decide_unpack _); vm_compute; exact I.
Defined.

(** Two files that are not referenced and two tables without RLS script,
    in a dry run and in a commit run. *)
Lemma warnings_in_order_witness :
  let us := {| updates := []; ignore := [] |} in
  let files := [("public.b TABLE.sql", ""); ("public.a TABLE.sql", "")] in
  let warned :=
    [WarnNotReferenced "public.a TABLE.sql"; WarnNotReferenced "public.b TABLE.sql";
     WarnNoRLS "public.a TABLE.sql"; WarnNoRLS "public.b TABLE.sql"] in
  List.filter is_warning (output (run demo_sql (demo_env [] files us) fresh)) = warned
  ∧ List.filter is_warning (output (run demo_sql (demo_env ["--commit"] files us) fresh))
    = warned.
Proof.
  intros us files warned. split.
  - destruct (warnings_in_order demo_sql (demo_env [] files us) fresh us
                (list_to_map files)) as (Hw & _).
    + reflexivity.
    + reflexivity.
    + vm_compute. reflexivity.
    + rewrite Hw. vm_compute. reflexivity.
  - destruct (warnings_in_order demo_sql (demo_env ["--commit"] files us) fresh us
                (list_to_map files)) as (Hw & _).
    + reflexivity.
    + reflexivity.
    + vm_compute. reflexivity.
    + rewrite Hw. vm_compute. reflexivity.
Defined.

(** Two listings of the same two names. *)
Lemma listing_order_is_irrelevant_witness :
  let us := {| updates := ["public.a TABLE.sql"]; ignore := [] |} in
  sort ["public.b TABLE.sql"; "public.a TABLE.sql"]
  = sort ["public.a TABLE.sql"; "public.b TABLE.sql"].
Proof.
  intros us.
  apply (listing_order_is_irrelevant us
           ["public.b TABLE.sql"; "public.a TABLE.sql"]
           ["public.a TABLE.sql"; "public.b TABLE.sql"]).
  apply perm_swap.
Defined.

(** The one pairing warning of a directory with a table script, a function
    script and no RLS script. *)
Lemma rls_warning_only_for_tables_witness :
  let us := {| updates := ["public.a TABLE.sql"; "public.f FUNCTION.sql"];
               ignore := [] |} in
  let files := [("public.a TABLE.sql", "CREATE TABLE public.a ();");
                ("public.f FUNCTION.sql", "SELECT 1;")] in
  let o := run demo_sql (demo_env [] files us) fresh in
  WarnNoRLS "public.a TABLE.sql" ∈ output o
  ∧ table_script_name "public.a TABLE.sql".
Proof.
  intros us files o.
  assert (Hin : WarnNoRLS "public.a TABLE.sql" ∈ output o).
  { apply (bool_decide_unpack _). vm_compute. exact I. }
  split; [exact Hin|].
  apply (rls_warning_only_for_tables demo_sql (demo_env [] files us) fresh us
           (list_to_map files) "public.a TABLE.sql"); [reflexivity|reflexivity|exact Hin].
Defined.

(** A placeholder whose object has a dot. *)
Lemma trigger_placeholder_names_witness :
  let s := "%DEFAULT_TRIGGER(app.audit.log)%" in
  ∃ mt, exec rxDefaultTrigger 2 s = Some mt
        ∧ mt_caps mt = [Some (code_units "app"); Some (code_units "audit.log")].
Proof.
  intros s.
  destruct (exec rxDefaultTrigger 2 s) as [mt|] eqn:Hexec; [|vm_compute in Hexec; discriminate].
  exists mt. split; [reflexivity|].
  destruct (trigger_placeholder_names s mt Hexec) as (pre & c1 & c2 & post & _ & Hcaps & _).
  vm_compute in Hexec. injection Hexec as <-. reflexivity.
Defined.

(** A table script with both placeholders. *)
Lemma expansion_of_a_script_witness :
  let s := "ALTER TABLE public.t
%DEFAULT_COLUMNS%;
%DEFAULT_TRIGGER(public.t)%
" in
  injectDefaults s
  = "ALTER TABLE public.t
" +:+ default_columns +:+ ";
" +:+ of_code_units (trigger_text (code_units "public") (code_units "t")) +:+ "
".
Proof.
  intros s.
  rewrite (expansion_of_a_script s (code_units "ALTER TABLE public.t
") (code_units ";
") (code_units "public") (code_units "t") (code_units "
")).
  - vm_compute. reflexivity.
  - vm_compute. reflexivity.
  - apply (bool_decide_unpack _). vm_compute. exact I.
  - apply (bool_decide_unpack _). vm_compute. exact I.
  - apply (bool_decide_unpack _). vm_compute. exact I.
  - apply (bool_decide_unpack _). vm_compute. exact I.
  - apply (bool_decide_unpack _). vm_compute. exact I.
  - apply (bool_decide_unpack _). vm_compute. exact I.
Defined.

